(** * Detection evaluation core of [compute_mAP.py]

    A shallow embedding of the evaluation functions of
    [src/compute_mAP.py] -- [box_iou], [match_gt_box], [voc_ap],
    [get_rec_prec], [calc_AP] and [compute_mAP] --
    together with the properties of them that the specification states.

    Conventions of the embedding.
    - Python numbers (the [int] flags and counters as well as the
      [float] curve values) are exact rationals [Q]; [==] on numbers is
      [Qeq_bool], [<] is [Qltb].  Rounding of binary floating point is
      not modelled.
    - Python list objects holding numbers live in a [heap]; a variable
      bound to such a list is a location [loc].  [l.insert(0, x)],
      [l.append(x)], [l[i] = x] update the heap in place, [l[:]]
      allocates a copy.  Exceptions are the [Raise] results.
    - A box is stored in the records by the source as the string
      ['xmin,ymin,xmax,ymax'] and parsed with [float] at each use; the
      records of the embedding hold the parsed box.
    - What Matplotlib draws ([draw_rec_prec], and inside
      [draw_plot_func]) and the file and model readers are outside the
      embedding.  Of [draw_plot_func] the code that decides whether it
      returns is kept: the unpacking of line 475 and the lookups of
      lines 484-485. *)

From Stdlib Require Import QArith Qminmax Lqa ZArith Lia String.
From stdpp Require Import base tactics option list.

Local Open Scope Q_scope.

(** ** Numbers *)

Module PyNum.

(** [a < b] on Python numbers. *)
Definition Qltb (a b : Q) : bool := negb (Qle_bool b a).

(** [max(a, b)]: the first argument unless the second is larger. *)
Definition py_max (a b : Q) : Q := if Qltb a b then b else a.

(** [min(a, b)]: the first argument unless the second is smaller. *)
Definition py_min (a b : Q) : Q := if Qltb b a then b else a.

End PyNum.
Export PyNum.

(** ** Exceptions, heap of list objects, and the evaluation monad *)

Inductive exn : Set :=
| ZeroDivisionError
| IndexError
| KeyError
| ValueError
| DanglingRef (* a location that was never allocated; no Python run reaches it *).

Inductive result (A : Type) : Type :=
| Ok (a : A)
| Raise (e : exn).
Arguments Ok {A} a.
Arguments Raise {A} e.

Abbreviation loc := nat (only parsing).
Abbreviation heap := (list (list Q)) (only parsing).

Definition M (A : Type) : Type := heap -> result (A * heap).

Definition ret {A} (a : A) : M A := fun h => Ok (a, h).

Definition bind {A B} (m : M A) (k : A -> M B) : M B :=
  fun h => match m h with
           | Ok (a, h') => k a h'
           | Raise e => Raise e
           end.

Definition throw {A} (e : exn) : M A := fun _ => Raise e.

Declare Scope py_scope.
Delimit Scope py_scope with py.
Notation "x <- m ;; k" := (bind m (fun x => k))
  (at level 100, m at next level, right associativity) : py_scope.
Notation "m ;;; k" := (bind m (fun _ => k))
  (at level 100, right associativity) : py_scope.
Local Open Scope py_scope.

Module PyList.

(** A list display or [[x] * n]: a new object. *)
Definition list_new (v : list Q) : M loc :=
  fun h => Ok (length h, h ++ [v]).

Definition list_read (l : loc) : M (list Q) :=
  fun h => match h !! l with
           | Some v => Ok (v, h)
           | None => Raise DanglingRef
           end.

Definition list_write (l : loc) (v : list Q) : M unit :=
  fun h => match h !! l with
           | Some _ => Ok (tt, <[l := v]> h)
           | None => Raise DanglingRef
           end.

(** [len(l)] *)
Definition list_len (l : loc) : M nat :=
  v <- list_read l ;; ret (length v).

(** [l[i]] for [i >= 0] *)
Definition list_get (l : loc) (i : nat) : M Q :=
  v <- list_read l ;;
  match v !! i with
  | Some x => ret x
  | None => throw IndexError
  end.

(** [l[i] = x] for [i >= 0] *)
Definition list_set (l : loc) (i : nat) (x : Q) : M unit :=
  v <- list_read l ;;
  if decide (i < length v)%nat then list_write l (<[i := x]> v)
  else throw IndexError.

(** [l.insert(0, x)] *)
Definition list_insert0 (l : loc) (x : Q) : M unit :=
  v <- list_read l ;; list_write l (x :: v).

(** [l.append(x)] *)
Definition list_append (l : loc) (x : Q) : M unit :=
  v <- list_read l ;; list_write l (v ++ [x]).

(** [l[:]] *)
Definition list_copy (l : loc) : M loc :=
  v <- list_read l ;; list_new v.

End PyList.
Export PyList.

(** [for x in xs: body(x)] *)
Fixpoint for_each {A} (xs : list A) (body : A -> M unit) : M unit :=
  match xs with
  | [] => ret tt
  | x :: rest => body x ;;; for_each rest body
  end.

(** A [for] loop that carries the local variables [s] it assigns. *)
Fixpoint for_fold {A S} (xs : list A) (s : S) (body : S -> A -> M S) : M S :=
  match xs with
  | [] => ret s
  | x :: rest => s' <- body s x ;; for_fold rest s' body
  end.

(** [a / b] with [from __future__ import division] *)
Definition py_div (a b : Q) : M Q :=
  if Qeq_bool b 0 then throw ZeroDivisionError else ret (a / b).

(** ** Boxes and [box_iou] (lines 263-281) *)

Record box : Set := Box { xmin : Q; ymin : Q; xmax : Q; ymax : Q }.

Definition box_iou (pred_box gt_box : box) : Q :=
  let inter_box :=
    Box (py_max (xmin pred_box) (xmin gt_box))
        (py_max (ymin pred_box) (ymin gt_box))
        (py_min (xmax pred_box) (xmax gt_box))
        (py_min (ymax pred_box) (ymax gt_box)) in
  let pred_area :=
    (xmax pred_box - xmin pred_box) * (ymax pred_box - ymin pred_box) in
  let gt_area :=
    (xmax gt_box - xmin gt_box) * (ymax gt_box - ymin gt_box) in
  let inter_area :=
    (xmax inter_box - xmin inter_box) * (ymax inter_box - ymin inter_box) in
  let union_area := pred_area + gt_area - inter_area in
  if Qeq_bool union_area 0 then 0 else inter_area / union_area.

(** Boxes of the data model: ordered coordinates. *)
Definition well_formed (b : box) : Prop :=
  xmin b <= xmax b /\ ymin b <= ymax b.

(** The rectangles share no area: separated along x or along y. *)
Definition disjoint (a b : box) : Prop :=
  xmax a <= xmin b \/ xmax b <= xmin a \/
  ymax a <= ymin b \/ ymax b <= ymin a.

(** ** Records *)

(** A ground-truth record during matching:
    [['image_file', 'xmin,ymin,xmax,ymax', 'usage']]. *)
Record gt_record : Set :=
  GT { gt_image : string; gt_coord : box; gt_usage : string }.

(** A prediction record: [['image_file', 'xmin,ymin,xmax,ymax', score]]. *)
Record pred_record : Set :=
  Pred { pred_image : string; pred_coord : box; pred_score : Q }.

(** [enumerate(l)] *)
Fixpoint enumerate_from {A} (i : nat) (l : list A) : list (nat * A) :=
  match l with
  | [] => []
  | x :: rest => (i, x) :: enumerate_from (S i) rest
  end.
Definition enumerate {A} (l : list A) : list (nat * A) := enumerate_from 0 l.

(** [range(a, b)] for naturals *)
Definition range (a b : nat) : list nat := seq a (b - a).

(** [range(start, -1, -1)]: [start], [start - 1], ..., [0] *)
Definition range_down (start : Z) : list nat :=
  if (start <? 0)%Z then [] else rev (seq 0 (S (Z.to_nat start))).

(** ** [match_gt_box] (lines 284-323) *)

(** The condition of line 315. *)
Definition better (pred_record : pred_record) (max_iou : Q)
    (gt_record : gt_record) : bool :=
  Qltb max_iou (box_iou (pred_coord pred_record) (gt_coord gt_record))
  && String.eqb (gt_usage gt_record) "unused"
  && String.eqb (pred_image pred_record) (gt_image gt_record).

(** The loop of lines 308-317 on the pair [(max_iou, max_index)]. *)
Definition match_scan (pred_record : pred_record)
    (gt_records : list (nat * gt_record)) (init : Q * Z) : Q * Z :=
  fold_left
    (fun '(max_iou, max_index) '(i, gt_record) =>
       if better pred_record max_iou gt_record
       then (box_iou (pred_coord pred_record) (gt_coord gt_record), Z.of_nat i)
       else (max_iou, max_index))
    gt_records init.

Definition match_gt_box (pred_record : pred_record)
    (gt_records : list gt_record) (iou_threshold : Q) : Z :=
  let '(max_iou, max_index) :=
    match_scan pred_record (enumerate gt_records) (0, (-1)%Z) in
  if Qltb max_iou iou_threshold then (-1)%Z else max_index.

(** ** [voc_ap] (lines 325-368) *)

Definition voc_ap (rec prec : loc) : M (Q * loc * loc) :=
  list_insert0 rec 0 ;;;
  list_append rec 1 ;;;
  mrec <- list_copy rec ;;
  list_insert0 prec 0 ;;;
  list_append prec 0 ;;;
  mpre <- list_copy prec ;;
  n <- list_len mpre ;;
  for_each (range_down (Z.of_nat n - 2)) (fun i =>
    a <- list_get mpre i ;;
    b <- list_get mpre (i + 1) ;;
    list_set mpre i (py_max a b)) ;;;
  m <- list_len mrec ;;
  i_list <- for_fold (range 1 m) [] (fun i_list i =>
    a <- list_get mrec i ;;
    b <- list_get mrec (i - 1) ;;
    if negb (Qeq_bool a b) then ret (i_list ++ [i]) else ret i_list) ;;
  ap <- for_fold i_list 0 (fun ap i =>
    a <- list_get mrec i ;;
    b <- list_get mrec (i - 1) ;;
    c <- list_get mpre i ;;
    ret (ap + (a - b) * c)) ;;
  ret (ap, mrec, mpre).

(** ** [get_rec_prec] (lines 392-415) *)

(** The running-sum loop, written twice in the source (lines 397-400 for
    [false_positive], 402-405 for [true_positive]). *)
Definition cumsum_loop (l : loc) : M unit :=
  n <- list_len l ;;
  for_fold (range 0 n) 0 (fun cumsum idx =>
    val <- list_get l idx ;;
    cur <- list_get l idx ;;
    list_set l idx (cur + cumsum) ;;;
    ret (cumsum + val)) ;;;
  ret tt.

(** Lines 407-409. *)
Definition rec_loop (true_positive : loc) (gt_records : list gt_record)
    : M loc :=
  rec <- list_copy true_positive ;;
  n <- list_len true_positive ;;
  for_each (range 0 n) (fun idx =>
    a <- list_get true_positive idx ;;
    q <- py_div a (inject_Z (Z.of_nat (length gt_records))) ;;
    list_set rec idx q) ;;;
  ret rec.

(** Lines 411-413. *)
Definition prec_loop (true_positive false_positive : loc) : M loc :=
  prec <- list_copy true_positive ;;
  n <- list_len true_positive ;;
  for_each (range 0 n) (fun idx =>
    a <- list_get true_positive idx ;;
    f <- list_get false_positive idx ;;
    t <- list_get true_positive idx ;;
    q <- py_div a (f + t) ;;
    list_set prec idx q) ;;;
  ret prec.

Definition get_rec_prec (true_positive false_positive : loc)
    (gt_records : list gt_record) : M (loc * loc) :=
  cumsum_loop false_positive ;;;
  cumsum_loop true_positive ;;;
  rec <- rec_loop true_positive gt_records ;;
  prec <- prec_loop true_positive false_positive ;;
  ret (rec, prec).

(** ** [calc_AP] (lines 560-612) *)

(** Line 581: every record gets a fresh ['unused'] flag. *)
Definition add_usage (gt_records : list (string * box)) : list gt_record :=
  map (fun gt_record => GT (fst gt_record) (snd gt_record) "unused") gt_records.

(** Line 591.  The comprehension keeps references to the record objects
    of [gt_records]; a reference is the position of the object in
    [gt_records], kept here next to the record it points to. *)
Definition image_gt_records (gt_records : list gt_record)
    (pred_record : pred_record) : list (nat * gt_record) :=
  filter (fun rg => String.eqb (gt_image (snd rg)) (pred_image pred_record) = true)
         (enumerate gt_records).

(** Line 601, through the reference [r]. *)
Definition mark_used (r : nat) (gt_records : list gt_record) : list gt_record :=
  match gt_records !! r with
  | Some g => <[r := GT (gt_image g) (gt_coord g) "used"]> gt_records
  | None => gt_records
  end.

(** Lines 591-594: the object the prediction is assigned to, if any. *)
Definition assign (iou_threshold : Q) (gt_records : list gt_record)
    (pred_record : pred_record) : result (option nat) :=
  let image_gt_records := image_gt_records gt_records pred_record in
  let i := match_gt_box pred_record (map snd image_gt_records) iou_threshold in
  if (i =? -1)%Z then Ok None
  else match image_gt_records !! Z.to_nat i with
       | Some (r, _) => Ok (Some r)
       | None => Raise IndexError
       end.

(** The body of the loop of lines 589-605. *)
Definition match_body (iou_threshold : Q) (true_positive false_positive : loc)
    (st : list gt_record * nat) (ip : nat * pred_record)
    : M (list gt_record * nat) :=
  let '(gt_records, true_positive_count) := st in
  let '(idx, pred_record) := ip in
  match assign iou_threshold gt_records pred_record with
  | Raise e => throw e
  | Ok (Some r) =>
      list_set true_positive idx 1 ;;;
      ret (mark_used r gt_records, S true_positive_count)
  | Ok None =>
      list_set false_positive idx 1 ;;;
      ret (gt_records, true_positive_count)
  end.

(** [calc_AP] with the threshold it passes to [match_gt_box] as a
    parameter; the plot of line 610 is left out (its own code, lines
    425-426, indexes [mrec] and [mprec], which have two elements at
    least). *)
Definition calc_AP_at (iou_threshold : Q) (gt_records : list (string * box))
    (pred_records : list pred_record) : M (Q * nat) :=
  let gt_records := add_usage gt_records in
  let nd := length pred_records in
  true_positive <- list_new (repeat 0 nd) ;;
  false_positive <- list_new (repeat 0 nd) ;;
  st <- for_fold (enumerate pred_records) (gt_records, 0%nat)
          (match_body iou_threshold true_positive false_positive) ;;
  rp <- get_rec_prec true_positive false_positive (fst st) ;;
  am <- voc_ap (fst rp) (snd rp) ;;
  ret (fst (fst am), snd st).

Definition calc_AP := calc_AP_at (1 # 2).

(** ** [compute_mAP] (lines 622-685) *)

Module Dict.

(** A Python [dict] with string keys, in insertion order. *)
Definition dict (V : Type) : Type := list (string * V).

(** [d[k]]; [None] is [KeyError], and also [k not in d]. *)
Fixpoint get {V} (d : dict V) (k : string) : option V :=
  match d with
  | [] => None
  | (k', v) :: rest => if String.eqb k' k then Some v else get rest k
  end.

(** [d[k] = v] *)
Fixpoint set {V} (d : dict V) (k : string) (v : V) : dict V :=
  match d with
  | [] => [(k, v)]
  | (k', v') :: rest =>
      if String.eqb k' k then (k', v) :: rest else (k', v') :: set rest k v
  end.

(** [list(d.values())] *)
Definition values {V} (d : dict V) : list V := map snd d.

End Dict.

Definition Qsum (l : list Q) : Q := fold_left Qplus l 0.

(** [np.mean]; [None] stands for the [nan] of an empty list. *)
Definition np_mean (l : list Q) : option Q :=
  match l with
  | [] => None
  | _ => Some (Qsum l / inject_Z (Z.of_nat (length l)))
  end.

(** The body of the loop of lines 625-634 on [(APs, count_true_positives)]. *)
Definition class_body
    (gt_classes_records : Dict.dict (list (string * box)))
    (pred_classes_records : Dict.dict (list pred_record))
    (st : Dict.dict Q * Dict.dict nat) (class_name : string)
    : M (Dict.dict Q * Dict.dict nat) :=
  let '(APs, count_true_positives) := st in
  match Dict.get gt_classes_records class_name with
  | None => throw KeyError
  | Some gt_records =>
      match Dict.get pred_classes_records class_name with
      | None => ret (Dict.set APs class_name 0, count_true_positives)
      | Some pred_records =>
          r <- calc_AP gt_records pred_records ;;
          ret (Dict.set APs class_name (fst r),
               Dict.set count_true_positives class_name (snd r))
      end
  end.

Definition class_loop (class_names : list string)
    (gt_classes_records : Dict.dict (list (string * box)))
    (pred_classes_records : Dict.dict (list pred_record))
    : M (Dict.dict Q * Dict.dict nat) :=
  for_fold class_names ([], [])
    (class_body gt_classes_records pred_classes_records).

(** Lines 642-644 and 656-658: the number of records of every class. *)
Definition counter_per_class {V} (records : Dict.dict (list V))
    : Dict.dict nat :=
  fold_left (fun counter item => Dict.set counter (fst item) (length (snd item)))
    records [].

(** [sorted(dictionary.items(), key=operator.itemgetter(1))]: by
    increasing value; Python's sort is stable. *)
Fixpoint insert_by_value {V} (ltb : V -> V -> bool) (x : string * V)
    (l : list (string * V)) : list (string * V) :=
  match l with
  | [] => [x]
  | y :: rest =>
      if ltb (snd y) (snd x) then y :: insert_by_value ltb x rest
      else x :: y :: rest
  end.

Definition sorted_by_value {V} (ltb : V -> V -> bool)
    (dictionary : Dict.dict V) : list (string * V) :=
  foldr (insert_by_value ltb) [] dictionary.

(** [draw_plot_func] (lines 468-557) as far as its own code decides
    whether it returns; what Matplotlib draws is outside the embedding.
    Line 475 unpacks [zip( *sorted_dic_by_value)] into two names: for an
    empty dictionary [zip()] yields nothing and the assignment raises
    [ValueError]; otherwise it yields the keys and the values.  With a
    [true_p_bar] (lines 477-485; [None] is the [''] of the other calls)
    every key is looked up in it.  [ltb] is [<] on the values. *)
Definition draw_plot_func {V} (ltb : V -> V -> bool)
    (dictionary : Dict.dict V) (true_p_bar : option (Dict.dict nat))
    : M unit :=
  let sorted_dic_by_value := sorted_by_value ltb dictionary in
  match sorted_dic_by_value with
  | [] => throw ValueError
  | _ =>
      let sorted_keys := map fst sorted_dic_by_value in
      match true_p_bar with
      | Some bar =>
          for_each sorted_keys (fun key =>
            match Dict.get dictionary key, Dict.get bar key with
            | Some _, Some _ => ret tt
            | _, _ => throw KeyError
            end)
      | None => ret tt
      end
  end.

(** [compute_mAP] after the records are read (lines 622-685).  The value
    is the [mAP] of line 637; the three calls of [draw_plot_func] (lines
    650, 668 and 678) come before the [return] of line 685. *)
Definition compute_mAP (class_names : list string)
    (gt_classes_records : Dict.dict (list (string * box)))
    (pred_classes_records : Dict.dict (list pred_record))
    : M (option Q) :=
  st <- class_loop class_names gt_classes_records pred_classes_records ;;
  let APs := fst st in
  let count_true_positives := snd st in
  let mAP := option_map (fun m => m * 100) (np_mean (Dict.values APs)) in
  let gt_counter_per_class := counter_per_class gt_classes_records in
  draw_plot_func Nat.ltb gt_counter_per_class None ;;;
  let pred_counter_per_class := counter_per_class pred_classes_records in
  draw_plot_func Nat.ltb pred_counter_per_class (Some count_true_positives) ;;;
  draw_plot_func Qltb APs None ;;;
  ret mAP.

(** ** The AP Integrator in the words of the specification

    Steps 1 to 4 of section 4.4, on plain sequences. *)

#[global] Instance Qeq_decision (x y : Q) : Decision (x == y) := Qeq_dec x y.

Module Spec.

(** Step 1. *)
Definition mrec (recall : list Q) : list Q := 0 :: recall ++ [1].
Definition mprec (precision : list Q) : list Q := 0 :: precision ++ [0].

(** Step 2: every value, from the second-to-last down to the first,
    becomes the maximum of itself and its (already replaced) successor. *)
Fixpoint envelope (l : list Q) : list Q :=
  match l with
  | [] => []
  | x :: rest =>
      match envelope rest with
      | [] => [x]
      | y :: e => Qmax x y :: y :: e
      end
  end.

(** Step 3: the indices [i >= 1] with [mrec[i] <> mrec[i-1]]. *)
Definition break_points (mrec : list Q) : list nat :=
  filter (fun i => ~ nth i mrec 0 == nth (i - 1) mrec 0)
         (seq 1 (length mrec - 1)).

(** Step 4. *)
Definition area (mrec mprec : list Q) : Q :=
  Qsum (map (fun i => (nth i mrec 0 - nth (i - 1) mrec 0) * nth i mprec 0)
            (break_points mrec)).

Definition ap (recall precision : list Q) : Q :=
  area (mrec recall) (envelope (mprec precision)).

(** The running sums of section 4.3. *)
Definition cumulative (flags : list Q) (i : nat) : Q :=
  Qsum (take (S i) flags).

End Spec.

(** ** Auxiliary definitions: what the loops leave in the heap *)

(** What the running-sum loop leaves in the list, started with [cumsum]. *)
Fixpoint running (cumsum : Q) (l : list Q) : list Q :=
  match l with
  | [] => []
  | val :: rest => (val + cumsum) :: running (cumsum + val) rest
  end.

(** The heap [voc_ap] leaves: both arguments extended in place, the two
    copies allocated after them. *)
Definition voc_ap_heap (h : heap) (rec prec : loc) (r p : list Q) : heap :=
  <[prec := Spec.mprec p]> (<[rec := Spec.mrec r]> h)
    ++ [Spec.mrec r; Spec.envelope (Spec.mprec p)].

(** The precision of one index after the running sums. *)
Definition prec_at (a f : Q) : Q := a / (f + a).

(** The two curves [get_rec_prec] returns for the flag lists [tp], [fp]. *)
Definition rec_curve (tp : list Q) (gt_records : list gt_record) : list Q :=
  map (fun a => a / inject_Z (Z.of_nat (length gt_records))) (running 0 tp).

Definition prec_curve (tp fp : list Q) : list Q :=
  zip_with prec_at (running 0 tp) (running 0 fp).

(** No index of the running sums has a zero precision denominator. *)
Definition denominators_ok (tp fp : list Q) : Prop :=
  forall i a f,
    running 0 tp !! i = Some a -> running 0 fp !! i = Some f -> ~ f + a == 0.

Definition get_rec_prec_heap (h : heap) (tp_loc fp_loc : loc)
    (tp fp : list Q) (gt_records : list gt_record) : heap :=
  <[tp_loc := running 0 tp]> (<[fp_loc := running 0 fp]> h)
    ++ [rec_curve tp gt_records; prec_curve tp fp].


(** ** The Greedy Matcher in the words of the specification (section 4.2) *)

(** Intersection over union of the prediction's box and a candidate's. *)
Definition iou_of (pred_record : pred_record) (g : gt_record) : Q :=
  box_iou (pred_coord pred_record) (gt_coord g).

(** Only [unused] candidates of the prediction's image are eligible. *)
Definition eligible (pred_record : pred_record) (g : gt_record) : bool :=
  String.eqb (gt_usage g) "unused"
  && String.eqb (pred_image pred_record) (gt_image g).

(** Candidate [i] has the greatest IoU, [b], among the eligible candidates
    and is the first-seen with it. *)
Definition is_best (pred_record : pred_record) (gt_records : list gt_record)
    (i : nat) (b : Q) : Prop :=
  exists g,
    gt_records !! i = Some g /\ eligible pred_record g = true /\
    iou_of pred_record g = b /\
    (forall j g', gt_records !! j = Some g' ->
       eligible pred_record g' = true -> iou_of pred_record g' <= b) /\
    (forall j g', (j < i)%nat -> gt_records !! j = Some g' ->
       eligible pred_record g' = true -> iou_of pred_record g' < b).

(** The scan of the specification: among the eligible candidates, keep the
    one with the strictly greatest IoU seen so far. *)
Definition best_scan (pred_record : pred_record)
    (gt_records : list (nat * gt_record)) (init : option (nat * Q))
    : option (nat * Q) :=
  fold_left
    (fun best ig =>
       if eligible pred_record (snd ig) then
         match best with
         | Some (j, b) =>
             if Qltb b (iou_of pred_record (snd ig))
             then Some (fst ig, iou_of pred_record (snd ig)) else best
         | None => Some (fst ig, iou_of pred_record (snd ig))
         end
       else best)
    gt_records init.

Definition best_candidate (pred_record : pred_record)
    (gt_records : list gt_record) : option (nat * Q) :=
  best_scan pred_record (enumerate gt_records) None.

(** Section 4.2 as written: the best candidate when its IoU reaches the
    threshold, no match otherwise. *)
Definition spec_match (pred_record : pred_record)
    (gt_records : list gt_record) (iou_threshold : Q) : Z :=
  match best_candidate pred_record gt_records with
  | Some (i, b) => if Qle_bool iou_threshold b then Z.of_nat i else (-1)%Z
  | None => (-1)%Z
  end.

(** What [match_gt_box] computes: the best IoU must also be positive. *)
Definition positive_match (pred_record : pred_record)
    (gt_records : list gt_record) (iou_threshold : Q) : Z :=
  match best_candidate pred_record gt_records with
  | Some (i, b) =>
      if Qltb 0 b && Qle_bool iou_threshold b then Z.of_nat i else (-1)%Z
  | None => (-1)%Z
  end.

(** The state of the specification's scan after the candidates [pre]. *)
Definition best_inv (p : pred_record) (pre : list gt_record) (best : option (nat * Q)) : Prop :=
  match best with
  | Some (i, b) => is_best p pre i b
  | None => forall j g, pre !! j = Some g -> eligible p g = false
  end.

(** The state of the source's scan next to the specification's. *)
Definition scan_rel (best : option (nat * Q)) (st : Q * Z) : Prop :=
  match best with
  | Some (j, b) =>
      (b <= 0 /\ st = (0, (-1)%Z)) \/ (0 < b /\ st = (b, Z.of_nat j))
  | None => st = (0, (-1)%Z)
  end.


(** ** The matching loop of [calc_AP] on the ground-truth records alone *)

(** The value of [assign]: it never raises. *)
Definition assigned (iou_threshold : Q) (gt_records : list gt_record)
    (pred_record : pred_record) : option nat :=
  let candidates := image_gt_records gt_records pred_record in
  match best_candidate pred_record (map snd candidates) with
  | Some (i, b) =>
      if Qltb 0 b && Qle_bool iou_threshold b
      then option_map fst (candidates !! i) else None
  | None => None
  end.

(** The loop of lines 589-605 without the flag lists: for every prediction
    the record it is matched to (its position in [gt_records]) or [None],
    and the records after the loop. *)
Fixpoint matching (iou_threshold : Q) (gt_records : list gt_record)
    (pred_records : list pred_record) : list (option nat) * list gt_record :=
  match pred_records with
  | [] => ([], gt_records)
  | pred_record :: rest =>
      match assign iou_threshold gt_records pred_record with
      | Ok (Some r) =>
          let '(trace, final) :=
            matching iou_threshold (mark_used r gt_records) rest in
          (Some r :: trace, final)
      | _ =>
          let '(trace, final) := matching iou_threshold gt_records rest in
          (None :: trace, final)
      end
  end.

(** The number of matched predictions of a trace. *)
Definition hits (trace : list (option nat)) : nat := length (omap id trace).

(** The two flag lists the loop fills, from the trace. *)
Definition tp_flags (trace : list (option nat)) : list Q :=
  map (fun o => match o with Some _ => 1 | None => 0 end) trace.
Definition fp_flags (trace : list (option nat)) : list Q :=
  map (fun o => match o with Some _ => 0 | None => 1 end) trace.

(** The true positives of one class at a threshold. *)
Definition true_positives (iou_threshold : Q)
    (gt_records : list (string * box)) (pred_records : list pred_record) : nat :=
  hits (fst (matching iou_threshold (add_usage gt_records) pred_records)).

Definition is_unused (g : gt_record) : bool := String.eqb (gt_usage g) "unused".

(** The same record, possibly used where the other is not. *)
Definition le_used (g1 g2 : gt_record) : Prop :=
  gt_image g1 = gt_image g2 /\ gt_coord g1 = gt_coord g2 /\
  (is_unused g1 = true -> is_unused g2 = true).

(** The same record up to its usage flag. *)
Definition same_box (g1 g2 : gt_record) : Prop :=
  gt_image g1 = gt_image g2 /\ gt_coord g1 = gt_coord g2.

(** The records still [unused]. *)
Definition unused_count (gt_records : list gt_record) : nat :=
  length (filter (fun g => is_unused g = true) gt_records).

(** A record after line 601. *)
Definition used_copy (g : gt_record) : gt_record :=
  GT (gt_image g) (gt_coord g) "used".

(** Two reference lists naming the same objects, the first possibly more
    used. *)
Definition le_used_ref (x y : nat * gt_record) : Prop :=
  fst x = fst y /\ le_used (snd x) (snd y).

(** The AP of one class at a threshold, from the trace of the loop. *)
Definition calc_AP_value (iou_threshold : Q)
    (gt_records : list (string * box)) (pred_records : list pred_record) : Q :=
  let m := matching iou_threshold (add_usage gt_records) pred_records in
  Spec.ap (rec_curve (tp_flags (fst m)) (snd m))
          (prec_curve (tp_flags (fst m)) (fp_flags (fst m))).

(** The predictions of a trace that found no record. *)
Definition misses (trace : list (option nat)) : nat :=
  length (filter (fun o : option nat => o = None) trace).

(** ** Shapes of curves *)

Definition nondecreasing (l : list Q) : Prop :=
  forall i x y, l !! i = Some x -> l !! S i = Some y -> x <= y.

Definition in_unit (x : Q) : Prop := 0 <= x <= 1.

(** ** Statements of the curve builder and of the integrator *)

(** [get_rec_prec] returns two new lists of the length of the flags, with
    the recall and the precision of section 4.3 at every index. *)
Definition builds_curves (h : heap) (tp_loc fp_loc : loc) (tp fp : list Q)
    (gt_records : list gt_record) : Prop :=
  exists (rec prec : loc) (h' : heap) (rv pv : list Q),
    get_rec_prec tp_loc fp_loc gt_records h = Ok ((rec, prec), h') /\
    h' !! rec = Some rv /\ h' !! prec = Some pv /\
    length rv = length tp /\ length pv = length tp /\
    (forall i x, rv !! i = Some x ->
       x == Spec.cumulative tp i / inject_Z (Z.of_nat (length gt_records))) /\
    (forall i x, pv !! i = Some x ->
       x == Spec.cumulative tp i
            / (Spec.cumulative tp i + Spec.cumulative fp i)).

(** [voc_ap] returns the AP of the four steps, and new lists holding
    [mrec] and the envelope of [mprec]. *)
Definition integrates (h : heap) (rec prec : loc) (recall precision : list Q)
    : Prop :=
  exists (mrec mpre : loc) (h' : heap),
    voc_ap rec prec h = Ok ((Spec.ap recall precision, mrec, mpre), h') /\
    h' !! mrec = Some (Spec.mrec recall) /\
    h' !! mpre = Some (Spec.envelope (Spec.mprec precision)).

(** After [voc_ap] the caller's two lists are longer by two elements; the
    lists returned are other objects: [mrec] a copy of the extended recall
    list, [mpre] the envelope computed on a copy of the extended precision
    list. *)
Definition extends_arguments (h : heap) (rec prec : loc) (r p : list Q)
    : Prop :=
  exists (ap : Q) (mrec mpre : loc) (h' : heap),
    voc_ap rec prec h = Ok ((ap, mrec, mpre), h') /\
    h' !! rec = Some ([0] ++ r ++ [1]) /\
    h' !! prec = Some ([0] ++ p ++ [0]) /\
    h !! mrec = None /\ h !! mpre = None /\
    h' !! mrec = Some ([0] ++ r ++ [1]) /\
    h' !! mpre = Some (Spec.envelope ([0] ++ p ++ [0])) /\
    h' !! rec <> h !! rec /\ h' !! prec <> h !! prec.

(** Inputs of the examples. *)
Module Examples.
Definition box_a : box := Box 0 0 10 10.
Definition box_b : box := Box 20 20 30 30.
Definition box_c : box := Box 10 0 20 10.
Definition box_d : box := Box 20 0 30 10.
Definition gt_a : gt_record := GT "x" box_a "unused".
End Examples.

(** ** Statements about the matching loop *)

(** The loop of lines 589-605 as [calc_AP] runs it: on two new lists of
    zeros, from records that are all [unused].  It ends with the records
    [final], the count [n] and the flag lists [tpv], [fpv] in the heap
    [h1]. *)
Definition loop_result (iou_threshold : Q) (gt_records : list (string * box))
    (pred_records : list pred_record) (h0 : heap)
    (final : list gt_record) (n : nat) (tpv fpv : list Q) (h1 : heap) : Prop :=
  let zeros := repeat 0 (length pred_records) in
  for_fold (enumerate pred_records) (add_usage gt_records, 0%nat)
    (match_body iou_threshold (length h0) (S (length h0)))
    ((h0 ++ [zeros]) ++ [zeros])
  = Ok ((final, n), h1) /\
  h1 !! length h0 = Some tpv /\ h1 !! S (length h0) = Some fpv.

(** C9: the flag lists of the loop never make the precision divide by
    zero.  Every prediction sets exactly one of its two flags.  [ctp] and
    [cfp] are the caller's two lists as the running sums of lines 397-405
    leave them, the lists the precision of line 413 divides by: at index
    [i] they add up to [i + 1].  So the precision loop returns, whatever
    the ground truth; [get_rec_prec] returns when the recall of line 409
    does, with precision [ctp[i] / (i + 1)]; and without predictions both
    curves are empty. *)
Definition precision_is_safe (iou_threshold : Q)
    (gt_records : list (string * box)) (pred_records : list pred_record)
    (h0 : heap) : Prop :=
  exists final n tpv fpv h1,
    loop_result iou_threshold gt_records pred_records h0 final n tpv fpv h1 /\
    length tpv = length pred_records /\ length fpv = length pred_records /\
    (forall i t f,
       tpv !! i = Some t -> fpv !! i = Some f ->
       (t = 1 /\ f = 0) \/ (t = 0 /\ f = 1)) /\
    (exists h2 h3 ctp cfp prec h4,
       cumsum_loop (S (length h0)) h1 = Ok (tt, h2) /\
       cumsum_loop (length h0) h2 = Ok (tt, h3) /\
       h3 !! length h0 = Some ctp /\ h3 !! S (length h0) = Some cfp /\
       length ctp = length pred_records /\
       length cfp = length pred_records /\
       (forall i a f,
          ctp !! i = Some a -> cfp !! i = Some f ->
          a + f == inject_Z (Z.of_nat i + 1)) /\
       prec_loop (length h0) (S (length h0)) h3 = Ok (prec, h4)) /\
    (forall records : list gt_record,
       records <> [] \/ pred_records = [] ->
       exists rec prec h' ctp cfp pv,
         get_rec_prec (length h0) (S (length h0)) records h1
         = Ok ((rec, prec), h') /\
         h' !! length h0 = Some ctp /\ h' !! S (length h0) = Some cfp /\
         h' !! prec = Some pv /\
         length ctp = length pred_records /\
         length cfp = length pred_records /\
         length pv = length pred_records /\
         (forall i a f,
            ctp !! i = Some a -> cfp !! i = Some f ->
            a + f == inject_Z (Z.of_nat i + 1)) /\
         (forall i a x,
            ctp !! i = Some a -> pv !! i = Some x ->
            x == a / inject_Z (Z.of_nat i + 1))) /\
    (pred_records = [] ->
     forall records : list gt_record,
       exists rec prec h',
         get_rec_prec (length h0) (S (length h0)) records h1
         = Ok ((rec, prec), h') /\
         h' !! rec = Some [] /\ h' !! prec = Some []).

Module MatchExamples.
Import Examples.
(** A prediction that touches the only candidate along one edge: their
    IoU is 0. *)
Definition p : pred_record := Pred "x" box_a (9 # 10).
Definition g : gt_record := GT "x" box_c "unused".
End MatchExamples.

(** C5: the usage flags during one class's loop.  [trace !! k = Some (Some r)]
    reads: prediction [k] is matched to record [r]; the records after the
    first [k] predictions are those of the loop run on [take k]. *)
Definition usage_discipline (iou_threshold : Q)
    (gt_records : list (string * box)) (pred_records : list pred_record)
    (h0 : heap) : Prop :=
  let start := add_usage gt_records in
  let trace := fst (matching iou_threshold start pred_records) in
  let after k := snd (matching iou_threshold start (take k pred_records)) in
  (* the loop of [calc_AP], run on the first [k] predictions, ends with
     these records and has counted the matches *)
  (forall k, exists tpv fpv h1,
     loop_result iou_threshold gt_records (take k pred_records) h0
       (after k) (hits (take k trace)) tpv fpv h1) /\
  (* every record starts unused *)
  Forall (fun g => gt_usage g = "unused"%string) start /\
  (* a record is used after [k] predictions exactly when one of them was
     matched to it, and is otherwise as at the start *)
  (forall k r g, start !! r = Some g ->
     after k !! r
     = Some (if decide (Some r ∈ take k trace) then used_copy g else g)) /\
  (* a record is unused when a prediction is matched to it *)
  (forall k r, trace !! k = Some (Some r) ->
     exists g, after k !! r = Some g /\ gt_usage g = "unused"%string) /\
  (* no record is matched to two predictions *)
  (forall k k' r, trace !! k = Some (Some r) -> trace !! k' = Some (Some r) ->
     k = k').

(** ** Statements about the pipeline *)

(** C6: [calc_AP] returns, and its AP lies in [0, 1]. *)
Definition ap_in_unit_interval (gt_records : list (string * box))
    (pred_records : list pred_record) (h : heap) : Prop :=
  exists ap n h',
    calc_AP gt_records pred_records h = Ok ((ap, n), h') /\
    0 <= ap /\ ap <= 1.

(** C7: the matching loop run at [t2] counts no more true positives than
    at [t1], and so does any two results of [calc_AP_at]. *)
Definition fewer_true_positives (t1 t2 : Q)
    (gt_records : list (string * box)) (pred_records : list pred_record)
    : Prop :=
  (forall h0, exists f1 n1 tp1 fp1 h1 f2 n2 tp2 fp2 h2,
     loop_result t1 gt_records pred_records h0 f1 n1 tp1 fp1 h1 /\
     loop_result t2 gt_records pred_records h0 f2 n2 tp2 fp2 h2 /\
     (n2 <= n1)%nat) /\
  (forall h r1 h1 r2 h2,
     calc_AP_at t1 gt_records pred_records h = Ok (r1, h1) ->
     calc_AP_at t2 gt_records pred_records h = Ok (r2, h2) ->
     (snd r2 <= snd r1)%nat).

Module ClassExamples.
Import Examples.
Definition class_names : list string := ["car"; "dog"]%string.
(** Annotations with boxes of class [car] only. *)
Definition gt_car_only : Dict.dict (list (string * box)) :=
  [("car"%string, [("x"%string, box_a)])].
Definition gt_both : Dict.dict (list (string * box)) :=
  [("car"%string, [("x"%string, box_a)]);
   ("dog"%string, [("x"%string, box_b)])].
Definition no_predictions : Dict.dict (list pred_record) := [].
Definition car_predicted : Dict.dict (list pred_record) :=
  [("car"%string, [Pred "x" box_a (9 # 10)])].
End ClassExamples.

(** * Further definitions: geometry, error paths, readers *)

From Stdlib Require Import Sorting.Sorted Ascii.

(** ** Geometry *)

(** The area that [box_iou] computes for a box (lines 277-278). *)
Definition box_area (b : box) : Q := (xmax b - xmin b) * (ymax b - ymin b).

(** Box [a] lies inside box [b]. *)
Definition inside (a b : box) : Prop :=
  xmin b <= xmin a /\ ymin b <= ymin a /\ xmax a <= xmax b /\ ymax a <= ymax b.

(** The rectangles meet: along both axes neither ends before the other
    starts. *)
Definition meet (a b : box) : Prop :=
  xmin a <= xmax b /\ xmin b <= xmax a /\ ymin a <= ymax b /\ ymin b <= ymax a.

(** ** Matcher and integrator *)

(** A value of [match_gt_box]: no match, or the index of an [unused]
    candidate of the prediction's image whose IoU is positive and reaches
    the threshold. *)
Definition match_result_ok (p : pred_record) (gts : list gt_record) (thr : Q)
    (r : Z) : Prop :=
  r = (-1)%Z \/
  exists i g,
    r = Z.of_nat i /\ gts !! i = Some g /\
    gt_usage g = "unused"%string /\ pred_image p = gt_image g /\
    0 < iou_of p g /\ thr <= iou_of p g.

(** The precision curve [voc_ap] returns never increases with the index
    and lies on or above the padded precision it was computed from. *)
Definition returns_envelope (h : heap) (rec prec : loc) (p : list Q) : Prop :=
  exists ap mrec mpre h' e,
    voc_ap rec prec h = Ok ((ap, mrec, mpre), h') /\
    h' !! mpre = Some e /\
    length e = S (S (length p)) /\
    (forall i x y, e !! i = Some x -> e !! S i = Some y -> y <= x) /\
    (forall i x, ([0] ++ p ++ [0]) !! i = Some x ->
       exists y, e !! i = Some y /\ x <= y).

(** ** Curve builder *)

(** [get_rec_prec] leaves the running sums in the caller's two flag lists
    and returns lists that did not exist before. *)
Definition accumulates_flags (h : heap) (tp_loc fp_loc : loc) (tp fp : list Q)
    (gt_records : list gt_record) : Prop :=
  exists rec prec h' tp' fp',
    get_rec_prec tp_loc fp_loc gt_records h = Ok ((rec, prec), h') /\
    h' !! tp_loc = Some tp' /\ h' !! fp_loc = Some fp' /\
    length tp' = length tp /\ length fp' = length fp /\
    (forall i x, tp' !! i = Some x -> x == Spec.cumulative tp i) /\
    (forall i x, fp' !! i = Some x -> x == Spec.cumulative fp i) /\
    h !! rec = None /\ h !! prec = None /\ rec <> prec.

(** The recall sequence [get_rec_prec] returns is non-negative and never
    decreases with the index. *)
Definition recall_nondecreasing (h : heap) (tp_loc fp_loc : loc)
    (gt_records : list gt_record) : Prop :=
  exists rec prec h' rv,
    get_rec_prec tp_loc fp_loc gt_records h = Ok ((rec, prec), h') /\
    h' !! rec = Some rv /\
    Forall (fun x => 0 <= x) rv /\ nondecreasing rv.

(** ** Pipeline *)

(** [calc_AP] returns a count of true positives that exceeds neither the
    number of predictions nor the number of ground-truth records. *)
Definition count_bounded (gt_records : list (string * box))
    (pred_records : list pred_record) (h : heap) : Prop :=
  exists ap n h',
    calc_AP gt_records pred_records h = Ok ((ap, n), h') /\
    (n <= length pred_records)%nat /\ (n <= length gt_records)%nat.

(** [calc_AP] returns an AP that does not exceed the final recall: the
    true positives over the ground-truth records. *)
Definition ap_below_recall (gt_records : list (string * box))
    (pred_records : list pred_record) (h : heap) : Prop :=
  exists ap n h',
    calc_AP gt_records pred_records h = Ok ((ap, n), h') /\
    ap <= inject_Z (Z.of_nat n) / inject_Z (Z.of_nat (length gt_records)).

(** ** Aggregator *)

(** [compute_mAP] returns a number, and it is a percentage. *)
Definition mAP_is_percentage (class_names : list string)
    (gt : Dict.dict (list (string * box)))
    (pred : Dict.dict (list pred_record)) (h : heap) : Prop :=
  exists m h',
    compute_mAP class_names gt pred h = Ok (Some m, h') /\
    0 <= m /\ m <= 100.

(** Every class the dictionary records is one of [class_names], as in the
    records [annotation_parse] and [get_prediction_class_records] build. *)
Definition keys_among {V} (class_names : list string) (d : Dict.dict V)
    : Prop :=
  forall c, is_Some (Dict.get d c) -> c ∈ class_names.

(** The two dictionaries the class loop builds: an AP for exactly the
    class names, in [0, 1] and 0 for a class without predictions; a count
    for exactly the class names that have predictions. *)
Definition records_every_class (class_names : list string)
    (gt : Dict.dict (list (string * box)))
    (pred : Dict.dict (list pred_record)) (h : heap) : Prop :=
  exists APs counts h',
    class_loop class_names gt pred h = Ok ((APs, counts), h') /\
    (forall c, is_Some (Dict.get APs c) <-> c ∈ class_names) /\
    (forall c, is_Some (Dict.get counts c)
               <-> c ∈ class_names /\ is_Some (Dict.get pred c)) /\
    (forall c ap, Dict.get APs c = Some ap -> 0 <= ap <= 1) /\
    (forall c, c ∈ class_names -> Dict.get pred c = None ->
               Dict.get APs c = Some 0).

(** ** [get_prediction_class_records] after inference (lines 241-260)

    The detections of every image, as [predict] returned them, are the
    input; opening the images, running the model and drawing the result
    pictures are outside the embedding. *)

(** [l[i]] for an integer [i]: a negative index counts from the end;
    [None] is [IndexError]. *)
Definition py_index {A} (l : list A) (i : Z) : option A :=
  if (0 <=? i)%Z then l !! Z.to_nat i
  else if (- Z.of_nat (length l) <=? i)%Z
       then l !! Z.to_nat (Z.of_nat (length l) + i)
       else None.

(** [zip(a, b, c)]: as long as the shortest. *)
Fixpoint zip3 {A B C} (a : list A) (b : list B) (c : list C)
    : list (A * B * C) :=
  match a, b, c with
  | x :: a', y :: b', z :: c' => (x, y, z) :: zip3 a' b' c'
  | _, _, _ => []
  end.

(** A [for] loop over [l] on the local state [s] that an exception
    leaves. *)
Fixpoint rfold {A S} (f : S -> A -> result S) (l : list A) (s : S)
    : result S :=
  match l with
  | [] => Ok s
  | x :: rest =>
      match f s x with
      | Ok s' => rfold f rest s'
      | Raise e => Raise e
      end
  end.

(** What [predict] returns for one image: boxes, classes, scores. *)
Definition detections : Type := list box * list Z * list Q.

(** Lines 245-254: one detection of [image_name]. *)
Definition record_detection (class_names : list string) (image_name : string)
    (pred_classes_records : Dict.dict (list pred_record)) (d : box * Z * Q)
    : result (Dict.dict (list pred_record)) :=
  let '(b, cls, score) := d in
  match py_index class_names cls with
  | None => Raise IndexError
  | Some pred_class_name =>
      match Dict.get pred_classes_records pred_class_name with
      | Some l =>
          Ok (Dict.set pred_classes_records pred_class_name
                (l ++ [Pred image_name b score]))
      | None =>
          Ok (Dict.set pred_classes_records pred_class_name
                [Pred image_name b score])
      end
  end.

(** Lines 241-254: one image. *)
Definition record_image (class_names : list string)
    (pred_classes_records : Dict.dict (list pred_record))
    (image : string * detections)
    : result (Dict.dict (list pred_record)) :=
  let '(image_name, (pred_boxes, pred_classes, pred_scores)) := image in
  if (length pred_boxes =? 0)%nat then Ok pred_classes_records
  else rfold (record_detection class_names image_name)
         (zip3 pred_boxes pred_classes pred_scores) pred_classes_records.

(** [l.sort(key=lambda ele: ele[2], reverse=True)]: Python's sort is
    stable, also with [reverse=True], so the result is the one of this
    insertion sort. *)
Fixpoint insert_desc (x : pred_record) (l : list pred_record)
    : list pred_record :=
  match l with
  | [] => [x]
  | y :: rest =>
      if Qltb (pred_score x) (pred_score y) then y :: insert_desc x rest
      else x :: y :: rest
  end.

Definition sort_desc (l : list pred_record) : list pred_record :=
  foldr insert_desc [] l.

(** Lines 257-258. *)
Definition sort_all (d : Dict.dict (list pred_record))
    : Dict.dict (list pred_record) :=
  map (fun kl => (fst kl, sort_desc (snd kl))) d.

Definition get_prediction_class_records (class_names : list string)
    (images : list (string * detections))
    : result (Dict.dict (list pred_record)) :=
  match rfold (record_image class_names) images [] with
  | Ok pred_classes_records => Ok (sort_all pred_classes_records)
  | Raise e => Raise e
  end.

(** The records of class [c] among the detections, in the order of the
    images and of the detections of every image. *)
Definition image_records (class_names : list string) (c : string)
    (image : string * detections) : list pred_record :=
  let '(image_name, (pred_boxes, pred_classes, pred_scores)) := image in
  omap (fun d : box * Z * Q =>
          let '(b, cls, score) := d in
          match py_index class_names cls with
          | Some name =>
              if String.eqb name c then Some (Pred image_name b score) else None
          | None => None
          end)
       (zip3 pred_boxes pred_classes pred_scores).

Definition class_records (class_names : list string) (c : string)
    (images : list (string * detections)) : list pred_record :=
  flat_map (image_records class_names c) images.

(** Scores never increase along the list. *)
Definition descending (l : list pred_record) : Prop :=
  forall i x y, l !! i = Some x -> l !! S i = Some y ->
                pred_score y <= pred_score x.

(** Records of equal score are in [l2] in the order they have in [l1]. *)
Definition stable (l1 l2 : list pred_record) : Prop :=
  forall s, filter (fun x => pred_score x == s) l2
            = filter (fun x => pred_score x == s) l1.

(** What [get_prediction_class_records] returns: for every class with
    detections its records, by descending score and otherwise in the
    order of detection; no entry for a class without detections. *)
Definition indexes_by_class (class_names : list string)
    (images : list (string * detections))
    (d : Dict.dict (list pred_record)) : Prop :=
  forall c,
    match Dict.get d c with
    | Some l =>
        l <> [] /\ descending l /\
        l ≡ₚ class_records class_names c images /\
        stable (class_records class_names c images) l
    | None => class_records class_names c images = []
    end.

(** The class index of every detection of the image is one of
    [class_names]. *)
Definition valid_image (class_names : list string)
    (image : string * detections) : Prop :=
  let '(image_name, (pred_boxes, pred_classes, pred_scores)) := image in
  Forall (fun d : box * Z * Q => is_Some (py_index class_names (snd (fst d))))
         (zip3 pred_boxes pred_classes pred_scores).

(** [Some l] for a list with elements: a dictionary entry exists only once
    something was appended. *)
Definition nonempty_opt {A} (l : list A) : option (list A) :=
  match l with
  | [] => None
  | _ => Some l
  end.

(** The record of detection [d] of [image_name], if its class is [c]. *)
Definition record_of (class_names : list string) (image_name c : string)
    (d : box * Z * Q) : option pred_record :=
  let '(b, cls, score) := d in
  match py_index class_names cls with
  | Some name =>
      if String.eqb name c then Some (Pred image_name b score) else None
  | None => None
  end.

Definition sorted_index (class_names : list string)
    (images : list (string * detections)) : Prop :=
  exists d,
    get_prediction_class_records class_names images = Ok d /\
    indexes_by_class class_names images d.

Module PredictionExamples.
Import Examples.
Definition images : list (string * detections) :=
  [("x"%string, ([box_a; box_b], [0%Z; 1%Z], [1 # 2; 9 # 10]));
   ("y"%string, ([box_c], [0%Z], [8 # 10]))].
(** The second detection names class 2 of a list of two. *)
Definition bad_images : list (string * detections) :=
  [("x"%string, ([box_a; box_b], [0%Z; 2%Z], [1 # 2; 9 # 10]))].
End PredictionExamples.

(** ** [predict] (lines 35-55)

    [results] is [ret['results']] of [model.run]: [results i] are the rows
    [x1, y1, x2, y2, score] of class key [i], [None] when the key is
    missing.  The embedding ends with the three lists of lines 40-49; the
    conversion to arrays of lines 51-53 keeps their lengths and order. *)

(** Lines 46-49: one row of class key [i]. *)
Definition keep_bbox (score_threshold : Q) (i : nat)
    (acc : list (list Q) * list Z * list Q) (bbox : list Q)
    : result (list (list Q) * list Z * list Q) :=
  let '(boxes, classes, scores) := acc in
  match bbox !! 4%nat with
  | None => Raise IndexError
  | Some score =>
      if Qltb score_threshold score
      then Ok (boxes ++ [take 4 bbox], classes ++ [(Z.of_nat i - 1)%Z],
               scores ++ [score])
      else Ok acc
  end.

(** Lines 44-49: one class key. *)
Definition keep_class (results : nat -> option (list (list Q)))
    (score_threshold : Q) (acc : list (list Q) * list Z * list Q) (i : nat)
    : result (list (list Q) * list Z * list Q) :=
  match results i with
  | None => Raise KeyError
  | Some rows => rfold (keep_bbox score_threshold i) rows acc
  end.

Definition predict_lists (results : nat -> option (list (list Q)))
    (num_classes : nat) (score_threshold : Q)
    : result (list (list Q) * list Z * list Q) :=
  rfold (keep_class results score_threshold) (range 1 (num_classes + 1))
    ([], [], []).

(** The scores of all rows, class key after class key. *)
Definition all_scores (results : nat -> option (list (list Q)))
    (num_classes : nat) : list Q :=
  flat_map (fun i => omap (fun bbox : list Q => bbox !! 4%nat)
                          (default [] (results i)))
           (range 1 (num_classes + 1)).

(** What [predict] returns: three lists of one length; the scores are the
    scores above the threshold, in the order of the rows; the classes are
    0-based class keys; the boxes have four coordinates. *)
Definition filters_detections (results : nat -> option (list (list Q)))
    (num_classes : nat) (score_threshold : Q)
    (out : list (list Q) * list Z * list Q) : Prop :=
  let '(boxes, classes, scores) := out in
  length boxes = length scores /\ length classes = length scores /\
  scores = filter (fun s => Qltb score_threshold s = true)
                  (all_scores results num_classes) /\
  Forall (fun c => (0 <= c < Z.of_nat num_classes)%Z) classes /\
  Forall (fun b : list Q => length b = 4%nat) boxes.

Module PredictExamples.
(** Two class keys; one row of class key 1 is above a threshold of 0.3. *)
Definition results (i : nat) : option (list (list Q)) :=
  match i with
  | 1%nat => Some [[0; 0; 10; 10; 9 # 10]; [1; 1; 5; 5; 1 # 10]]
  | 2%nat => Some []
  | _ => None
  end.
End PredictExamples.

(** ** [annotation_parse] (lines 129-175) and [transform_gt_record]
       (lines 178-203)

    The lines of the annotation file are the input.  Strings are kept as
    the source has them: an image record maps the coordinate string of a
    box to its class name, a class record lists
    [[image_name, coordinate]]. *)

(** [s.split(sep)] for a one-character separator: never empty. *)
Fixpoint split_on (sep : ascii) (s : string) : list string :=
  match s with
  | EmptyString => [EmptyString]
  | String c rest =>
      if Ascii.eqb c sep then EmptyString :: split_on sep rest
      else match split_on sep rest with
           | w :: ws => String c w :: ws
           | [] => [String c EmptyString]
           end
  end.

(** [sep.join(l)] *)
Fixpoint join (sep : string) (l : list string) : string :=
  match l with
  | [] => EmptyString
  | [x] => x
  | x :: rest => (x ++ sep ++ join sep rest)%string
  end.

(** [l.index(x)]: the first position of [x]; [None] is [ValueError]. *)
Fixpoint index_of (l : list string) (x : string) : option nat :=
  match l with
  | [] => None
  | y :: rest =>
      if String.eqb y x then Some 0%nat else option_map S (index_of rest x)
  end.

(** A [for] loop over [l] on the local state [s] that an exception of a
    reader leaves. *)
Fixpoint efold {A S} (f : S -> A -> exn + S) (l : list A) (s : S)
    : exn + S :=
  match l with
  | [] => inr s
  | x :: rest =>
      match f s x with
      | inr s' => efold f rest s'
      | inl e => inl e
      end
  end.

(** [[f(x) for x in l]] where [f] may raise [ValueError]. *)
Fixpoint map_or_raise {A B} (f : A -> option B) (l : list A) : option (list B) :=
  match l with
  | [] => Some []
  | x :: rest =>
      match f x with
      | Some y => option_map (cons y) (map_or_raise f rest)
      | None => None
      end
  end.

Section Readers.

(** [int(s)] on strings; [None] is [ValueError]. *)
Variable py_int : string -> option Z.

(** Lines 165-166: the class name and the coordinate string of a box. *)
Definition read_box (class_names : list string) (box : string)
    : exn + (string * string) :=
  match py_int (List.last (split_on ","%char box) EmptyString) with
  | None => inl ValueError
  | Some k =>
      match py_index class_names k with
      | None => inl IndexError
      | Some class_name =>
          inr (class_name, join ","%string (removelast (split_on ","%char box)))
      end
  end.

(** Lines 164-172: one box of the line of [image_name]. *)
Definition record_box (class_names : list string) (image_name : string)
    (st : Dict.dict string * Dict.dict (list (string * string)))
    (box : string)
    : exn + (Dict.dict string * Dict.dict (list (string * string))) :=
  let '(box_records, classes_records) := st in
  match read_box class_names box with
  | inl e => inl e
  | inr (class_name, coordinate) =>
      inr (Dict.set box_records coordinate class_name,
           match Dict.get classes_records class_name with
           | Some l =>
               Dict.set classes_records class_name
                 (l ++ [(image_name, coordinate)])
           | None =>
               Dict.set classes_records class_name [(image_name, coordinate)]
           end)
  end.

(** [line.split(' ')[0]] and [line.split(' ')[1:]] *)
Definition line_image (line : string) : string :=
  hd EmptyString (split_on " "%char line).
Definition line_boxes (line : string) : list string :=
  tl (split_on " "%char line).

(** Lines 160-173: one line. *)
Definition record_line (class_names : list string)
    (st : Dict.dict (Dict.dict string) * Dict.dict (list (string * string)))
    (line : string)
    : exn
      + (Dict.dict (Dict.dict string) * Dict.dict (list (string * string))) :=
  let '(annotation_records, classes_records) := st in
  let image_name := line_image line in
  match efold (record_box class_names image_name) (line_boxes line)
          ([], classes_records) with
  | inl e => inl e
  | inr (box_records, classes_records') =>
      inr (Dict.set annotation_records image_name box_records,
           classes_records')
  end.

(** [annotation_parse] on the lines read from the file. *)
Definition annotation_parse (class_names : list string)
    (annotation_lines : list string)
    : exn
      + (Dict.dict (Dict.dict string) * Dict.dict (list (string * string))) :=
  efold (record_line class_names) annotation_lines ([], []).

(** The class field of the box is an integer that indexes [class_names]. *)
Definition valid_box (class_names : list string) (box : string) : Prop :=
  exists r, read_box class_names box = inr r.

Definition valid_line (class_names : list string) (line : string) : Prop :=
  Forall (valid_box class_names) (line_boxes line).

(** The entry of box [box] of [image_name], if its class is [c]. *)
Definition entry_of (class_names : list string) (c image_name box : string)
    : option (string * string) :=
  match read_box class_names box with
  | inr (class_name, coordinate) =>
      if String.eqb class_name c then Some (image_name, coordinate) else None
  | inl _ => None
  end.

(** The boxes of class [c] in the file, in the order of the file. *)
Definition class_entries (class_names : list string) (c : string)
    (lines : list string) : list (string * string) :=
  flat_map (fun line =>
              omap (entry_of class_names c (line_image line)) (line_boxes line))
           lines.

(** What [annotation_parse] returns: an image record for exactly the
    images named by the lines; for every class with boxes the entries of
    its boxes in file order, and no entry (not an empty list) for a class
    without boxes; every class recorded is one of [class_names]. *)
Definition indexes_annotations (class_names : list string)
    (lines : list string) : Prop :=
  exists annotation_records classes_records,
    annotation_parse class_names lines
    = inr (annotation_records, classes_records) /\
    (forall image, is_Some (Dict.get annotation_records image)
                   <-> exists line, line ∈ lines /\ line_image line = image) /\
    (forall c,
       match Dict.get classes_records c with
       | Some l => l <> [] /\ c ∈ class_names /\
                   l = class_entries class_names c lines
       | None => class_entries class_names c lines = []
       end).

(** Lines 192-201 of [transform_gt_record]: one box of the image. *)
Definition transform_box (class_names : list string)
    (acc : list (list Z) * list nat * list Q) (item : string * string)
    : exn + (list (list Z) * list nat * list Q) :=
  let '(gt_boxes, gt_classes, gt_scores) := acc in
  let '(coordinate, class_name) := item in
  match map_or_raise py_int (split_on ","%char coordinate) with
  | None => inl ValueError
  | Some gt_box =>
      match index_of class_names class_name with
      | None => inl ValueError
      | Some gt_class =>
          inr (gt_boxes ++ [gt_box], gt_classes ++ [gt_class],
               gt_scores ++ [1])
      end
  end.

(** [np.array(rows)] on rows of integers (line 203).  Rows of different
    lengths raise [ValueError] (NumPy 1.24 and later: an inhomogeneous
    shape; older versions build an array of objects); otherwise the array
    holds the rows. *)
Definition np_array_rows (rows : list (list Z)) : exn + list (list Z) :=
  match rows with
  | [] => inr []
  | row :: rest =>
      if forallb (fun r => (length r =? length row)%nat) rest then inr rows
      else inl ValueError
  end.

(** [transform_gt_record]; [None] is Python's [None].  The arrays of
    line 203 are given by their rows and elements; the two flat lists
    always convert. *)
Definition transform_gt_record (gt_records : option (Dict.dict string))
    (class_names : list string)
    : exn + (list (list Z) * list nat * list Q) :=
  match gt_records with
  | None => inr ([], [], [])
  | Some items =>
      if (length items =? 0)%nat then inr ([], [], [])
      else
        match efold (transform_box class_names) items ([], [], []) with
        | inl e => inl e
        | inr (gt_boxes, gt_classes, gt_scores) =>
            match np_array_rows gt_boxes with
            | inl e => inl e
            | inr boxes => inr (boxes, gt_classes, gt_scores)
            end
        end
  end.

(** What [transform_gt_record] returns: one box, class and score for every
    item, in the order of the items; every score is 1.0; the class is the
    first position of the item's class name in [class_names]. *)
Definition transforms_items (class_names : list string)
    (items : Dict.dict string) (out : list (list Z) * list nat * list Q)
    : Prop :=
  let '(gt_boxes, gt_classes, gt_scores) := out in
  length gt_boxes = length items /\ length gt_classes = length items /\
  gt_scores = repeat 1 (length items) /\
  (forall i k name, items !! i = Some (k, name) ->
     exists cls b,
       gt_classes !! i = Some cls /\ class_names !! cls = Some name /\
       (forall j, (j < cls)%nat -> class_names !! j <> Some name) /\
       gt_boxes !! i = Some b /\
       map_or_raise py_int (split_on ","%char k) = Some b).

End Readers.

(** [int] on the strings of the examples: decimal digits, and a newline
    after them as the last box of a line has it. *)
Module ReaderExamples.

Definition digit (c : ascii) : option Z :=
  let n := Z.of_nat (nat_of_ascii c) in
  if ((48 <=? n) && (n <=? 57))%Z then Some (n - 48)%Z else None.

Fixpoint digits (acc : Z) (seen : bool) (s : string) : option Z :=
  match s with
  | EmptyString => if seen then Some acc else None
  | String c rest =>
      match digit c with
      | Some d => digits (10 * acc + d)%Z true rest
      | None =>
          if (Ascii.eqb c "010"%char && seen)%bool
          then match rest with EmptyString => Some acc | _ => None end
          else None
      end
  end.

Definition int (s : string) : option Z := digits 0 false s.

Definition class_names : list string := ["car"; "dog"]%string.

(** Two images; the second line ends with a newline. *)
Definition lines : list string :=
  ["a.jpg 1,2,3,4,0 5,6,7,8,1";
   String "b" (String "." (String "j" (String "p" (String "g"
     (String " " (String "9" (String "," (String "9" (String ","
     (String "9" (String "," (String "9" (String "," (String "0"
     (String "010"%char EmptyString)))))))))))))))]%string.

(** The class field of the only box is not a number. *)
Definition bad_lines : list string := ["a.jpg 1,2,3,4,car"]%string.

Definition items : Dict.dict string :=
  [("1,2,3,4", "dog"); ("5,6,7,8", "car")]%string.

End ReaderExamples.

(** The coordinate fields of the item are integers and its class name is
    one of [class_names]. *)
Definition valid_item (py_int : string -> option Z)
    (class_names : list string) (item : string * string) : Prop :=
  is_Some (map_or_raise py_int (split_on ","%char (fst item))) /\
  snd item ∈ class_names.

(** All rows have one length. *)
Definition same_length (rows : list (list Z)) : Prop :=
  forall r1 r2, r1 ∈ rows -> r2 ∈ rows -> length r1 = length r2.

(** The coordinate strings of all items have the same number of
    fields. *)
Definition same_field_count (items : Dict.dict string) : Prop :=
  forall k1 name1 k2 name2,
    (k1, name1) ∈ items -> (k2, name2) ∈ items ->
    length (split_on ","%char k1) = length (split_on ","%char k2).

(** The coordinate string and the class field of a box put the box
    together again. *)
Definition splits_box (py_int : string -> option Z)
    (class_names : list string) (box class_name coordinate : string) : Prop :=
  exists field k,
    List.last (split_on ","%char box) EmptyString = field /\
    py_int field = Some k /\ py_index class_names k = Some class_name /\
    (coordinate ++ "," ++ field)%string = box.
(** * Properties *)

(** ** Numbers *)

Lemma Qltb_lt a b : Qltb a b = true <-> a < b.
Proof.
  unfold Qltb. rewrite negb_true_iff, <- not_true_iff_false, Qle_bool_iff.
  split; [apply Qnot_le_lt | apply Qlt_not_le].
Qed.

Lemma Qltb_ge a b : Qltb a b = false <-> b <= a.
Proof. unfold Qltb. rewrite negb_false_iff. apply Qle_bool_iff. Qed.

Lemma py_max_Qmax a b : py_max a b = Qmax a b.
Proof.
  unfold py_max. destruct (Qltb a b) eqn:E.
  - apply Qltb_lt in E. unfold Qmax, GenericMinMax.gmax.
    destruct (a ?= b) eqn:C; try reflexivity.
    + apply Qeq_alt in C. lra.
    + apply Qgt_alt in C. lra.
  - apply Qltb_ge in E. unfold Qmax, GenericMinMax.gmax.
    destruct (a ?= b) eqn:C; try reflexivity.
    apply Qlt_alt in C. lra.
Qed.

Lemma py_max_cases a b : (a < b /\ py_max a b = b) \/ (b <= a /\ py_max a b = a).
Proof.
  unfold py_max. destruct (Qltb a b) eqn:E.
  - left. split; [by apply Qltb_lt|done].
  - right. split; [by apply Qltb_ge|done].
Qed.

(** ** Running the list primitives *)

Section Run.
Context {A B : Type}.

Lemma bind_ok (m : M A) (k : A -> M B) h a h' :
  m h = Ok (a, h') -> bind m k h = k a h'.
Proof. unfold bind. by intros ->. Qed.

Lemma bind_inv (m : M A) (k : A -> M B) h b h2 :
  bind m k h = Ok (b, h2) ->
  exists a h1, m h = Ok (a, h1) /\ k a h1 = Ok (b, h2).
Proof.
  unfold bind. destruct (m h) as [[a h1]|e]; [eauto|discriminate].
Qed.
End Run.

Section Primitives.
Variables (h : heap) (l : loc) (v : list Q).
Hypothesis Hl : h !! l = Some v.

Lemma list_read_ok : list_read l h = Ok (v, h).
Proof. unfold list_read. by rewrite Hl. Qed.

Lemma list_write_ok w : list_write l w h = Ok (tt, <[l := w]> h).
Proof. unfold list_write. by rewrite Hl. Qed.

Lemma list_len_ok : list_len l h = Ok (length v, h).
Proof. unfold list_len. by rewrite (bind_ok _ _ _ _ _ list_read_ok). Qed.

Lemma list_get_ok i x : v !! i = Some x -> list_get l i h = Ok (x, h).
Proof.
  intros Hi. unfold list_get.
  rewrite (bind_ok _ _ _ _ _ list_read_ok). by rewrite Hi.
Qed.

Lemma list_set_ok i x :
  (i < length v)%nat -> list_set l i x h = Ok (tt, <[l := <[i := x]> v]> h).
Proof.
  intros Hi. unfold list_set.
  rewrite (bind_ok _ _ _ _ _ list_read_ok).
  rewrite decide_True by done. apply list_write_ok.
Qed.

Lemma list_insert0_ok x : list_insert0 l x h = Ok (tt, <[l := x :: v]> h).
Proof.
  unfold list_insert0.
  rewrite (bind_ok _ _ _ _ _ list_read_ok). apply list_write_ok.
Qed.

Lemma list_append_ok x : list_append l x h = Ok (tt, <[l := v ++ [x]]> h).
Proof.
  unfold list_append.
  rewrite (bind_ok _ _ _ _ _ list_read_ok). apply list_write_ok.
Qed.

Lemma list_copy_ok : list_copy l h = Ok (length h, h ++ [v]).
Proof.
  unfold list_copy. by rewrite (bind_ok _ _ _ _ _ list_read_ok).
Qed.

Lemma heap_lookup_same w : <[l := w]> h !! l = Some w.
Proof. apply list_lookup_insert_eq. by eapply lookup_lt_Some. Qed.

Lemma heap_lookup_other l' w : l' <> l -> <[l := w]> h !! l' = h !! l'.
Proof. intros. by apply list_lookup_insert_ne. Qed.

End Primitives.

Lemma list_get_nth h l v i :
  h !! l = Some v -> (i < length v)%nat -> list_get l i h = Ok (nth i v 0, h).
Proof.
  intros Hl Hi. eapply list_get_ok; [done|].
  destruct (nth_lookup_or_length v i 0); [done|lia].
Qed.

(** ** [voc_ap]: the three loops *)

Lemma envelope_length l : length (Spec.envelope l) = length l.
Proof.
  induction l as [|x l IH]; [done|]. simpl.
  destruct (Spec.envelope l); simpl in *; lia.
Qed.

Lemma rev_seq_S n : rev (seq 0 (S n)) = n :: rev (seq 0 n).
Proof. by rewrite seq_S, rev_app_distr. Qed.

Lemma sweep_run l pre : forall suf h,
  suf <> [] ->
  h !! l = Some (pre ++ Spec.envelope suf) ->
  for_each (rev (seq 0 (length pre)))
    (fun i => a <- list_get l i ;;
              b <- list_get l (i + 1) ;;
              list_set l i (py_max a b)) h
  = Ok (tt, <[l := Spec.envelope (pre ++ suf)]> h).
Proof.
  induction pre as [|x pre IH] using rev_ind; intros suf h Hsuf Hl.
  - cbn [length seq rev for_each app] in *. unfold ret.
    by rewrite list_insert_id.
  - rewrite length_app, Nat.add_1_r, rev_seq_S. cbn [for_each length].
    destruct (Spec.envelope suf) as [|y e] eqn:Ee.
    { apply (f_equal length) in Ee. rewrite envelope_length in Ee.
      destruct suf; [done|discriminate]. }
    rewrite <- app_assoc in Hl. cbn [app] in Hl.
    erewrite bind_ok; cycle 1.
    { erewrite bind_ok; [|eapply list_get_ok; [done|by apply list_lookup_middle]].
      erewrite bind_ok; cycle 1.
      { eapply list_get_ok; [done|].
        rewrite Nat.add_1_r, lookup_app_r by lia.
        by replace (S (length pre) - length pre)%nat with 1%nat by lia. }
      eapply list_set_ok; [done|]. rewrite length_app. simpl. lia. }
    rewrite (IH (x :: suf)); [| done |].
    + rewrite list_insert_insert_eq. by rewrite <- app_assoc.
    + erewrite heap_lookup_same by done. f_equal.
      rewrite insert_app_r_alt, Nat.sub_diag by lia.
      cbn [Spec.envelope]. rewrite Ee. by rewrite py_max_Qmax.
Qed.

Lemma breaks_run h l v (Hl : h !! l = Some v) : forall xs acc,
  Forall (fun i => 1 <= i < length v)%nat xs ->
  for_fold xs acc
    (fun i_list i => a <- list_get l i ;;
                     b <- list_get l (i - 1) ;;
                     if negb (Qeq_bool a b) then ret (i_list ++ [i])
                     else ret i_list) h
  = Ok (acc ++ filter (fun i => ~ nth i v 0 == nth (i - 1) v 0) xs, h).
Proof.
  induction xs as [|i xs IH]; intros acc Hxs.
  - simpl. unfold ret. by rewrite app_nil_r.
  - apply Forall_cons in Hxs as [Hi Hxs]. cbn [for_fold].
    erewrite bind_ok; cycle 1.
    { erewrite bind_ok; [|eapply list_get_nth; [done|lia]].
      erewrite bind_ok; [|eapply list_get_nth; [done|lia]].
      instantiate (1 := h).
      instantiate (1 := if negb (Qeq_bool (nth i v 0) (nth (i - 1) v 0))
                        then acc ++ [i] else acc).
      by destruct (negb _). }
    rewrite filter_cons, IH by done.
    destruct (Qeq_bool (nth i v 0) (nth (i - 1) v 0)) eqn:E; simpl.
    + apply Qeq_bool_iff in E. rewrite decide_False by tauto. done.
    + rewrite decide_True; cycle 1.
      { intros E'. apply Qeq_bool_iff in E'. congruence. }
      by rewrite <- app_assoc.
Qed.

Lemma area_run h mrec mpre v w
    (Hv : h !! mrec = Some v) (Hw : h !! mpre = Some w) : forall xs ap,
  Forall (fun i => i < length v /\ i < length w)%nat xs ->
  for_fold xs ap
    (fun ap i => a <- list_get mrec i ;;
                 b <- list_get mrec (i - 1) ;;
                 c <- list_get mpre i ;;
                 ret (ap + (a - b) * c)) h
  = Ok (fold_left Qplus
          (map (fun i => (nth i v 0 - nth (i - 1) v 0) * nth i w 0) xs) ap, h).
Proof.
  induction xs as [|i xs IH]; intros ap Hxs; [done|].
  apply Forall_cons in Hxs as [[Hi Hi'] Hxs]. cbn [for_fold].
  erewrite bind_ok; cycle 1.
  { erewrite bind_ok; [|eapply list_get_nth; [done|lia]].
    erewrite bind_ok; [|eapply list_get_nth; [done|lia]].
    erewrite bind_ok; [|eapply list_get_nth; [done|lia]].
    reflexivity. }
  by rewrite IH.
Qed.

(** Side conditions on the heap: lengths and lookups through updates. *)
Ltac heap_len :=
  repeat match goal with
         | H : _ !! _ = Some _ |- _ => apply lookup_lt_Some in H
         end;
  rewrite ?length_insert, ?length_app, ?length_insert in *;
  simpl length in *; lia.

Ltac heap_lookup :=
  repeat first
    [ rewrite list_lookup_insert_eq by heap_len
    | rewrite list_lookup_insert_ne by (first [congruence | heap_len])
    | rewrite lookup_app_l by heap_len
    | rewrite list_lookup_middle by heap_len ];
  try eassumption; try reflexivity.

Ltac run_with lem := erewrite bind_ok; [| eapply lem; heap_lookup].


Lemma voc_ap_run h rec prec r p :
  h !! rec = Some r -> h !! prec = Some p -> rec <> prec ->
  (length r <= length p)%nat ->
  voc_ap rec prec h
  = Ok ((Spec.ap r p, length h, S (length h)), voc_ap_heap h rec prec r p).
Proof.
  intros Hr Hp Hne Hlen. unfold voc_ap.
  run_with list_insert0_ok.
  run_with list_append_ok.
  rewrite list_insert_insert_eq.
  run_with list_copy_ok.
  run_with list_insert0_ok.
  run_with list_append_ok.
  rewrite list_insert_insert_eq.
  run_with list_copy_ok.
  run_with list_len_ok.
  rewrite ?length_insert, ?length_app, ?length_insert.
  cbn [length]. rewrite ?Nat.add_1_r.
  change ((0 :: r) ++ [1]) with (Spec.mrec r).
  change ((0 :: p) ++ [0]) with (Spec.mprec p).
  replace (range_down _) with (rev (seq 0 (length (0 :: p)))); cycle 1.
  { unfold range_down. cbn [length].
    destruct (Z.ltb_spec (Z.of_nat (S (S (length p))) - 2) 0); [lia|].
    do 3 f_equal. lia. }
  erewrite bind_ok; cycle 1.
  { apply (sweep_run _ (0 :: p) [0]); [done|]. heap_lookup. }
  change ((0 :: p) ++ [0]) with (Spec.mprec p).
  rewrite (insert_app_r_alt _ _ (S (length h))) by heap_len.
  rewrite ?length_insert, ?length_app, ?length_insert.
  cbn [length]. rewrite Nat.add_1_r, Nat.sub_diag. cbn [insert list_insert].
  rewrite (insert_app_l _ _ prec) by heap_len.
  rewrite <- app_assoc. cbn [app].
  fold (voc_ap_heap h rec prec r p).
  assert (Hmrec : voc_ap_heap h rec prec r p !! length h = Some (Spec.mrec r)).
  { unfold voc_ap_heap. heap_lookup. }
  assert (Hmpre : voc_ap_heap h rec prec r p !! S (length h)
                  = Some (Spec.envelope (Spec.mprec p))).
  { unfold voc_ap_heap. rewrite lookup_app_r by heap_len.
    rewrite ?length_insert. by replace (S (length h) - length h)%nat with 1%nat by lia. }
  run_with list_len_ok.
  erewrite bind_ok; cycle 1.
  { eapply breaks_run; [exact Hmrec|]. unfold range.
    apply Forall_forall. intros i Hi%elem_of_seq. lia. }
  erewrite bind_ok; cycle 1.
  { eapply area_run; [exact Hmrec|exact Hmpre|]. cbn [app].
    apply Forall_forall. intros i [_ Hi%elem_of_seq]%list_elem_of_filter.
    rewrite envelope_length. unfold Spec.mrec, Spec.mprec in *.
    cbn [length] in *. rewrite !length_app in *. cbn [length] in *. lia. }
  reflexivity.
Qed.

(** ** [get_rec_prec]: the four loops *)


Lemma running_length l : forall c, length (running c l) = length l.
Proof. induction l as [|x l IH]; intros c; simpl; [done|by rewrite IH]. Qed.

Lemma cumsum_fold_run l : forall suf pre cumsum h,
  h !! l = Some (pre ++ suf) ->
  for_fold (seq (length pre) (length suf)) cumsum
    (fun cumsum idx =>
       val <- list_get l idx ;;
       cur <- list_get l idx ;;
       list_set l idx (cur + cumsum) ;;;
       ret (cumsum + val)) h
  = Ok (fold_left Qplus suf cumsum, <[l := pre ++ running cumsum suf]> h).
Proof.
  induction suf as [|x suf IH]; intros pre c h Hl.
  - cbn [length seq for_fold running fold_left]. unfold ret.
    by rewrite list_insert_id.
  - cbn [length seq for_fold running fold_left].
    erewrite bind_ok; cycle 1.
    { erewrite bind_ok; [|eapply list_get_ok; [done|by apply list_lookup_middle]].
      erewrite bind_ok; [|eapply list_get_ok; [done|by apply list_lookup_middle]].
      erewrite bind_ok; [reflexivity|].
      eapply list_set_ok; [done|]. rewrite length_app. simpl. lia. }
    cbv beta.
    replace (S (length pre)) with (length (pre ++ [x + c])); cycle 1.
    { rewrite length_app. simpl. lia. }
    rewrite IH; cycle 1.
    { erewrite heap_lookup_same by done. f_equal.
      rewrite insert_app_r_alt, Nat.sub_diag by lia.
      by rewrite <- app_assoc. }
    by rewrite list_insert_insert_eq, <- app_assoc.
Qed.

Lemma cumsum_loop_run h l v :
  h !! l = Some v ->
  cumsum_loop l h = Ok (tt, <[l := running 0 v]> h).
Proof.
  intros Hl. unfold cumsum_loop.
  run_with list_len_ok.
  unfold range. rewrite Nat.sub_0_r.
  erewrite bind_ok; [|apply (cumsum_fold_run l v [] 0 h Hl)].
  reflexivity.
Qed.

Lemma py_div_ok a b h : ~ b == 0 -> py_div a b h = Ok (a / b, h).
Proof.
  intros Hb. unfold py_div. destruct (Qeq_bool b 0) eqn:E; [|done].
  by apply Qeq_bool_iff in E.
Qed.

Lemma rec_fill_run tp rec N (Hne : tp <> rec) (HN : ~ N == 0) :
  forall suf pre h,
  h !! tp = Some (pre ++ suf) ->
  h !! rec = Some (map (fun a => a / N) pre ++ suf) ->
  for_each (seq (length pre) (length suf))
    (fun idx =>
       a <- list_get tp idx ;;
       q <- py_div a N ;;
       list_set rec idx q) h
  = Ok (tt, <[rec := map (fun a => a / N) (pre ++ suf)]> h).
Proof.
  induction suf as [|x suf IH]; intros pre h Htp Hrec.
  - cbn [length seq for_each]. unfold ret.
    rewrite app_nil_r in *. by rewrite list_insert_id.
  - cbn [length seq for_each].
    erewrite bind_ok; cycle 1.
    { erewrite bind_ok; [|eapply list_get_ok; [done|by apply list_lookup_middle]].
      erewrite bind_ok; [|by apply py_div_ok].
      eapply list_set_ok; [done|].
      rewrite length_app, length_map. simpl. lia. }
    replace (S (length pre)) with (length (pre ++ [x])); cycle 1.
    { rewrite length_app. simpl. lia. }
    rewrite IH.
    + by rewrite list_insert_insert_eq, <- app_assoc.
    + rewrite heap_lookup_other by done. by rewrite <- app_assoc.
    + erewrite heap_lookup_same by done. f_equal.
      rewrite insert_app_r_alt, length_map, Nat.sub_diag by (rewrite length_map; lia).
      by rewrite map_app, <- app_assoc.
Qed.

Lemma rec_loop_run h tp v gt_records :
  h !! tp = Some v ->
  v = [] \/ gt_records <> [] ->
  rec_loop tp gt_records h
  = Ok (length h,
        h ++ [map (fun a => a / inject_Z (Z.of_nat (length gt_records))) v]).
Proof.
  intros Htp HN. unfold rec_loop.
  run_with list_copy_ok.
  run_with list_len_ok.
  unfold range. rewrite Nat.sub_0_r.
  destruct HN as [->|HN].
  { cbn [length seq for_each map]. by unfold bind, ret. }
  erewrite bind_ok; cycle 1.
  { apply (rec_fill_run tp (length h) _) with (pre := []) (suf := v).
    - heap_len.
    - destruct gt_records; [done|]. cbn [length].
      unfold Qeq, inject_Z. simpl. lia.
    - heap_lookup.
    - cbn [map app]. heap_lookup. }
  unfold ret. cbn [app]. do 2 f_equal.
  rewrite insert_app_r_alt, Nat.sub_diag by lia. done.
Qed.


Lemma zip_with_snoc {X Y Z} (g : X -> Y -> Z) pre : forall w x y,
  w !! length pre = Some y ->
  zip_with g (pre ++ [x]) w = zip_with g pre w ++ [g x y].
Proof.
  induction pre as [|a pre IH]; intros [|b w] x y Hw; try done.
  - simpl in *. by simplify_eq.
  - simpl in *. by rewrite (IH w x y).
Qed.

Lemma prec_fill_run tp fp prec (Hne : tp <> prec) (Hne' : fp <> prec) :
  forall suf pre w h,
  h !! tp = Some (pre ++ suf) ->
  h !! fp = Some w ->
  (length pre + length suf <= length w)%nat ->
  (forall i a f, (pre ++ suf) !! i = Some a -> w !! i = Some f -> ~ f + a == 0) ->
  h !! prec = Some (zip_with prec_at pre w ++ suf) ->
  for_each (seq (length pre) (length suf))
    (fun idx =>
       a <- list_get tp idx ;;
       f <- list_get fp idx ;;
       t <- list_get tp idx ;;
       q <- py_div a (f + t) ;;
       list_set prec idx q) h
  = Ok (tt, <[prec := zip_with prec_at (pre ++ suf) w]> h).
Proof.
  induction suf as [|x suf IH]; intros pre w h Htp Hfp Hlen Hden Hprec.
  - cbn [length seq for_each]. unfold ret.
    rewrite app_nil_r in *. by rewrite list_insert_id.
  - cbn [length seq for_each] in *.
    destruct (lookup_lt_is_Some_2 w (length pre)) as [f Hf]; [lia|].
    assert (Hzl : length (zip_with prec_at pre w) = length pre).
    { rewrite length_zip_with. lia. }
    erewrite bind_ok; cycle 1.
    { erewrite bind_ok; [|eapply list_get_ok; [done|by apply list_lookup_middle]].
      erewrite bind_ok; [|eapply list_get_ok; [done|exact Hf]].
      erewrite bind_ok; [|eapply list_get_ok; [done|by apply list_lookup_middle]].
      erewrite bind_ok; cycle 1.
      { apply py_div_ok.
        apply (Hden (length pre) x f); [by apply list_lookup_middle|exact Hf]. }
      eapply list_set_ok; [done|]. rewrite length_app, Hzl. simpl. lia. }
    replace (S (length pre)) with (length (pre ++ [x])); cycle 1.
    { rewrite length_app. simpl. lia. }
    rewrite (IH _ w).
    + by rewrite list_insert_insert_eq, <- app_assoc.
    + rewrite heap_lookup_other by done. by rewrite <- app_assoc.
    + by rewrite heap_lookup_other by done.
    + rewrite length_app. simpl. lia.
    + by rewrite <- app_assoc.
    + erewrite heap_lookup_same by done. f_equal.
      rewrite insert_app_r_alt, Hzl, Nat.sub_diag by lia.
      cbn [insert list_insert].
      rewrite (zip_with_snoc _ _ _ _ f) by done.
      by rewrite <- app_assoc.
Qed.

Lemma prec_loop_run h tp fp v w :
  h !! tp = Some v -> h !! fp = Some w ->
  (length v <= length w)%nat ->
  (forall i a f, v !! i = Some a -> w !! i = Some f -> ~ f + a == 0) ->
  prec_loop tp fp h = Ok (length h, h ++ [zip_with prec_at v w]).
Proof.
  intros Htp Hfp Hlen Hden. unfold prec_loop.
  run_with list_copy_ok.
  run_with list_len_ok.
  unfold range. rewrite Nat.sub_0_r.
  erewrite bind_ok; cycle 1.
  { apply (prec_fill_run tp fp (length h)) with (pre := []) (suf := v) (w := w).
    - heap_len.
    - heap_len.
    - heap_lookup.
    - heap_lookup.
    - simpl. lia.
    - done.
    - cbn [zip_with app]. heap_lookup. }
  unfold ret. cbn [app]. do 2 f_equal.
  rewrite insert_app_r_alt, Nat.sub_diag by lia. done.
Qed.


Lemma get_rec_prec_run h tp_loc fp_loc tp fp gt_records :
  h !! tp_loc = Some tp -> h !! fp_loc = Some fp -> tp_loc <> fp_loc ->
  (length tp <= length fp)%nat ->
  tp = [] \/ gt_records <> [] ->
  denominators_ok tp fp ->
  get_rec_prec tp_loc fp_loc gt_records h
  = Ok ((length h, S (length h)),
        get_rec_prec_heap h tp_loc fp_loc tp fp gt_records).
Proof.
  intros Htp Hfp Hne Hlen HN Hden. unfold get_rec_prec.
  run_with cumsum_loop_run.
  run_with cumsum_loop_run.
  erewrite bind_ok; cycle 1.
  { eapply rec_loop_run; [heap_lookup|].
    destruct HN as [->|HN]; [by left|by right]. }
  erewrite bind_ok; cycle 1.
  { eapply prec_loop_run.
    - heap_lookup.
    - heap_lookup.
    - by rewrite !running_length.
    - exact Hden. }
  unfold ret, get_rec_prec_heap, rec_curve, prec_curve.
  rewrite ?length_app, ?length_insert. cbn [length].
  rewrite Nat.add_1_r, <- app_assoc. done.
Qed.

(** ** [match_gt_box] against the scan of the specification *)

Section Matcher.
Variable p : pred_record.

Lemma enumerate_from_app {A} (l1 l2 : list A) n :
  enumerate_from n (l1 ++ l2)
  = enumerate_from n l1 ++ enumerate_from (n + length l1) l2.
Proof.
  revert n. induction l1 as [|x l1 IH]; intros n; simpl.
  - by rewrite Nat.add_0_r.
  - rewrite IH. do 3 f_equal. lia.
Qed.

Lemma best_scan_inv l : forall pre best,
  best_inv p pre best ->
  best_inv p (pre ++ l) (best_scan p (enumerate_from (length pre) l) best).
Proof.
  induction l as [|g l IH]; intros pre best Hinv.
  - by rewrite app_nil_r.
  - cbn [enumerate_from best_scan fold_left].
    replace (pre ++ g :: l) with ((pre ++ [g]) ++ l) by by rewrite <- app_assoc.
    replace (S (length pre)) with (length (pre ++ [g]))
      by (rewrite length_app; simpl; lia).
    apply IH. cbn [fst snd].
    destruct (eligible p g) eqn:Eg.
    + destruct best as [[j b]|].
      * destruct Hinv as (gj & Hj & Hej & Hb & Hmax & Hfirst).
        destruct (Qltb b (iou_of p g)) eqn:Elt.
        -- apply Qltb_lt in Elt. exists g. split_and!; try done.
           ++ by apply list_lookup_middle.
           ++ intros k g' [[Hk Hg']|[-> <-]]%lookup_snoc_Some He; [|lra].
              specialize (Hmax _ _ Hg' He). lra.
           ++ intros k g' Hk Hg' He.
              rewrite lookup_app_l in Hg' by done.
              specialize (Hmax _ _ Hg' He). lra.
        -- apply Qltb_ge in Elt. exists gj. split_and!; try done.
           ++ rewrite lookup_app_l; [done|by eapply lookup_lt_Some].
           ++ intros k g' [[Hk Hg']|[-> <-]]%lookup_snoc_Some He; [eauto|lra].
           ++ intros k g' Hk Hg' He. apply (Hfirst k g'); try done.
              apply lookup_lt_Some in Hj.
              rewrite lookup_app_l in Hg' by lia. done.
      * exists g. split_and!; try done.
        -- by apply list_lookup_middle.
        -- intros k g' [[Hk Hg']|[-> <-]]%lookup_snoc_Some He; [|lra].
           rewrite (Hinv _ _ Hg') in He. done.
        -- intros k g' Hk Hg' He. rewrite lookup_app_l in Hg' by done.
           rewrite (Hinv _ _ Hg') in He. done.
    + destruct best as [[j b]|].
      * destruct Hinv as (gj & Hj & Hej & Hb & Hmax & Hfirst).
        exists gj. split_and!; try done.
        -- rewrite lookup_app_l; [done|by eapply lookup_lt_Some].
        -- intros k g' [[Hk Hg']|[-> <-]]%lookup_snoc_Some He; [eauto|congruence].
        -- intros k g' Hk Hg' He. apply (Hfirst k g'); try done.
           apply lookup_lt_Some in Hj.
           rewrite lookup_app_l in Hg' by lia. done.
      * intros k g' [[Hk Hg']|[-> <-]]%lookup_snoc_Some; eauto.
Qed.

Lemma best_candidate_inv gts : best_inv p gts (best_candidate p gts).
Proof. apply (best_scan_inv gts [] None). by intros j g. Qed.

Lemma better_eligible m g :
  better p m g = Qltb m (iou_of p g) && eligible p g.
Proof. unfold better, eligible, iou_of. by rewrite andb_assoc. Qed.

Lemma match_scan_rel l : forall n best st,
  scan_rel best st ->
  scan_rel (best_scan p (enumerate_from n l) best)
           (match_scan p (enumerate_from n l) st).
Proof.
  induction l as [|g l IH]; intros n best [m k] Hrel; [done|].
  cbn [enumerate_from best_scan match_scan fold_left].
  apply IH. cbn [fst snd]. rewrite better_eligible.
  fold (iou_of p g).
  destruct (eligible p g) eqn:Eg; [|by rewrite andb_false_r].
  rewrite andb_true_r.
  destruct best as [[j b]|]; cbn [scan_rel] in *.
  - destruct Hrel as [[Hb [= -> ->]]|[Hb [= -> ->]]].
    + destruct (Qltb 0 (iou_of p g)) eqn:E0.
      * apply Qltb_lt in E0.
        rewrite (proj2 (Qltb_lt b _)) by lra. by right.
      * apply Qltb_ge in E0.
        destruct (Qltb b (iou_of p g)); left; split; try done; lra.
    + destruct (Qltb b (iou_of p g)) eqn:E0.
      * apply Qltb_lt in E0. right. split; [lra|done].
      * by right.
  - injection Hrel as -> ->.
    destruct (Qltb 0 (iou_of p g)) eqn:E0.
    + apply Qltb_lt in E0. by right.
    + apply Qltb_ge in E0. by left.
Qed.

(** [match_gt_box] is the scan of the specification with the further
    condition that the best IoU is positive. *)
Lemma match_gt_box_positive gts thr :
  match_gt_box p gts thr = positive_match p gts thr.
Proof.
  unfold match_gt_box, positive_match, best_candidate, enumerate.
  pose proof (match_scan_rel gts 0 None (0, (-1)%Z) eq_refl) as Hrel.
  destruct (match_scan p (enumerate_from 0 gts) (0, (-1)%Z)) as [m k].
  destruct (best_scan p (enumerate_from 0 gts) None) as [[j b]|];
    cbn [scan_rel] in Hrel.
  - destruct Hrel as [[Hb [= -> ->]]|[Hb [= -> ->]]].
    + rewrite (proj2 (Qltb_ge 0 b)) by done. cbn [andb].
      by destruct (Qltb 0 thr).
    + rewrite (proj2 (Qltb_lt 0 b)) by done. cbn [andb].
      unfold Qltb. by destruct (Qle_bool thr b).
  - injection Hrel as -> ->. by destruct (Qltb 0 thr).
Qed.

Lemma is_best_unique gts i b i' b' :
  is_best p gts i b -> is_best p gts i' b' -> i = i' /\ b = b'.
Proof.
  intros (g & Hg & He & Hb & Hmax & Hfirst) (g' & Hg' & He' & Hb' & Hmax' & Hfirst').
  subst b b'.
  assert (i = i') as <-.
  { destruct (Nat.lt_trichotomy i i') as [Hlt|[->|Hlt]]; [|done|].
    - specialize (Hfirst' _ _ Hlt Hg He). specialize (Hmax _ _ Hg' He'). lra.
    - specialize (Hfirst _ _ Hlt Hg' He'). specialize (Hmax' _ _ Hg He). lra. }
  split; [done|]. congruence.
Qed.
End Matcher.

(** ** The references of [image_gt_records] and the value of [assign] *)

Lemma elem_of_enumerate_from {A} (l : list A) : forall n i x,
  (i, x) ∈ enumerate_from n l <-> (n <= i)%nat /\ l !! (i - n)%nat = Some x.
Proof.
  induction l as [|y l IH]; intros n i x; simpl.
  - rewrite elem_of_nil. split; [done|]. intros [_ ?]. done.
  - rewrite elem_of_cons, IH. split.
    + intros [[= -> ->]|[Hn Hl]].
      * by rewrite Nat.sub_diag.
      * split; [lia|]. by replace (i - n)%nat with (S (i - S n)) by lia.
    + intros [Hn Hl]. destruct (decide (i = n)) as [->|Hne].
      * rewrite Nat.sub_diag in Hl. simpl in Hl. left. congruence.
      * right. split; [lia|].
        by replace (i - n)%nat with (S (i - S n)) in Hl by lia.
Qed.

Lemma elem_of_image_gt_records gts p r g :
  (r, g) ∈ image_gt_records gts p
  <-> gts !! r = Some g /\ gt_image g = pred_image p.
Proof.
  unfold image_gt_records, enumerate.
  rewrite list_elem_of_filter, elem_of_enumerate_from, Nat.sub_0_r.
  cbn [snd]. rewrite String.eqb_eq. split; [intros [? [_ ?]]|intros [? ?]]; split_and?; done || lia.
Qed.

Lemma eligible_unused p g :
  eligible p g = true ->
  gt_usage g = "unused"%string /\ pred_image p = gt_image g.
Proof.
  unfold eligible. rewrite andb_true_iff, !String.eqb_eq. done.
Qed.

Lemma assign_ok thr gts p : assign thr gts p = Ok (assigned thr gts p).
Proof.
  unfold assign, assigned. rewrite match_gt_box_positive.
  unfold positive_match.
  pose proof (best_candidate_inv p (map snd (image_gt_records gts p))) as Hinv.
  destruct (best_candidate p (map snd (image_gt_records gts p))) as [[i b]|];
    [|done].
  destruct (Qltb 0 b && Qle_bool thr b); [|done].
  destruct (Z.eqb_spec (Z.of_nat i) (-1)); [lia|].
  rewrite Nat2Z.id.
  destruct Hinv as (g & Hg & _).
  rewrite list_lookup_fmap in Hg.
  destruct (image_gt_records gts p !! i) as [[r g']|]; [done|discriminate].
Qed.

Lemma assigned_Some thr gts p r :
  assigned thr gts p = Some r ->
  exists g, gts !! r = Some g /\ gt_usage g = "unused"%string
            /\ gt_image g = pred_image p.
Proof.
  unfold assigned.
  pose proof (best_candidate_inv p (map snd (image_gt_records gts p))) as Hinv.
  destruct (best_candidate p (map snd (image_gt_records gts p))) as [[i b]|];
    [|done].
  destruct (Qltb 0 b && Qle_bool thr b); [|done].
  destruct Hinv as (g & Hg & He & _).
  rewrite list_lookup_fmap in Hg.
  destruct (image_gt_records gts p !! i) as [[r' g']|] eqn:EL; [|done].
  cbn in *. intros [= ->]. injection Hg as ->.
  apply list_elem_of_lookup_2, elem_of_image_gt_records in EL as [Hr Him].
  apply eligible_unused in He as [Hu _]. eauto.
Qed.

(** ** The matching loop: usage flags *)

Lemma mark_used_lookup r gts r' :
  mark_used r gts !! r'
  = if decide (r' = r) then used_copy <$> gts !! r else gts !! r'.
Proof.
  unfold mark_used. destruct (gts !! r) as [g|] eqn:Hr.
  - destruct (decide (r' = r)) as [->|Hne].
    + rewrite list_lookup_insert_eq by by eapply lookup_lt_Some. done.
    + by rewrite list_lookup_insert_ne.
  - destruct (decide (r' = r)) as [->|Hne]; by rewrite ?Hr.
Qed.

Lemma mark_used_length r gts : length (mark_used r gts) = length gts.
Proof. unfold mark_used. destruct (gts !! r); by rewrite ?length_insert. Qed.

Lemma mark_used_unused_count r gts g :
  gts !! r = Some g -> is_unused g = true ->
  S (unused_count (mark_used r gts)) = unused_count gts.
Proof.
  intros Hr Hu. unfold mark_used, unused_count. rewrite Hr.
  rewrite insert_take_drop by by eapply lookup_lt_Some.
  rewrite <- (take_drop_middle gts r g Hr) at 3.
  rewrite !filter_app, !filter_cons, !length_app.
  rewrite decide_False by done. rewrite decide_True by done.
  simpl. lia.
Qed.

Lemma matching_cons thr gts p rest :
  matching thr gts (p :: rest)
  = match assigned thr gts p with
    | Some r => (Some r :: fst (matching thr (mark_used r gts) rest),
                 snd (matching thr (mark_used r gts) rest))
    | None => (None :: fst (matching thr gts rest),
               snd (matching thr gts rest))
    end.
Proof.
  cbn [matching]. rewrite assign_ok.
  destruct (assigned thr gts p) as [r|].
  - by destruct (matching thr (mark_used r gts) rest).
  - by destruct (matching thr gts rest).
Qed.

Lemma matching_trace_length thr preds : forall gts,
  length (fst (matching thr gts preds)) = length preds.
Proof.
  induction preds as [|p preds IH]; intros gts; [done|].
  rewrite matching_cons. destruct (assigned thr gts p); simpl; by rewrite IH.
Qed.

Lemma hits_Some r tr : hits (Some r :: tr) = S (hits tr).
Proof. done. Qed.

Lemma hits_None tr : hits (None :: tr) = hits tr.
Proof. done. Qed.

(** Every match turns one [unused] record into a used one. *)
Lemma matching_unused_count thr preds : forall gts,
  (unused_count (snd (matching thr gts preds))
   + hits (fst (matching thr gts preds)) = unused_count gts)%nat.
Proof.
  induction preds as [|p preds IH]; intros gts.
  - simpl. unfold hits. simpl. lia.
  - rewrite matching_cons. destruct (assigned thr gts p) as [r|] eqn:Ea.
    + apply assigned_Some in Ea as (g & Hg & Hu & _).
      cbn [fst snd]. specialize (IH (mark_used r gts)).
      rewrite <- (mark_used_unused_count r gts g Hg); cycle 1.
      { unfold is_unused. by rewrite Hu. }
      rewrite hits_Some. lia.
    + cbn [fst snd]. rewrite hits_None. apply IH.
Qed.

Lemma unused_count_le gts : (unused_count gts <= length gts)%nat.
Proof. apply length_filter. Qed.

Lemma hits_le_length thr preds gts :
  (hits (fst (matching thr gts preds)) <= length gts)%nat.
Proof.
  pose proof (matching_unused_count thr preds gts).
  pose proof (unused_count_le gts). lia.
Qed.

(** The trajectory of the flags: a record is touched only by the match
    that uses it, and it was [unused] then. *)
Lemma matching_inv thr preds : forall gts,
  let tr := fst (matching thr gts preds) in
  let final := snd (matching thr gts preds) in
  (forall r g, gts !! r = Some g ->
     final !! r = Some (if decide (Some r ∈ tr) then used_copy g else g)) /\
  (forall r, Some r ∈ tr ->
     exists g, gts !! r = Some g /\ gt_usage g = "unused"%string) /\
  NoDup (omap id tr) /\
  length final = length gts.
Proof.
  induction preds as [|p preds IH]; intros gts; cbn zeta.
  - cbn [matching fst snd]. split; [|split; [|split]].
    + intros r g Hg. rewrite decide_False; [done|]. by intros ?%elem_of_nil.
    + by intros r ?%elem_of_nil.
    + constructor.
    + done.
  - rewrite matching_cons. destruct (assigned thr gts p) as [r|] eqn:Ea.
    + apply assigned_Some in Ea as (g & Hg & Hu & _). cbn [fst snd].
      destruct (IH (mark_used r gts)) as (Hfin & Hun & Hnd & Hlen).
      assert (Hfresh : Some r ∉ fst (matching thr (mark_used r gts) preds)).
      { intros (g' & Hg' & Hu')%Hun.
        rewrite mark_used_lookup, decide_True, Hg in Hg' by done.
        by injection Hg' as <-. }
      split; [|split; [|split]].
      * intros r' g' Hg'. destruct (decide (r' = r)) as [->|Hne].
        -- rewrite decide_True by left.
           rewrite (Hfin r (used_copy g)); cycle 1.
           { by rewrite mark_used_lookup, decide_True, Hg. }
           rewrite decide_False by done. congruence.
        -- rewrite (Hfin r' g'); cycle 1.
           { by rewrite mark_used_lookup, decide_False. }
           f_equal. destruct (decide (Some r' ∈ _)) as [Hin|Hin].
           ++ rewrite decide_True; [done|by right].
           ++ rewrite decide_False; [done|].
              intros [?|?]%elem_of_cons; [congruence|done].
      * intros r' [[= ->]|Hin]%elem_of_cons; [eauto|].
        apply Hun in Hin as (g' & Hg' & Hu').
        rewrite mark_used_lookup in Hg'.
        destruct (decide (r' = r)) as [->|Hne]; [|eauto].
        rewrite Hg in Hg'. by injection Hg' as <-.
      * cbn [omap id]. apply NoDup_cons. split; [|done].
        intros Hin. apply Hfresh. apply list_elem_of_omap in Hin.
        destruct Hin as (o & Ho & Hid). unfold id in Hid. by subst.
      * by rewrite Hlen, mark_used_length.
    + cbn [fst snd]. destruct (IH gts) as (Hfin & Hun & Hnd & Hlen).
      split; [|split; [|split]].
      * intros r g Hg. rewrite (Hfin r g Hg). f_equal.
        destruct (decide (Some r ∈ _)) as [Hin|Hin].
        -- rewrite decide_True; [done|by right].
        -- rewrite decide_False; [done|].
           intros [?|?]%elem_of_cons; [congruence|done].
      * intros r [?|Hin]%elem_of_cons; [congruence|eauto].
      * done.
      * done.
Qed.

(** ** Raising the threshold *)

Lemma enumerate_from_Forall2 l1 l2 :
  Forall2 le_used l1 l2 ->
  forall n, Forall2 le_used_ref (enumerate_from n l1) (enumerate_from n l2).
Proof.
  induction 1 as [|g1 g2 l1 l2 Hg Hl IH]; intros n; simpl; constructor.
  - by split.
  - apply IH.
Qed.

Lemma image_gt_records_Forall2 st1 st2 p :
  Forall2 le_used st1 st2 ->
  Forall2 le_used_ref (image_gt_records st1 p) (image_gt_records st2 p).
Proof.
  intros H. unfold image_gt_records, enumerate.
  apply Forall2_filter; [|by apply enumerate_from_Forall2].
  intros [r1 g1] [r2 g2] [_ (Him & _ & _)]. cbn [snd] in *. by rewrite Him.
Qed.

Lemma le_used_eligible p g1 g2 :
  le_used g1 g2 -> eligible p g1 = true -> eligible p g2 = true.
Proof.
  intros (Him & _ & Hu) [Hu1 Hi1]%eligible_unused.
  unfold eligible. rewrite <- Him, Hi1, String.eqb_refl, andb_true_r.
  apply Hu. unfold is_unused. by rewrite Hu1, String.eqb_refl.
Qed.

Lemma le_used_iou p g1 g2 : le_used g1 g2 -> iou_of p g1 = iou_of p g2.
Proof. intros (_ & Hc & _). unfold iou_of. by rewrite Hc. Qed.

(** The best candidate among fewer used records stays the best among more
    used ones as long as it is itself unused there. *)
Lemma is_best_le_used p l1 l2 i b g1 :
  Forall2 le_used l1 l2 ->
  is_best p l2 i b ->
  l1 !! i = Some g1 -> is_unused g1 = true ->
  is_best p l1 i b.
Proof.
  intros Hl (g2 & Hg2 & He2 & Hb & Hmax & Hfirst) Hg1 Hu1.
  pose proof (Forall2_lookup_lr _ _ _ _ _ _ Hl Hg1 Hg2) as Hle.
  exists g1. split; [done|]. split; [|split; [|split]].
  - apply eligible_unused in He2 as [_ Hi2]. destruct Hle as (Him & _ & _).
    unfold eligible. fold (is_unused g1). by rewrite Hu1, Him, Hi2, String.eqb_refl.
  - by rewrite (le_used_iou p g1 g2 Hle).
  - intros j g' Hj He.
    destruct (Forall2_lookup_l _ _ _ _ _ Hl Hj) as (g'' & Hj' & Hle').
    rewrite (le_used_iou p g' g'' Hle'). apply (Hmax j); [done|].
    by eapply le_used_eligible.
  - intros j g' Hlt Hj He.
    destruct (Forall2_lookup_l _ _ _ _ _ Hl Hj) as (g'' & Hj' & Hle').
    rewrite (le_used_iou p g' g'' Hle'). apply (Hfirst j); [done..|].
    by eapply le_used_eligible.
Qed.

Lemma assigned_mono t1 t2 st1 st2 p r g1 :
  t1 <= t2 ->
  Forall2 le_used st1 st2 ->
  assigned t2 st2 p = Some r ->
  st1 !! r = Some g1 -> is_unused g1 = true ->
  assigned t1 st1 p = Some r.
Proof.
  intros Ht Hst Ha Hg1 Hu1. unfold assigned in *.
  pose proof (image_gt_records_Forall2 st1 st2 p Hst) as HL.
  set (L1 := image_gt_records st1 p) in *.
  set (L2 := image_gt_records st2 p) in *.
  pose proof (best_candidate_inv p (map snd L2)) as Hinv2.
  destruct (best_candidate p (map snd L2)) as [[i b]|]; [|done].
  destruct (Qltb 0 b && Qle_bool t2 b) eqn:Ecmp; [|done].
  apply andb_true_iff in Ecmp as [Hpos Hthr].
  destruct (L2 !! i) as [[r2 g2]|] eqn:EL2; [|done].
  cbn in Ha. injection Ha as ->.
  destruct (Forall2_lookup_r _ _ _ _ _ HL EL2) as ([r1 g1'] & EL1 & Hr & Hle).
  cbn in Hr. subst r1.
  assert (g1' = g1) as ->.
  { apply list_elem_of_lookup_2, elem_of_image_gt_records in EL1 as [Hr1 _].
    congruence. }
  assert (Hbest1 : is_best p (map snd L1) i b).
  { apply (is_best_le_used p _ (map snd L2) i b g1); try done.
    - apply Forall2_fmap. eapply Forall2_impl; [exact HL|]. by intros ?? [_ ?].
    - by rewrite list_lookup_fmap, EL1. }
  pose proof (best_candidate_inv p (map snd L1)) as Hinv1.
  destruct (best_candidate p (map snd L1)) as [[i' b']|].
  - destruct (is_best_unique p _ _ _ _ _ Hinv1 Hbest1) as [-> ->].
    rewrite Hpos. apply Qle_bool_iff in Hthr.
    rewrite (proj2 (Qle_bool_iff t1 b)) by lra.
    cbn [andb]. by rewrite EL1.
  - destruct Hbest1 as (g & Hg & He & _). cbn in Hinv1.
    rewrite (Hinv1 _ _ Hg) in He. done.
Qed.

Lemma mark_used_le_used r st1 st2 :
  Forall2 le_used st1 st2 -> Forall2 le_used (mark_used r st1) st2.
Proof.
  intros H. apply Forall2_same_length_lookup. split.
  - rewrite mark_used_length. by eapply Forall2_length.
  - intros i g1 g2 H1 H2. rewrite mark_used_lookup in H1.
    destruct (decide (i = r)) as [->|Hne].
    + destruct (st1 !! r) as [g|] eqn:Hg; [|done]. injection H1 as <-.
      destruct (Forall2_lookup_lr _ _ _ _ _ _ H Hg H2) as (Him & Hc & _).
      by split; [|split].
    + by eapply Forall2_lookup_lr.
Qed.

Lemma mark_used_both r st1 st2 :
  Forall2 le_used st1 st2 ->
  Forall2 le_used (mark_used r st1) (mark_used r st2).
Proof.
  intros H. apply Forall2_same_length_lookup. split.
  - rewrite !mark_used_length. by eapply Forall2_length.
  - intros i g1 g2 H1 H2. rewrite mark_used_lookup in H1, H2.
    destruct (decide (i = r)) as [->|Hne].
    + destruct (st1 !! r) as [g|] eqn:Hg; [|done]. injection H1 as <-.
      destruct (st2 !! r) as [g'|] eqn:Hg'; [|done]. injection H2 as <-.
      destruct (Forall2_lookup_lr _ _ _ _ _ _ H Hg Hg') as (Him & Hc & _).
      by split; [|split].
    + by eapply Forall2_lookup_lr.
Qed.

(** With the lower threshold every record is used that is used with the
    higher one. *)
Lemma matching_mono t1 t2 (Ht : t1 <= t2) preds : forall st1 st2,
  Forall2 le_used st1 st2 ->
  Forall2 le_used (snd (matching t1 st1 preds)) (snd (matching t2 st2 preds)).
Proof.
  induction preds as [|p preds IH]; intros st1 st2 Hst; [done|].
  rewrite !matching_cons.
  destruct (assigned t2 st2 p) as [r2|] eqn:E2;
    destruct (assigned t1 st1 p) as [r1|] eqn:E1; cbn [snd]; apply IH.
  - (* both match *)
    destruct (decide (r1 = r2)) as [->|Hne]; [by apply mark_used_both|].
    apply Forall2_same_length_lookup. split.
    { rewrite !mark_used_length. by eapply Forall2_length. }
    intros i g1 g2 H1 H2. rewrite mark_used_lookup in H1, H2.
    destruct (decide (i = r2)) as [->|Hne2].
    + rewrite decide_False in H1 by done.
      destruct (decide (is_unused g1 = true)) as [Hu|Hu].
      * rewrite (assigned_mono t1 t2 st1 st2 p r2 g1 Ht Hst E2 H1 Hu) in E1.
        congruence.
      * destruct (st2 !! r2) as [g|] eqn:Hg; [|done]. injection H2 as <-.
        destruct (Forall2_lookup_lr _ _ _ _ _ _ Hst H1 Hg) as (Him & Hc & _).
        by split; [|split].
    + destruct (decide (i = r1)) as [->|Hne1].
      * destruct (st1 !! r1) as [g|] eqn:Hg; [|done]. injection H1 as <-.
        destruct (Forall2_lookup_lr _ _ _ _ _ _ Hst Hg H2) as (Him & Hc & _).
        by split; [|split].
      * by eapply Forall2_lookup_lr.
  - (* only the higher threshold matches: the record is used already *)
    apply Forall2_same_length_lookup. split.
    { rewrite mark_used_length. by eapply Forall2_length. }
    intros i g1 g2 H1 H2. rewrite mark_used_lookup in H2.
    destruct (decide (i = r2)) as [->|Hne2]; [|by eapply Forall2_lookup_lr].
    destruct (decide (is_unused g1 = true)) as [Hu|Hu].
    + rewrite (assigned_mono t1 t2 st1 st2 p r2 g1 Ht Hst E2 H1 Hu) in E1.
      congruence.
    + destruct (st2 !! r2) as [g|] eqn:Hg; [|done]. injection H2 as <-.
      destruct (Forall2_lookup_lr _ _ _ _ _ _ Hst H1 Hg) as (Him & Hc & _).
      by split; [|split].
  - by apply mark_used_le_used.
  - done.
Qed.

Lemma unused_count_mono st1 st2 :
  Forall2 le_used st1 st2 -> (unused_count st1 <= unused_count st2)%nat.
Proof.
  unfold unused_count. induction 1 as [|g1 g2 l1 l2 (_ & _ & Hu) _ IH]; [done|].
  rewrite !filter_cons.
  destruct (decide (is_unused g1 = true)) as [E1|E1].
  - rewrite decide_True by auto. simpl. lia.
  - destruct (decide (is_unused g2 = true)); simpl; lia.
Qed.

Lemma le_used_refl st : Forall2 le_used st st.
Proof. apply Forall_Forall2_diag, Forall_forall. by intros g _. Qed.

(** Threshold monotonicity on the trace of the loop. *)
Lemma true_positives_mono t1 t2 gts preds :
  t1 <= t2 ->
  (true_positives t2 gts preds <= true_positives t1 gts preds)%nat.
Proof.
  intros Ht. unfold true_positives.
  pose proof (matching_unused_count t1 preds (add_usage gts)) as H1.
  pose proof (matching_unused_count t2 preds (add_usage gts)) as H2.
  pose proof (unused_count_mono _ _
    (matching_mono t1 t2 Ht preds _ _ (le_used_refl (add_usage gts)))) as Hm.
  lia.
Qed.

(** ** The matching loop on the heap *)

Lemma match_loop_run thr tp fp (Hne : tp <> fp) preds :
  forall pre_tp pre_fp st c h,
  length pre_tp = length pre_fp ->
  h !! tp = Some (pre_tp ++ repeat 0 (length preds)) ->
  h !! fp = Some (pre_fp ++ repeat 0 (length preds)) ->
  for_fold (enumerate_from (length pre_tp) preds) (st, c) (match_body thr tp fp) h
  = Ok ((snd (matching thr st preds),
         (c + hits (fst (matching thr st preds)))%nat),
        <[tp := pre_tp ++ tp_flags (fst (matching thr st preds))]>
          (<[fp := pre_fp ++ fp_flags (fst (matching thr st preds))]> h)).
Proof.
  induction preds as [|p preds IH]; intros pre_tp pre_fp st c h Hlen Htp Hfp.
  - cbn [enumerate_from for_fold matching fst snd tp_flags fp_flags map
         repeat length] in *.
    unfold ret, hits. cbn [omap]. rewrite Nat.add_0_r.
    rewrite (list_insert_id h fp) by done.
    by rewrite (list_insert_id h tp) by done.
  - cbn [enumerate_from for_fold length repeat] in *.
    rewrite matching_cons. unfold match_body at 1. rewrite assign_ok.
    destruct (assigned thr st p) as [r|]; cbn [fst snd].
    + erewrite bind_ok; cycle 1.
      { erewrite bind_ok; [reflexivity|].
        eapply list_set_ok; [done|]. rewrite length_app. simpl. lia. }
      rewrite insert_app_r_alt, Nat.sub_diag by lia. cbn [insert list_insert].
      replace (S (length pre_tp)) with (length (pre_tp ++ [1]))
        by (rewrite length_app; simpl; lia).
      rewrite (IH (pre_tp ++ [1]) (pre_fp ++ [0])).
      * rewrite hits_Some. cbn [tp_flags fp_flags map].
        rewrite <- !app_assoc. cbn [app].
        rewrite (list_insert_insert_ne _ fp tp) by done.
        rewrite list_insert_insert_eq.
        do 3 f_equal. lia.
      * rewrite !length_app. simpl. lia.
      * rewrite <- app_assoc. by erewrite heap_lookup_same.
      * rewrite <- app_assoc. by rewrite heap_lookup_other.
    + erewrite bind_ok; cycle 1.
      { erewrite bind_ok; [reflexivity|].
        eapply list_set_ok; [done|]. rewrite length_app. simpl. lia. }
      rewrite Hlen.
      rewrite insert_app_r_alt, Nat.sub_diag by lia. cbn [insert list_insert].
      replace (S (length pre_fp)) with (length (pre_tp ++ [0]))
        by (rewrite length_app; simpl; lia).
      rewrite (IH (pre_tp ++ [0]) (pre_fp ++ [1])).
      * rewrite hits_None. cbn [tp_flags fp_flags map].
        rewrite <- !app_assoc. cbn [app].
        by rewrite list_insert_insert_eq.
      * rewrite !length_app. simpl. lia.
      * rewrite <- app_assoc. by rewrite heap_lookup_other.
      * rewrite <- app_assoc. by erewrite heap_lookup_same.
Qed.

Lemma tp_flags_length tr : length (tp_flags tr) = length tr.
Proof. apply length_map. Qed.

Lemma fp_flags_length tr : length (fp_flags tr) = length tr.
Proof. apply length_map. Qed.

Lemma hits_misses tr : (hits tr + misses tr = length tr)%nat.
Proof.
  induction tr as [|[r|] tr IH]; [done| |].
  - rewrite hits_Some. unfold misses in *. rewrite filter_cons.
    rewrite decide_False by done. simpl. lia.
  - rewrite hits_None. unfold misses in *. rewrite filter_cons.
    rewrite decide_True by done. simpl. lia.
Qed.

(** The running sums of the flags count the matches and the misses. *)
Lemma running_tp_flags tr : forall c i a,
  running c (tp_flags tr) !! i = Some a ->
  a == c + inject_Z (Z.of_nat (hits (take (S i) tr))).
Proof.
  induction tr as [|o tr IH]; intros c i a Ha; [done|].
  cbn [tp_flags map running] in Ha. destruct i as [|i].
  - injection Ha as <-. cbn [firstn].
    destruct o; [rewrite hits_Some|rewrite hits_None]; unfold hits; simpl.
    + change (inject_Z (Z.of_nat 1)) with 1. lra.
    + change (inject_Z (Z.of_nat 0)) with 0. lra.
  - cbn in Ha. apply IH in Ha. rewrite Ha.
    change (take (S (S i)) (o :: tr)) with (o :: take (S i) tr).
    destruct o; [rewrite hits_Some|rewrite hits_None].
    + rewrite Nat2Z.inj_succ, <- Z.add_1_l, inject_Z_plus.
      change (inject_Z 1) with 1. lra.
    + lra.
Qed.

Lemma misses_Some r tr : misses (Some r :: tr) = misses tr.
Proof. unfold misses. by rewrite filter_cons, decide_False. Qed.

Lemma misses_None tr : misses (None :: tr) = S (misses tr).
Proof. unfold misses. by rewrite filter_cons, decide_True. Qed.

Lemma running_fp_flags tr : forall c i f,
  running c (fp_flags tr) !! i = Some f ->
  f == c + inject_Z (Z.of_nat (misses (take (S i) tr))).
Proof.
  induction tr as [|o tr IH]; intros c i f Hf; [done|].
  cbn [fp_flags map running] in Hf. destruct i as [|i].
  - injection Hf as <-. cbn [firstn].
    destruct o; [rewrite misses_Some|rewrite misses_None]; unfold misses; simpl.
    + change (inject_Z (Z.of_nat 0)) with 0. lra.
    + change (inject_Z (Z.of_nat 1)) with 1. lra.
  - cbn in Hf. apply IH in Hf. rewrite Hf.
    change (take (S (S i)) (o :: tr)) with (o :: take (S i) tr).
    destruct o; [rewrite misses_Some|rewrite misses_None].
    + lra.
    + rewrite Nat2Z.inj_succ, <- Z.add_1_l, inject_Z_plus.
      change (inject_Z 1) with 1. lra.
Qed.

(** Each prediction sets exactly one flag, so the two running sums add up
    to the number of predictions seen. *)
Lemma flags_denominator tr i a f :
  running 0 (tp_flags tr) !! i = Some a ->
  running 0 (fp_flags tr) !! i = Some f ->
  a + f == inject_Z (Z.of_nat (S i)).
Proof.
  intros Ha Hf.
  assert (Hi : (i < length tr)%nat).
  { apply lookup_lt_Some in Ha. by rewrite running_length, tp_flags_length in Ha. }
  apply running_tp_flags in Ha. apply running_fp_flags in Hf.
  rewrite Ha, Hf, !Qplus_0_l, <- inject_Z_plus, <- Nat2Z.inj_add.
  rewrite hits_misses, length_take. by replace (S i `min` length tr)%nat with (S i) by lia.
Qed.

Lemma inject_Z_S_nonzero n : ~ inject_Z (Z.of_nat (S n)) == 0.
Proof. unfold Qeq, inject_Z. simpl. lia. Qed.

Lemma flags_denominators_ok tr : denominators_ok (tp_flags tr) (fp_flags tr).
Proof.
  intros i a f Ha Hf E. apply (inject_Z_S_nonzero i).
  rewrite <- (flags_denominator tr i a f Ha Hf). lra.
Qed.

(** ** [calc_AP]: the whole pipeline *)

Lemma add_usage_length gts : length (add_usage gts) = length gts.
Proof. apply length_map. Qed.

Lemma matching_final_length thr preds gts :
  length (snd (matching thr gts preds)) = length gts.
Proof. apply (matching_inv thr preds gts). Qed.

Lemma calc_AP_at_run thr gts preds h :
  preds = [] \/ gts <> [] ->
  exists h',
    calc_AP_at thr gts preds h
    = Ok ((calc_AP_value thr gts preds, true_positives thr gts preds), h').
Proof.
  intros Hnz. unfold calc_AP_at, calc_AP_value, true_positives.
  set (st0 := add_usage gts).
  set (tr := fst (matching thr st0 preds)).
  set (final := snd (matching thr st0 preds)).
  unfold list_new at 1. unfold bind at 1.
  unfold list_new at 1. unfold bind at 1.
  set (h2 := (h ++ [repeat 0 (length preds)]) ++ [repeat 0 (length preds)]).
  assert (Htp : h2 !! length h = Some ([] ++ repeat 0 (length preds))).
  { unfold h2. rewrite <- app_assoc. by apply list_lookup_middle. }
  assert (Hfp : h2 !! length (h ++ [repeat 0 (length preds)])
                = Some ([] ++ repeat 0 (length preds))).
  { unfold h2. by apply list_lookup_middle. }
  assert (Hne : length h <> length (h ++ [repeat 0 (length preds)])).
  { rewrite length_app. simpl. lia. }
  erewrite bind_ok; cycle 1.
  { apply (match_loop_run thr _ _ Hne preds [] [] st0 0%nat h2 eq_refl Htp Hfp). }
  fold tr final. cbn [app fst snd Nat.add].
  set (h3 := <[length h := tp_flags tr]> (<[_ := fp_flags tr]> h2)).
  assert (Htr : length tr = length preds) by apply matching_trace_length.
  erewrite bind_ok; cycle 1.
  { apply (get_rec_prec_run h3 _ _ (tp_flags tr) (fp_flags tr) final).
    - unfold h3. apply list_lookup_insert_eq. rewrite length_insert.
      by eapply lookup_lt_Some.
    - unfold h3. rewrite list_lookup_insert_ne by done.
      apply list_lookup_insert_eq. by eapply lookup_lt_Some.
    - done.
    - by rewrite tp_flags_length, fp_flags_length.
    - destruct Hnz as [Hp|Hg].
      + left. subst preds. by destruct tr.
      + right. intros Hf. apply Hg.
        apply (f_equal length) in Hf. unfold final in Hf.
        rewrite matching_final_length in Hf. unfold st0 in Hf.
        rewrite add_usage_length in Hf. by destruct gts.
    - apply flags_denominators_ok. }
  cbn [fst snd].
  erewrite bind_ok; cycle 1.
  { eapply voc_ap_run.
    - unfold get_rec_prec_heap. apply list_lookup_middle.
      by rewrite !length_insert.
    - unfold get_rec_prec_heap.
      rewrite lookup_app_r by (rewrite !length_insert; lia).
      rewrite !length_insert.
      by replace (S (length h3) - length h3)%nat with 1%nat by lia.
    - lia.
    - unfold rec_curve, prec_curve.
      rewrite length_map, length_zip_with, !running_length.
      rewrite tp_flags_length, fp_flags_length. lia. }
  cbn [fst snd]. unfold ret. eauto.
Qed.

(** ** Bounds of the area *)

Lemma nth_in_unit p i : Forall in_unit p -> in_unit (nth i p 0).
Proof.
  intros Hp. destruct (nth_lookup_or_length p i 0) as [Hi|Hi].
  - by eapply Forall_lookup_1.
  - rewrite nth_overflow by lia. unfold in_unit. lra.
Qed.

Lemma nondecreasing_nth m k :
  nondecreasing m -> (S k < length m)%nat -> nth k m 0 <= nth (S k) m 0.
Proof.
  intros Hm Hk. apply (Hm k).
  - destruct (nth_lookup_or_length m k 0); [done|lia].
  - destruct (nth_lookup_or_length m (S k) 0); [done|lia].
Qed.

Lemma area_prefix_bound m p (Hm : nondecreasing m) (Hp : Forall in_unit p) :
  forall k, (k < length m)%nat ->
  let s := fold_left Qplus
             (map (fun i => (nth i m 0 - nth (i - 1) m 0) * nth i p 0)
                  (filter (fun i => ~ nth i m 0 == nth (i - 1) m 0) (seq 1 k)))
             0 in
  0 <= s /\ s <= nth k m 0 - nth 0 m 0.
Proof.
  induction k as [|k IH]; intros Hk; cbn zeta.
  - cbn [seq filter map fold_left]. rewrite filter_nil. simpl. lra.
  - rewrite seq_S, filter_app, map_app, fold_left_app.
    destruct IH as [IH0 IH1]; [lia|].
    set (s := fold_left Qplus _ 0) in *.
    pose proof (nondecreasing_nth m k Hm Hk) as Hd.
    pose proof (nth_in_unit p (S k) Hp) as [Hq0 Hq1].
    change (1 + k)%nat with (S k).
    rewrite filter_cons, filter_nil.
    destruct (decide (~ nth (S k) m 0 == nth (S k - 1) m 0)) as [_|_].
    + cbn [map fold_left]. rewrite Nat.sub_succ, Nat.sub_0_r.
      set (a := nth (S k) m 0) in *. set (b := nth k m 0) in *.
      set (q := nth (S k) p 0) in *.
      assert (0 <= (a - b) * q) by (apply Qmult_le_0_compat; lra).
      assert ((a - b) * q <= (a - b) * 1).
      { rewrite !(Qmult_comm (a - b)). apply Qmult_le_compat_r; lra. }
      lra.
    + cbn [map fold_left]. lra.
Qed.

Lemma area_bound m p :
  nondecreasing m -> Forall in_unit p -> m <> [] ->
  0 <= Spec.area m p /\
  Spec.area m p <= nth (length m - 1) m 0 - nth 0 m 0.
Proof.
  intros Hm Hp Hne. unfold Spec.area, Spec.break_points, Qsum.
  apply (area_prefix_bound m p Hm Hp (length m - 1)).
  destruct m; [done|]. simpl. lia.
Qed.

Lemma envelope_in_unit l : Forall in_unit l -> Forall in_unit (Spec.envelope l).
Proof.
  induction 1 as [|x l Hx Hl IH]; [constructor|].
  cbn [Spec.envelope]. destruct (Spec.envelope l) as [|y e].
  - by constructor.
  - constructor; [|done]. apply Forall_cons in IH as [Hy _].
    rewrite <- py_max_Qmax. by destruct (py_max_cases x y) as [[_ ->]|[_ ->]].
Qed.

Lemma mrec_nondecreasing r :
  nondecreasing r -> Forall in_unit r -> nondecreasing (Spec.mrec r).
Proof.
  intros Hr Hu i x y Hx Hy. unfold Spec.mrec in *.
  destruct i as [|i].
  - injection Hx as <-. cbn in Hy.
    apply lookup_snoc_Some in Hy as [[_ Hy]|[_ <-]]; [|lra].
    by apply (Forall_lookup_1 _ _ _ _ Hu Hy).
  - cbn in Hx, Hy.
    apply lookup_snoc_Some in Hy as [[_ Hy]|[Hi <-]].
    + apply lookup_snoc_Some in Hx as [[_ Hx]|[Hi _]].
      * by apply (Hr i).
      * apply lookup_lt_Some in Hy. lia.
    + apply lookup_snoc_Some in Hx as [[_ Hx]|[Hi' _]]; [|lia].
      by apply (Forall_lookup_1 _ _ _ _ Hu Hx).
Qed.

Lemma ap_bound r p :
  nondecreasing r -> Forall in_unit r -> Forall in_unit p ->
  0 <= Spec.ap r p <= 1.
Proof.
  intros Hr Hu Hp. unfold Spec.ap.
  destruct (area_bound (Spec.mrec r) (Spec.envelope (Spec.mprec p))) as [H0 H1].
  - by apply mrec_nondecreasing.
  - apply envelope_in_unit. unfold Spec.mprec.
    constructor; [unfold in_unit; lra|].
    apply Forall_app. split; [done|]. constructor; [unfold in_unit; lra|constructor].
  - done.
  - assert (Hlast : nth (length (Spec.mrec r) - 1) (Spec.mrec r) 0 = 1).
    { unfold Spec.mrec. cbn [length].
      rewrite Nat.sub_succ, Nat.sub_0_r, length_app. cbn [length].
      rewrite Nat.add_1_r. cbn [nth].
      rewrite app_nth2 by lia. by rewrite Nat.sub_diag. }
    rewrite Hlast in H1. cbn [Spec.mrec nth] in H1. lra.
Qed.

(** ** The curves of [calc_AP] *)

Lemma hits_take_le k : forall tr, (hits (take k tr) <= hits tr)%nat.
Proof.
  induction k as [|k IH]; intros [|o tr]; try (unfold hits; simpl; lia).
  change (take (S k) (o :: tr)) with (o :: take k tr).
  destruct o; rewrite ?hits_Some, ?hits_None; specialize (IH tr); lia.
Qed.

Lemma inject_nat_le (a b : nat) :
  (a <= b)%nat -> inject_Z (Z.of_nat a) <= inject_Z (Z.of_nat b).
Proof. intros. rewrite <- Zle_Qle. lia. Qed.

Lemma inject_nat_pos (n : nat) : (0 < n)%nat -> 0 < inject_Z (Z.of_nat n).
Proof. intros. change 0 with (inject_Z 0). rewrite <- Zlt_Qlt. lia. Qed.

Lemma rec_curve_shape tr (n : nat) :
  (hits tr <= n)%nat -> (0 < n)%nat ->
  let rc := map (fun a => a / inject_Z (Z.of_nat n)) (running 0 (tp_flags tr)) in
  Forall in_unit rc /\ nondecreasing rc.
Proof.
  intros Hh Hn rc. pose proof (inject_nat_pos n Hn) as HN. split.
  - apply Forall_lookup. intros i x Hx. unfold rc in Hx.
    apply list_lookup_fmap_Some in Hx as (a & -> & Ha).
    apply running_tp_flags in Ha.
    pose proof (inject_nat_le _ _ (hits_take_le (S i) tr)) as H1.
    pose proof (inject_nat_le _ _ Hh) as H2.
    pose proof (inject_nat_le 0 _ (Nat.le_0_l (hits (take (S i) tr)))) as H0.
    change (inject_Z (Z.of_nat 0)) with 0 in H0.
    split.
    + apply Qle_shift_div_l; [done|]. lra.
    + apply Qle_shift_div_r; [done|]. lra.
  - intros i x y Hx Hy. unfold rc in Hx, Hy.
    apply list_lookup_fmap_Some in Hx as (a & -> & Ha).
    apply list_lookup_fmap_Some in Hy as (b & -> & Hb).
    apply running_tp_flags in Ha. apply running_tp_flags in Hb.
    pose proof (hits_take_le (S i) (take (S (S i)) tr)) as Hle.
    rewrite take_take in Hle.
    replace (S i `min` S (S i))%nat with (S i) in Hle by lia.
    apply inject_nat_le in Hle.
    unfold Qdiv. apply Qmult_le_compat_r; [lra|].
    apply Qlt_le_weak, Qinv_lt_0_compat, HN.
Qed.

Lemma prec_curve_in_unit tr :
  Forall in_unit (prec_curve (tp_flags tr) (fp_flags tr)).
Proof.
  apply Forall_lookup. intros i x Hx. unfold prec_curve in Hx.
  apply lookup_zip_with_Some in Hx as (a & f & -> & Ha & Hf).
  pose proof (flags_denominator tr i a f Ha Hf) as Hsum.
  apply running_tp_flags in Ha. apply running_fp_flags in Hf.
  pose proof (inject_nat_le 0 _ (Nat.le_0_l (hits (take (S i) tr)))) as Ha0.
  pose proof (inject_nat_le 0 _ (Nat.le_0_l (misses (take (S i) tr)))) as Hf0.
  change (inject_Z (Z.of_nat 0)) with 0 in Ha0, Hf0.
  pose proof (inject_nat_pos (S i) (Nat.lt_0_succ i)) as Hpos.
  unfold prec_at. split.
  - apply Qle_shift_div_l; lra.
  - apply Qle_shift_div_r; lra.
Qed.

Lemma calc_AP_value_bound thr gts preds :
  gts <> [] -> 0 <= calc_AP_value thr gts preds <= 1.
Proof.
  intros Hg. unfold calc_AP_value. cbn zeta.
  set (tr := fst (matching thr (add_usage gts) preds)).
  set (final := snd (matching thr (add_usage gts) preds)).
  destruct (rec_curve_shape tr (length final)) as [Hu Hn].
  - unfold tr, final. rewrite matching_final_length. apply hits_le_length.
  - unfold final. rewrite matching_final_length, add_usage_length.
    destruct gts; [done|simpl; lia].
  - apply ap_bound; [exact Hn|exact Hu|apply prec_curve_in_unit].
Qed.

(** * The claims *)

(** ** AP Integrator *)

(** C1.  Given a recall and a precision sequence (two list objects, the
    precision as long as the recall or longer), [voc_ap] computes the AP of the four steps of the
    specification: [mrec] is the recall with 0.0 in front and 1.0 behind,
    [mprec] the precision with 0.0 in front and 0.0 behind, swept from the
    second-to-last index down to 0 with the maximum of each value and its
    successor, and the value returned is the sum over the indices [i >= 1]
    with [mrec[i] <> mrec[i-1]] of [(mrec[i] - mrec[i-1]) * mprec[i]]. *)
Theorem voc_ap_four_steps (h : heap) (rec prec : loc)
    (recall precision : list Q) :
  h !! rec = Some recall -> h !! prec = Some precision -> rec <> prec ->
  (length recall <= length precision)%nat ->
  integrates h rec prec recall precision.
Proof.
  intros Hr Hp Hne Hlen.
  exists (length h), (S (length h)), (voc_ap_heap h rec prec recall precision).
  split; [by apply voc_ap_run|].
  unfold voc_ap_heap. split.
  - apply list_lookup_middle. by rewrite !length_insert.
  - rewrite lookup_app_r by (rewrite !length_insert; lia).
    rewrite !length_insert.
    by replace (S (length h) - length h)%nat with 1%nat by lia.
Qed.

Lemma voc_ap_four_steps_witness :
  integrates [[1 # 2; 1]; [1; 2 # 3]] 0 1 [1 # 2; 1] [1; 2 # 3].
Proof.
  apply (voc_ap_four_steps [[1 # 2; 1]; [1; 2 # 3]] 0 1 [1 # 2; 1] [1; 2 # 3]).
  - reflexivity.
  - reflexivity.
  - lia.
  - simpl. lia.
Defined.

(** C10.  [voc_ap] changes its two list arguments in place: after the call
    the caller's recall list has 0.0 in front and 1.0 at the end, the
    caller's precision list 0.0 in front and 0.0 at the end; the lists
    returned are copies taken after that, so neither curve handed to the
    integrator is left as it was. *)
Theorem voc_ap_mutates_arguments (h : heap) (rec prec : loc) (r p : list Q) :
  h !! rec = Some r -> h !! prec = Some p -> rec <> prec ->
  (length r <= length p)%nat ->
  extends_arguments h rec prec r p.
Proof.
  intros Hr Hp Hne Hlen.
  exists (Spec.ap r p), (length h), (S (length h)), (voc_ap_heap h rec prec r p).
  split; [by apply voc_ap_run|].
  pose proof (lookup_lt_Some _ _ _ Hr). pose proof (lookup_lt_Some _ _ _ Hp).
  assert (Hrec : voc_ap_heap h rec prec r p !! rec = Some (Spec.mrec r)).
  { unfold voc_ap_heap. rewrite lookup_app_l by (rewrite !length_insert; lia).
    rewrite list_lookup_insert_ne by done.
    by apply list_lookup_insert_eq. }
  assert (Hprec : voc_ap_heap h rec prec r p !! prec = Some (Spec.mprec p)).
  { unfold voc_ap_heap. rewrite lookup_app_l by (rewrite !length_insert; lia).
    apply list_lookup_insert_eq. by rewrite length_insert. }
  split; [exact Hrec|]. split; [exact Hprec|].
  split; [apply lookup_ge_None; lia|]. split; [apply lookup_ge_None; lia|].
  split.
  { unfold voc_ap_heap. apply list_lookup_middle. by rewrite !length_insert. }
  split.
  { unfold voc_ap_heap. rewrite lookup_app_r by (rewrite !length_insert; lia).
    rewrite !length_insert.
    by replace (S (length h) - length h)%nat with 1%nat by lia. }
  split.
  - rewrite Hrec, Hr. intros [= E]. apply (f_equal length) in E.
    unfold Spec.mrec in E. cbn [length] in E. rewrite length_app in E. lia.
  - rewrite Hprec, Hp. intros [= E]. apply (f_equal length) in E.
    unfold Spec.mprec in E. cbn [length] in E. rewrite length_app in E. lia.
Qed.

Lemma voc_ap_mutates_arguments_witness :
  extends_arguments [[1 # 2; 1]; [1; 2 # 3]] 0 1 [1 # 2; 1] [1; 2 # 3].
Proof.
  apply (voc_ap_mutates_arguments [[1 # 2; 1]; [1; 2 # 3]] 0 1).
  - reflexivity.
  - reflexivity.
  - lia.
  - simpl. lia.
Defined.

(** ** Box Geometry *)

(** C2 (the code departs from it).  Two well-formed boxes that are apart
    along both axes: [box_iou] returns 1, not 0, since the negative width
    and height of the intersection rectangle multiply to a positive area.
    Apart along one axis only, the value is negative. *)
Theorem box_iou_disjoint_boxes :
  well_formed Examples.box_a /\ well_formed Examples.box_b /\
  well_formed Examples.box_d /\
  disjoint Examples.box_a Examples.box_b /\
  disjoint Examples.box_a Examples.box_d /\
  box_iou Examples.box_a Examples.box_b == 1 /\
  box_iou Examples.box_a Examples.box_d == - (1 # 3).
Proof.
  unfold well_formed, disjoint. cbn. repeat split; lra.
Qed.

(** The consequence in [calc_AP]: a prediction apart from the only
    ground-truth box of its image counts as a true positive. *)
Example calc_AP_matches_disjoint_box :
  exists ap h,
    calc_AP [("x"%string, Examples.box_a)]
            [Pred "x" Examples.box_b (9 # 10)] []
    = Ok ((ap, 1%nat), h) /\ ap == 1.
Proof. do 2 eexists. split; [vm_compute; reflexivity|reflexivity]. Qed.

(** ** Curve Builder *)

Lemma fold_Qplus_shift l : forall c, fold_left Qplus l c == c + Qsum l.
Proof.
  unfold Qsum. induction l as [|x l IH]; intros c; cbn [fold_left].
  - lra.
  - rewrite (IH (c + x)), (IH (0 + x)). lra.
Qed.

Lemma running_cumulative l : forall c i a,
  running c l !! i = Some a -> a == c + Spec.cumulative l i.
Proof.
  unfold Spec.cumulative.
  induction l as [|x l IH]; intros c i a Ha; [done|].
  cbn [running] in Ha. destruct i as [|i].
  - injection Ha as <-. cbn [firstn]. rewrite take_0. unfold Qsum.
    cbn [fold_left]. lra.
  - cbn in Ha. apply IH in Ha. rewrite Ha.
    change (take (S (S i)) (x :: l)) with (x :: take (S i) l).
    unfold Qsum at 2. cbn [fold_left]. rewrite (fold_Qplus_shift _ (0 + x)). lra.
Qed.

(** C8 (as amended).  For two flag lists of equal length whose running
    sums have a non-zero total at every index, and a non-empty ground-truth
    list, [get_rec_prec] returns two sequences of the length of the input
    with [rec[i]] the running true-positive sum over the ground-truth count
    and [prec[i]] that sum over the sum of the two running sums. *)
Theorem get_rec_prec_curves (h : heap) (tp_loc fp_loc : loc) (tp fp : list Q)
    (gt_records : list gt_record) :
  h !! tp_loc = Some tp -> h !! fp_loc = Some fp -> tp_loc <> fp_loc ->
  length tp = length fp ->
  gt_records <> [] ->
  (forall i, (i < length tp)%nat ->
     ~ Spec.cumulative tp i + Spec.cumulative fp i == 0) ->
  builds_curves h tp_loc fp_loc tp fp gt_records.
Proof.
  intros Htp Hfp Hne Hlen Hgt Hden.
  exists (length h), (S (length h)),
    (get_rec_prec_heap h tp_loc fp_loc tp fp gt_records),
    (rec_curve tp gt_records), (prec_curve tp fp).
  split; [|split; [|split; [|split; [|split; [|split]]]]].
  - apply get_rec_prec_run; try done; [lia|by right|].
    intros i a f Ha Hf E.
    assert (Hi : (i < length tp)%nat).
    { apply lookup_lt_Some in Ha. by rewrite running_length in Ha. }
    apply (Hden i Hi).
    apply running_cumulative in Ha. apply running_cumulative in Hf.
    rewrite Ha, Hf in E. lra.
  - unfold get_rec_prec_heap. apply list_lookup_middle. by rewrite !length_insert.
  - unfold get_rec_prec_heap.
    rewrite lookup_app_r by (rewrite !length_insert; lia).
    rewrite !length_insert.
    by replace (S (length h) - length h)%nat with 1%nat by lia.
  - unfold rec_curve. by rewrite length_map, running_length.
  - unfold prec_curve. rewrite length_zip_with, !running_length. lia.
  - intros i x Hx. unfold rec_curve in Hx.
    apply list_lookup_fmap_Some in Hx as (a & -> & Ha).
    apply running_cumulative in Ha. rewrite Ha. by rewrite Qplus_0_l.
  - intros i x Hx. unfold prec_curve in Hx.
    apply lookup_zip_with_Some in Hx as (a & f & -> & Ha & Hf).
    apply running_cumulative in Ha. apply running_cumulative in Hf.
    unfold prec_at. rewrite Ha, Hf, !Qplus_0_l.
    by rewrite (Qplus_comm (Spec.cumulative fp i)).
Qed.

Lemma get_rec_prec_curves_witness :
  builds_curves [[1; 0]; [0; 1]] 0 1 [1; 0] [0; 1] [Examples.gt_a].
Proof.
  apply (get_rec_prec_curves [[1; 0]; [0; 1]] 0 1 [1; 0] [0; 1] [Examples.gt_a]).
  - reflexivity.
  - reflexivity.
  - lia.
  - reflexivity.
  - discriminate.
  - intros [|[|i]] Hi; [vm_compute; discriminate..|simpl in Hi; lia].
Defined.

(** C8 as stated fails: two 0/1 flag lists of equal length and one
    ground-truth record, and the precision of index 0 divides by zero. *)
Lemma get_rec_prec_zero_flags :
  length [0] = length [0] /\ [Examples.gt_a] <> [] /\
  get_rec_prec 0 1 [Examples.gt_a] [[0]; [0]] = Raise ZeroDivisionError.
Proof. split; [reflexivity|]. split; [discriminate|]. reflexivity. Qed.

Lemma loop_result_run thr gts preds h0 :
  let m := matching thr (add_usage gts) preds in
  exists h1,
    loop_result thr gts preds h0 (snd m) (hits (fst m))
      (tp_flags (fst m)) (fp_flags (fst m)) h1 /\
    length h1 = S (S (length h0)).
Proof.
  cbn zeta. unfold loop_result. cbn zeta.
  set (zeros := repeat 0 (length preds)).
  set (h2 := (h0 ++ [zeros]) ++ [zeros]).
  assert (Htp : h2 !! length h0 = Some ([] ++ zeros)).
  { unfold h2. rewrite <- app_assoc. by apply list_lookup_middle. }
  assert (Hfp : h2 !! S (length h0) = Some ([] ++ zeros)).
  { unfold h2. apply list_lookup_middle. rewrite length_app. simpl. lia. }
  eexists. split; [split; [|split]|].
  - apply (match_loop_run thr (length h0) (S (length h0))
             (n_Sn _) preds [] [] (add_usage gts) 0%nat h2 eq_refl Htp Hfp).
  - cbn [app]. apply list_lookup_insert_eq. rewrite length_insert.
    by eapply lookup_lt_Some.
  - cbn [app]. rewrite list_lookup_insert_ne by lia.
    apply list_lookup_insert_eq. by eapply lookup_lt_Some.
  - rewrite !length_insert. unfold h2. rewrite !length_app. simpl. lia.
Qed.

Lemma flags_exactly_one tr i t f :
  tp_flags tr !! i = Some t -> fp_flags tr !! i = Some f ->
  (t = 1 /\ f = 0) \/ (t = 0 /\ f = 1).
Proof.
  unfold tp_flags, fp_flags. rewrite !list_lookup_fmap.
  destruct (tr !! i) as [[r|]|]; cbn; intros Ht Hf; simplify_eq; auto.
Qed.

Lemma flags_denominator_index tr i a f :
  running 0 (tp_flags tr) !! i = Some a ->
  running 0 (fp_flags tr) !! i = Some f ->
  a + f == inject_Z (Z.of_nat i + 1).
Proof.
  intros Ha Hf. rewrite (flags_denominator tr i a f Ha Hf).
  by rewrite Nat2Z.inj_succ, <- Z.add_1_r.
Qed.

Lemma flags_precision tr i a x :
  running 0 (tp_flags tr) !! i = Some a ->
  prec_curve (tp_flags tr) (fp_flags tr) !! i = Some x ->
  x == a / inject_Z (Z.of_nat i + 1).
Proof.
  intros Ha Hx. unfold prec_curve in Hx.
  apply lookup_zip_with_Some in Hx as (a' & f & -> & Ha' & Hf).
  rewrite Ha in Ha'. injection Ha' as <-.
  pose proof (flags_denominator_index tr i a f Ha Hf) as Hd.
  unfold prec_at. rewrite (Qplus_comm f a), Hd. reflexivity.
Qed.

(** C9.  The flag lists that [calc_AP]'s matching loop hands to
    [get_rec_prec] set exactly one flag per prediction, so after the
    running sums of lines 397-405 the caller's two lists, which line 413
    divides by, satisfy [cumulative_tp[i] + cumulative_fp[i] = i + 1] at
    every index: the precision loop never divides by zero, whatever the
    number of predictions, the precision at [i] is
    [cumulative_tp[i] / (i + 1)], and with no prediction both curves are
    empty. *)
Theorem precision_never_divides_by_zero (iou_threshold : Q)
    (gt_records : list (string * box)) (pred_records : list pred_record)
    (h0 : heap) :
  precision_is_safe iou_threshold gt_records pred_records h0.
Proof.
  destruct (loop_result_run iou_threshold gt_records pred_records h0)
    as (h1 & Hloop & Hlen).
  set (tr := fst (matching iou_threshold (add_usage gt_records) pred_records))
    in *.
  assert (Htr : length tr = length pred_records)
    by apply matching_trace_length.
  do 5 eexists. split; [exact Hloop|].
  destruct Hloop as (_ & Htp & Hfp).
  split; [by rewrite tp_flags_length|]. split; [by rewrite fp_flags_length|].
  split; [apply flags_exactly_one|].
  split; [|split].
  - exists (<[S (length h0) := running 0 (fp_flags tr)]> h1),
      (<[length h0 := running 0 (tp_flags tr)]>
         (<[S (length h0) := running 0 (fp_flags tr)]> h1)),
      (running 0 (tp_flags tr)), (running 0 (fp_flags tr)).
    do 2 eexists.
    split; [by apply cumsum_loop_run|].
    split; [apply cumsum_loop_run; by rewrite list_lookup_insert_ne by lia|].
    split; [apply list_lookup_insert_eq; rewrite length_insert; lia|].
    split.
    { rewrite list_lookup_insert_ne by lia.
      apply list_lookup_insert_eq. lia. }
    split; [by rewrite running_length, tp_flags_length|].
    split; [by rewrite running_length, fp_flags_length|].
    split; [apply flags_denominator_index|].
    eapply prec_loop_run.
    + apply list_lookup_insert_eq. rewrite length_insert. lia.
    + rewrite list_lookup_insert_ne by lia.
      apply list_lookup_insert_eq. lia.
    + rewrite !running_length, tp_flags_length, fp_flags_length. lia.
    + apply flags_denominators_ok.
  - intros records Hrec.
    exists (length h1), (S (length h1)),
      (get_rec_prec_heap h1 (length h0) (S (length h0))
         (tp_flags tr) (fp_flags tr) records),
      (running 0 (tp_flags tr)), (running 0 (fp_flags tr)),
      (prec_curve (tp_flags tr) (fp_flags tr)).
    split.
    { apply (get_rec_prec_run h1 _ _ (tp_flags tr) (fp_flags tr)).
      - exact Htp.
      - exact Hfp.
      - lia.
      - rewrite tp_flags_length, fp_flags_length. lia.
      - destruct Hrec as [?|Hp]; [by right|left].
        rewrite Hp in Htr. by destruct tr.
      - apply flags_denominators_ok. }
    unfold get_rec_prec_heap.
    split.
    { rewrite lookup_app_l by (rewrite !length_insert; lia).
      apply list_lookup_insert_eq. rewrite length_insert. lia. }
    split.
    { rewrite lookup_app_l by (rewrite !length_insert; lia).
      rewrite list_lookup_insert_ne by lia.
      apply list_lookup_insert_eq. lia. }
    split.
    { rewrite lookup_app_r by (rewrite !length_insert; lia).
      rewrite !length_insert.
      by replace (S (length h1) - length h1)%nat with 1%nat by lia. }
    split; [by rewrite running_length, tp_flags_length|].
    split; [by rewrite running_length, fp_flags_length|].
    split.
    { unfold prec_curve.
      rewrite length_zip_with, !running_length, tp_flags_length,
        fp_flags_length. lia. }
    split; [apply flags_denominator_index|apply flags_precision].
  - intros -> records. destruct tr; [|done].
    exists (length h1), (S (length h1)),
      (get_rec_prec_heap h1 (length h0) (S (length h0)) [] [] records).
    split; [|split].
    + apply (get_rec_prec_run h1 _ _ [] []);
        [exact Htp|exact Hfp|lia|done|by left|done].
    + unfold get_rec_prec_heap. apply list_lookup_middle.
      by rewrite !length_insert.
    + unfold get_rec_prec_heap.
      rewrite lookup_app_r by (rewrite !length_insert; lia).
      rewrite !length_insert.
      by replace (S (length h1) - length h1)%nat with 1%nat by lia.
Qed.

(** ** Greedy Matcher *)

Lemma positive_match_spec p gts thr :
  0 < thr -> positive_match p gts thr = spec_match p gts thr.
Proof.
  intros Ht. unfold positive_match, spec_match.
  destruct (best_candidate p gts) as [[i b]|]; [|done].
  destruct (Qle_bool thr b) eqn:E; [|by rewrite andb_false_r].
  apply Qle_bool_iff in E. rewrite (proj2 (Qltb_lt 0 b)) by lra. done.
Qed.

(** C4 (as amended).  [match_gt_box] returns the index of the candidate
    with the greatest IoU among the [unused] candidates of the
    prediction's image, the first-seen on ties, exactly when that IoU is
    at least the threshold and greater than 0, and -1 otherwise; for a
    positive threshold, such as the default 0.5, that is the rule of the
    specification. *)
Theorem match_gt_box_best (p : pred_record) (gts : list gt_record) (thr : Q) :
  match best_candidate p gts with
  | Some (i, b) =>
      is_best p gts i b /\
      match_gt_box p gts thr
      = if Qltb 0 b && Qle_bool thr b then Z.of_nat i else (-1)%Z
  | None =>
      (forall j g, gts !! j = Some g -> eligible p g = false) /\
      match_gt_box p gts thr = (-1)%Z
  end /\
  (0 < thr -> match_gt_box p gts thr = spec_match p gts thr).
Proof.
  split.
  - pose proof (best_candidate_inv p gts) as Hinv.
    pose proof (match_gt_box_positive p gts thr) as Hm.
    unfold positive_match in Hm.
    destruct (best_candidate p gts) as [[i b]|]; by split.
  - intros Ht. rewrite match_gt_box_positive. by apply positive_match_spec.
Qed.

(** C4 as stated fails at threshold 0: the only candidate is eligible and
    its IoU, 0, reaches the threshold, yet [match_gt_box] returns -1. *)
Lemma match_gt_box_zero_threshold :
  is_best MatchExamples.p [MatchExamples.g] 0
    (iou_of MatchExamples.p MatchExamples.g) /\
  iou_of MatchExamples.p MatchExamples.g == 0 /\
  Qle_bool 0 (iou_of MatchExamples.p MatchExamples.g) = true /\
  spec_match MatchExamples.p [MatchExamples.g] 0 = 0%Z /\
  match_gt_box MatchExamples.p [MatchExamples.g] 0 = (-1)%Z.
Proof.
  split; [|by vm_compute].
  exists MatchExamples.g. split; [done|]. split; [done|]. split; [done|]. split.
  - intros [|j] g' Hg' _; [|done]. injection Hg' as <-. apply Qle_refl.
  - intros j g' Hj. lia.
Qed.

Lemma matching_take thr preds : forall k st,
  fst (matching thr st (take k preds)) = take k (fst (matching thr st preds)).
Proof.
  induction preds as [|p preds IH]; intros k st.
  - rewrite take_nil. cbn [matching fst]. by rewrite take_nil.
  - destruct k as [|k]; [by rewrite !take_0|].
    change (take (S k) (p :: preds)) with (p :: take k preds).
    rewrite !matching_cons.
    destruct (assigned thr st p); cbn [fst]; by rewrite IH.
Qed.

Lemma matching_app thr l1 : forall l2 st,
  matching thr st (l1 ++ l2)
  = (fst (matching thr st l1) ++ fst (matching thr (snd (matching thr st l1)) l2),
     snd (matching thr (snd (matching thr st l1)) l2)).
Proof.
  induction l1 as [|p l1 IH]; intros l2 st.
  - cbn [app matching fst snd]. by destruct (matching thr st l2).
  - change ((p :: l1) ++ l2) with (p :: (l1 ++ l2)).
    rewrite !matching_cons.
    destruct (assigned thr st p); cbn [fst snd]; by rewrite IH.
Qed.

(** The record a prediction is matched to is the one [assign] finds in
    the records left by the predictions before it. *)
Lemma matching_trace_lookup thr preds st k o :
  fst (matching thr st preds) !! k = Some o ->
  exists p, preds !! k = Some p /\
            assigned thr (snd (matching thr st (take k preds))) p = o.
Proof.
  intros Hk.
  assert (Hlt : (k < length preds)%nat).
  { apply lookup_lt_Some in Hk. by rewrite matching_trace_length in Hk. }
  destruct (lookup_lt_is_Some_2 preds k Hlt) as [p Hp].
  exists p. split; [done|].
  rewrite <- (take_drop_middle preds k p Hp) in Hk.
  rewrite matching_app in Hk. cbn [fst] in Hk.
  rewrite lookup_app_r in Hk; rewrite matching_trace_length, length_take in *;
    [|lia].
  replace (k - k `min` length preds)%nat with 0%nat in Hk by lia.
  rewrite matching_cons in Hk.
  destruct (assigned thr _ p); cbn in Hk; congruence.
Qed.

(** C5.  During one class's loop in [calc_AP] every ground-truth record
    starts [unused]; its flag becomes [used] when a prediction is matched
    to it, at which moment it is [unused], and never changes otherwise;
    no record is matched to more than one prediction. *)
Theorem usage_flag_flips_once (iou_threshold : Q)
    (gt_records : list (string * box)) (pred_records : list pred_record)
    (h0 : heap) :
  usage_discipline iou_threshold gt_records pred_records h0.
Proof.
  unfold usage_discipline. cbn zeta.
  set (start := add_usage gt_records).
  set (trace := fst (matching iou_threshold start pred_records)).
  assert (Htraj : forall k r g, start !! r = Some g ->
    snd (matching iou_threshold start (take k pred_records)) !! r
    = Some (if decide (Some r ∈ take k trace) then used_copy g else g)).
  { intros k r g Hg.
    destruct (matching_inv iou_threshold (take k pred_records) start)
      as (Hfin & _).
    rewrite (Hfin r g Hg). unfold trace. by rewrite matching_take. }
  assert (Hwhen : forall k r, trace !! k = Some (Some r) ->
    exists g, snd (matching iou_threshold start (take k pred_records)) !! r
              = Some g /\ gt_usage g = "unused"%string).
  { intros k r Hk.
    apply matching_trace_lookup in Hk as (p & _ & Ha).
    apply assigned_Some in Ha as (g & Hg & Hu & _). eauto. }
  split; [|split; [|split; [|split]]].
  - intros k.
    destruct (loop_result_run iou_threshold gt_records (take k pred_records) h0)
      as (h1 & Hloop & _).
    cbn zeta in Hloop. rewrite matching_take in Hloop. eauto.
  - unfold start, add_usage. apply Forall_forall.
    intros g (x & -> & _)%list_elem_of_fmap. done.
  - exact Htraj.
  - exact Hwhen.
  - assert (Hlt : forall k k' r, (k < k')%nat ->
      trace !! k = Some (Some r) -> trace !! k' = Some (Some r) -> False).
    { intros k k' r Hlt Hk Hk'.
      destruct (Hwhen k' r Hk') as (g & Hg & Hu).
      assert (r < length start)%nat as Hr.
      { apply lookup_lt_Some in Hg.
        by rewrite matching_final_length in Hg. }
      destruct (lookup_lt_is_Some_2 start r Hr) as [g0 Hg0].
      rewrite (Htraj k' r g0 Hg0) in Hg.
      rewrite decide_True in Hg; cycle 1.
      { apply list_elem_of_lookup. exists k.
        rewrite lookup_take_lt by done. done. }
      injection Hg as <-. done. }
    intros k k' r Hk Hk'.
    destruct (Nat.lt_trichotomy k k') as [?|[?|?]]; [|done|]; exfalso; eauto.
Qed.

(** ** Pipeline *)

(** C6.  For a class with at least one ground-truth record and any list of
    predictions, the matching, [get_rec_prec] and [voc_ap] of [calc_AP]
    return, and the AP lies in the closed interval [0, 1]; the boxes need
    not even be well-formed. *)
Theorem calc_AP_in_unit_interval (gt_records : list (string * box))
    (pred_records : list pred_record) (h : heap) :
  gt_records <> [] ->
  ap_in_unit_interval gt_records pred_records h.
Proof.
  intros Hg. unfold ap_in_unit_interval, calc_AP.
  destruct (calc_AP_at_run (1 # 2) gt_records pred_records h) as [h' Hrun];
    [by right|].
  exists (calc_AP_value (1 # 2) gt_records pred_records),
    (true_positives (1 # 2) gt_records pred_records), h'.
  split; [exact Hrun|]. by apply calc_AP_value_bound.
Qed.

Lemma calc_AP_in_unit_interval_witness :
  ap_in_unit_interval
    [("x"%string, Examples.box_a); ("x"%string, Examples.box_b)]
    [Pred "x" Examples.box_b (9 # 10); Pred "y" Examples.box_a (8 # 10);
     Pred "x" Examples.box_c (7 # 10)] [].
Proof.
  apply (calc_AP_in_unit_interval
           [("x"%string, Examples.box_a); ("x"%string, Examples.box_b)]).
  discriminate.
Defined.

Lemma calc_AP_at_count thr gts preds h r h' :
  calc_AP_at thr gts preds h = Ok (r, h') ->
  snd r = true_positives thr gts preds.
Proof.
  unfold calc_AP_at. unfold list_new at 1. unfold bind at 1.
  unfold list_new at 1. unfold bind at 1.
  destruct (loop_result_run thr gts preds h) as (h1 & (Hloop & _) & _).
  cbn zeta in Hloop.
  rewrite length_app. cbn [length]. rewrite Nat.add_1_r.
  rewrite (bind_ok _ _ _ _ _ Hloop). cbn [fst snd].
  intros (rp & h2 & _ & H2)%bind_inv.
  apply bind_inv in H2 as (am & h3 & _ & H3).
  unfold ret in H3. by injection H3 as <- _.
Qed.

(** C7.  With the ground-truth records and the score-ordered predictions
    of a class fixed, a higher [iou_threshold] in the matching loop gives at
    most as many true positives. *)
Theorem threshold_monotone (t1 t2 : Q) (gt_records : list (string * box))
    (pred_records : list pred_record) :
  t1 <= t2 ->
  fewer_true_positives t1 t2 gt_records pred_records.
Proof.
  intros Ht. pose proof (true_positives_mono t1 t2 gt_records pred_records Ht)
    as Hmono.
  split.
  - intros h0.
    destruct (loop_result_run t1 gt_records pred_records h0) as (h1 & H1 & _).
    destruct (loop_result_run t2 gt_records pred_records h0) as (h2 & H2 & _).
    do 10 eexists. split; [exact H1|]. split; [exact H2|]. exact Hmono.
  - intros h r1 h1 r2 h2 H1 H2.
    apply calc_AP_at_count in H1, H2. by rewrite H1, H2.
Qed.

Lemma threshold_monotone_witness :
  fewer_true_positives (1 # 2) (3 # 4)
    [("x"%string, Examples.box_a)]
    [Pred "x" (Box 0 0 10 15) (9 # 10); Pred "x" Examples.box_a (8 # 10)].
Proof.
  apply (threshold_monotone (1 # 2) (3 # 4)).
  vm_compute. discriminate.
Defined.

(** The perfect-detector scenario of the specification: both predictions
    are true positives and the AP is 1. *)
Example perfect_detector :
  exists ap h,
    calc_AP [("x"%string, Examples.box_a); ("x"%string, Examples.box_b)]
            [Pred "x" Examples.box_a (9 # 10); Pred "x" Examples.box_b (8 # 10)]
            []
    = Ok ((ap, 2%nat), h) /\ ap == 1.
Proof. do 2 eexists. split; [vm_compute; reflexivity|reflexivity]. Qed.

(** ** Aggregator *)

(** A class with ground truth and without predictions: AP 0, and no call
    of [calc_AP] (the heap is left as it is). *)
Lemma class_body_no_predictions gt pred APs counts class_name gt_records h :
  Dict.get gt class_name = Some gt_records ->
  Dict.get pred class_name = None ->
  class_body gt pred (APs, counts) class_name h
  = Ok ((Dict.set APs class_name 0, counts), h).
Proof. intros Hg Hp. unfold class_body. by rewrite Hg, Hp. Qed.

(** The 0 of such a class is part of the mean: one class of AP 1 and one
    without predictions give a mAP of 50. *)
Example compute_mAP_counts_zero_AP :
  exists h,
    compute_mAP ClassExamples.class_names ClassExamples.gt_both
      ClassExamples.car_predicted [] = Ok (Some (100 # 2), h).
Proof. eexists. vm_compute. reflexivity. Qed.

(** C3 (the code departs from it).  A class of the vocabulary without
    predictions and without ground-truth boxes: the lookup of line 626
    raises [KeyError] before the test of line 628, so the class gets no AP
    of 0 and no mAP is computed. *)
Theorem compute_mAP_class_without_ground_truth :
  Dict.get ClassExamples.no_predictions "dog" = None /\
  compute_mAP ClassExamples.class_names ClassExamples.gt_car_only
    ClassExamples.no_predictions [] = Raise KeyError.
Proof. split; reflexivity. Qed.

(** * Further properties *)

(** ** [box_iou] *)

Lemma py_max_self a : py_max a a = a.
Proof. unfold py_max. by destruct (Qltb a a). Qed.

Lemma py_min_self a : py_min a a = a.
Proof. unfold py_min. by destruct (Qltb a a). Qed.

Lemma py_min_cases a b : (b < a /\ py_min a b = b) \/ (a <= b /\ py_min a b = a).
Proof.
  unfold py_min. destruct (Qltb b a) eqn:E.
  - left. split; [by apply Qltb_lt|done].
  - right. split; [by apply Qltb_ge|done].
Qed.

Lemma box_iou_unfold a b :
  let w := py_min (xmax a) (xmax b) - py_max (xmin a) (xmin b) in
  let h := py_min (ymax a) (ymax b) - py_max (ymin a) (ymin b) in
  let u := box_area a + box_area b - w * h in
  box_iou a b = if Qeq_bool u 0 then 0 else w * h / u.
Proof. reflexivity. Qed.

(** X1.  A box against itself: IoU 1, unless its area is zero, when the
    union is zero and line 281 returns 0. *)
Theorem box_iou_identical (b : box) :
  (box_area b == 0 -> box_iou b b = 0) /\
  (~ box_area b == 0 -> box_iou b b == 1).
Proof.
  rewrite box_iou_unfold. cbn zeta.
  rewrite !py_max_self, !py_min_self. fold (box_area b).
  destruct (Qeq_bool (box_area b + box_area b - box_area b) 0) eqn:E.
  - apply Qeq_bool_iff in E. split; [done|]. intros Hn. exfalso. apply Hn. lra.
  - split.
    + intros Hz. apply Qeq_bool_neq in E. exfalso. apply E. lra.
    + intros Hn. field. lra.
Qed.

(** X2.  A box inside another of non-zero area: the IoU is the ratio of
    the two areas. *)
Theorem box_iou_inside (a b : box) :
  inside a b -> ~ box_area b == 0 ->
  box_iou a b == box_area a / box_area b.
Proof.
  intros (Hx0 & Hy0 & Hx1 & Hy1) Hb. rewrite box_iou_unfold. cbn zeta.
  destruct (py_max_cases (xmin a) (xmin b)) as [[? _]|[_ ->]]; [lra|].
  destruct (py_max_cases (ymin a) (ymin b)) as [[? _]|[_ ->]]; [lra|].
  destruct (py_min_cases (xmax a) (xmax b)) as [[? _]|[_ ->]]; [lra|].
  destruct (py_min_cases (ymax a) (ymax b)) as [[? _]|[_ ->]]; [lra|].
  fold (box_area a).
  destruct (Qeq_bool (box_area a + box_area b - box_area a) 0) eqn:E.
  - apply Qeq_bool_iff in E. exfalso. apply Hb. lra.
  - apply Qeq_bool_neq in E.
    assert (Hu : box_area a + box_area b - box_area a == box_area b) by lra.
    by rewrite Hu.
Qed.

Lemma box_iou_inside_witness :
  box_iou (Box 2 2 4 5) Examples.box_a
  == box_area (Box 2 2 4 5) / box_area Examples.box_a.
Proof.
  apply (box_iou_inside (Box 2 2 4 5) Examples.box_a).
  - unfold inside. cbn. repeat split; lra.
  - vm_compute. discriminate.
Defined.

Lemma py_max_comm a b : py_max a b == py_max b a.
Proof.
  destruct (py_max_cases a b) as [[? ->]|[? ->]];
    destruct (py_max_cases b a) as [[? ->]|[? ->]]; lra.
Qed.

Lemma py_min_comm a b : py_min a b == py_min b a.
Proof.
  destruct (py_min_cases a b) as [[? ->]|[? ->]];
    destruct (py_min_cases b a) as [[? ->]|[? ->]]; lra.
Qed.

Lemma if_Qeq_bool_proper u v x y :
  u == v -> x == y ->
  (if Qeq_bool u 0 then 0 else x) == (if Qeq_bool v 0 then 0 else y).
Proof.
  intros Huv Hxy.
  destruct (Qeq_bool u 0) eqn:Eu; destruct (Qeq_bool v 0) eqn:Ev; try done.
  - apply Qeq_bool_iff in Eu. apply Qeq_bool_neq in Ev. exfalso. apply Ev. lra.
  - apply Qeq_bool_iff in Ev. apply Qeq_bool_neq in Eu. exfalso. apply Eu. lra.
Qed.

(** X3.  [box_iou] does not depend on which box is the prediction. *)
Theorem box_iou_symmetric (a b : box) : box_iou a b == box_iou b a.
Proof.
  rewrite !box_iou_unfold. cbn zeta.
  pose proof (py_max_comm (xmin a) (xmin b)) as H1.
  pose proof (py_max_comm (ymin a) (ymin b)) as H2.
  pose proof (py_min_comm (xmax a) (xmax b)) as H3.
  pose proof (py_min_comm (ymax a) (ymax b)) as H4.
  apply if_Qeq_bool_proper.
  - rewrite H1, H2, H3, H4. lra.
  - rewrite H1, H2, H3, H4.
    by rewrite (Qplus_comm (box_area a) (box_area b)).
Qed.

(** X4.  For two well-formed boxes that meet (overlap or touch) the value
    of [box_iou] is a ratio in [0, 1]. *)
Theorem box_iou_in_unit (a b : box) :
  well_formed a -> well_formed b -> meet a b ->
  0 <= box_iou a b <= 1.
Proof.
  intros [Ha1 Ha2] [Hb1 Hb2] (Hm1 & Hm2 & Hm3 & Hm4).
  rewrite box_iou_unfold. cbn zeta. unfold box_area.
  set (w := py_min (xmax a) (xmax b) - py_max (xmin a) (xmin b)).
  set (h := py_min (ymax a) (ymax b) - py_max (ymin a) (ymin b)).
  set (wa := xmax a - xmin a). set (ha := ymax a - ymin a).
  set (wb := xmax b - xmin b). set (hb := ymax b - ymin b).
  assert (Hw : 0 <= w /\ w <= wa /\ w <= wb).
  { unfold w, wa, wb.
    destruct (py_max_cases (xmin a) (xmin b)) as [[? ->]|[? ->]];
      destruct (py_min_cases (xmax a) (xmax b)) as [[? ->]|[? ->]];
      repeat split; lra. }
  assert (Hh : 0 <= h /\ h <= ha /\ h <= hb).
  { unfold h, ha, hb.
    destruct (py_max_cases (ymin a) (ymin b)) as [[? ->]|[? ->]];
      destruct (py_min_cases (ymax a) (ymax b)) as [[? ->]|[? ->]];
      repeat split; lra. }
  destruct Hw as (Hw0 & Hwa & Hwb). destruct Hh as (Hh0 & Hha & Hhb).
  assert (HI : 0 <= w * h) by (apply Qmult_le_0_compat; lra).
  assert (HA : w * h <= wa * ha).
  { apply Qle_trans with (wa * h); [apply Qmult_le_compat_r; lra|].
    rewrite !(Qmult_comm wa). apply Qmult_le_compat_r; lra. }
  assert (HB : 0 <= wb * hb - w * h).
  { assert (w * h <= wb * hb); [|lra].
    apply Qle_trans with (wb * h); [apply Qmult_le_compat_r; lra|].
    rewrite !(Qmult_comm wb). apply Qmult_le_compat_r; lra. }
  destruct (Qeq_bool (wa * ha + wb * hb - w * h) 0) eqn:E; [lra|].
  apply Qeq_bool_neq in E.
  assert (Hpos : 0 < wa * ha + wb * hb - w * h).
  { apply Qnot_le_lt. intros Hle. apply E. lra. }
  split.
  - apply Qle_shift_div_l; lra.
  - apply Qle_shift_div_r; lra.
Qed.

Lemma box_iou_in_unit_witness :
  0 <= box_iou Examples.box_a (Box 5 5 15 15) <= 1.
Proof.
  apply (box_iou_in_unit Examples.box_a (Box 5 5 15 15)).
  - unfold well_formed. cbn. lra.
  - unfold well_formed. cbn. lra.
  - unfold meet. cbn. lra.
Defined.

(** ** [match_gt_box]: range of the result *)

(** X5.  [match_gt_box] returns -1 or a valid index into the candidates;
    the candidate at that index is [unused], of the prediction's image,
    and its IoU is positive and at least the threshold. *)
Theorem match_gt_box_in_range (p : pred_record) (gts : list gt_record)
    (thr : Q) :
  match_result_ok p gts thr (match_gt_box p gts thr).
Proof.
  rewrite match_gt_box_positive. unfold positive_match, match_result_ok.
  pose proof (best_candidate_inv p gts) as Hinv.
  destruct (best_candidate p gts) as [[i b]|]; [|by left].
  destruct (Qltb 0 b && Qle_bool thr b) eqn:E; [|by left].
  apply andb_true_iff in E as [Hpos Hthr].
  apply Qltb_lt in Hpos. apply Qle_bool_iff in Hthr.
  destruct Hinv as (g & Hg & He & Hb & _). subst b.
  apply eligible_unused in He as [Hu Him].
  right. exists i, g. done.
Qed.

(** ** [voc_ap]: the envelope *)

Lemma envelope_nonincreasing l : forall i x y,
  Spec.envelope l !! i = Some x -> Spec.envelope l !! S i = Some y -> y <= x.
Proof.
  induction l as [|a l IH]; intros i x y Hx Hy; [done|].
  cbn [Spec.envelope] in Hx, Hy.
  destruct (Spec.envelope l) as [|b e] eqn:Ee.
  - by destruct i.
  - destruct i as [|i].
    + cbn in Hx, Hy. injection Hx as <-. injection Hy as <-.
      apply Q.le_max_r.
    + cbn in Hx, Hy. by apply (IH i).
Qed.

Lemma envelope_above l : forall i x,
  l !! i = Some x -> exists y, Spec.envelope l !! i = Some y /\ x <= y.
Proof.
  induction l as [|a l IH]; intros i x Hx; [done|].
  cbn [Spec.envelope].
  destruct (Spec.envelope l) as [|b e] eqn:Ee.
  - apply (f_equal length) in Ee. rewrite envelope_length in Ee.
    destruct l; [|done]. destruct i; [|done].
    injection Hx as <-. exists a. split; [done|apply Qle_refl].
  - destruct i as [|i].
    + injection Hx as <-. eexists. split; [done|]. apply Q.le_max_l.
    + cbn in Hx. cbn. by apply IH.
Qed.

(** X6.  The precision curve returned by [voc_ap] is monotonically
    decreasing, as the comment of line 343 says: no value is below its
    successor, and every value is at least the padded precision at its
    index. *)
Theorem voc_ap_envelope_decreasing (h : heap) (rec prec : loc)
    (r p : list Q) :
  h !! rec = Some r -> h !! prec = Some p -> rec <> prec ->
  (length r <= length p)%nat ->
  returns_envelope h rec prec p.
Proof.
  intros Hr Hp Hne Hlen.
  exists (Spec.ap r p), (length h), (S (length h)),
    (voc_ap_heap h rec prec r p), (Spec.envelope (Spec.mprec p)).
  split; [by apply voc_ap_run|]. split; [|split; [|split]].
  - unfold voc_ap_heap. rewrite lookup_app_r by (rewrite !length_insert; lia).
    rewrite !length_insert.
    by replace (S (length h) - length h)%nat with 1%nat by lia.
  - rewrite envelope_length. unfold Spec.mprec. cbn [length].
    rewrite length_app. simpl. lia.
  - apply envelope_nonincreasing.
  - apply envelope_above.
Qed.

Lemma voc_ap_envelope_decreasing_witness :
  returns_envelope [[1 # 2; 1]; [1 # 2; 2 # 3]] 0 1 [1 # 2; 2 # 3].
Proof.
  apply (voc_ap_envelope_decreasing [[1 # 2; 1]; [1 # 2; 2 # 3]] 0 1
           [1 # 2; 1] [1 # 2; 2 # 3]).
  - reflexivity.
  - reflexivity.
  - lia.
  - simpl. lia.
Defined.

(** ** [get_rec_prec]: effect on the arguments, errors, shape of recall *)

Lemma cumulative_denominators tp fp :
  (forall i, (i < length tp)%nat ->
     ~ Spec.cumulative tp i + Spec.cumulative fp i == 0) ->
  denominators_ok tp fp.
Proof.
  intros Hden i a f Ha Hf E.
  assert (Hi : (i < length tp)%nat).
  { apply lookup_lt_Some in Ha. by rewrite running_length in Ha. }
  apply (Hden i Hi).
  apply running_cumulative in Ha. apply running_cumulative in Hf.
  rewrite Ha, Hf in E. lra.
Qed.

(** X7.  [get_rec_prec] overwrites its two flag lists: after the call the
    caller's [true_positive] and [false_positive] hold the running sums of
    the flags, and [rec], [prec] are new lists. *)
Theorem get_rec_prec_accumulates (h : heap) (tp_loc fp_loc : loc)
    (tp fp : list Q) (gt_records : list gt_record) :
  h !! tp_loc = Some tp -> h !! fp_loc = Some fp -> tp_loc <> fp_loc ->
  (length tp <= length fp)%nat ->
  gt_records <> [] ->
  (forall i, (i < length tp)%nat ->
     ~ Spec.cumulative tp i + Spec.cumulative fp i == 0) ->
  accumulates_flags h tp_loc fp_loc tp fp gt_records.
Proof.
  intros Htp Hfp Hne Hlen Hgt Hden.
  pose proof (lookup_lt_Some _ _ _ Htp). pose proof (lookup_lt_Some _ _ _ Hfp).
  exists (length h), (S (length h)),
    (get_rec_prec_heap h tp_loc fp_loc tp fp gt_records),
    (running 0 tp), (running 0 fp).
  split.
  { apply get_rec_prec_run; try done; [by right|].
    by apply cumulative_denominators. }
  unfold get_rec_prec_heap.
  split.
  { rewrite lookup_app_l by (rewrite !length_insert; lia).
    apply list_lookup_insert_eq. by rewrite length_insert. }
  split.
  { rewrite lookup_app_l by (rewrite !length_insert; lia).
    rewrite list_lookup_insert_ne by done. by apply list_lookup_insert_eq. }
  split; [apply running_length|]. split; [apply running_length|].
  split.
  { intros i x Hx. apply running_cumulative in Hx. by rewrite Hx, Qplus_0_l. }
  split.
  { intros i x Hx. apply running_cumulative in Hx. by rewrite Hx, Qplus_0_l. }
  split; [apply lookup_ge_None; lia|]. split; [apply lookup_ge_None; lia|].
  lia.
Qed.

Lemma get_rec_prec_accumulates_witness :
  accumulates_flags [[1; 0; 1]; [0; 1; 0]] 0 1 [1; 0; 1] [0; 1; 0]
    [Examples.gt_a].
Proof.
  apply (get_rec_prec_accumulates [[1; 0; 1]; [0; 1; 0]] 0 1
           [1; 0; 1] [0; 1; 0] [Examples.gt_a]).
  - reflexivity.
  - reflexivity.
  - lia.
  - simpl. lia.
  - discriminate.
  - intros [|[|[|i]]] Hi; [vm_compute; discriminate..|simpl in Hi; lia].
Defined.

Lemma bind_raise {A B} (m : M A) (k : A -> M B) h e :
  m h = Raise e -> bind m k h = Raise e.
Proof. unfold bind. by intros ->. Qed.

Lemma py_div_raise a b h : b == 0 -> py_div a b h = Raise ZeroDivisionError.
Proof. intros Hb. unfold py_div. by rewrite (proj2 (Qeq_bool_iff _ _) Hb). Qed.

Lemma list_get_raise h l v i :
  h !! l = Some v -> v !! i = None -> list_get l i h = Raise IndexError.
Proof.
  intros Hl Hi. unfold list_get.
  rewrite (bind_ok _ _ _ _ _ (list_read_ok h l v Hl)). by rewrite Hi.
Qed.

Lemma rec_loop_raise h tp v :
  h !! tp = Some v -> v <> [] ->
  rec_loop tp [] h = Raise ZeroDivisionError.
Proof.
  intros Htp Hv. unfold rec_loop.
  run_with list_copy_ok.
  run_with list_len_ok.
  destruct v as [|x v]; [done|].
  unfold range. cbn [length Nat.sub seq for_each].
  apply bind_raise. apply bind_raise.
  erewrite bind_ok; [|eapply list_get_ok; [heap_lookup|reflexivity]].
  apply bind_raise. by apply py_div_raise.
Qed.

Lemma get_rec_prec_raise_no_gt (h : heap) (tp_loc fp_loc : loc)
    (tp fp : list Q) :
  h !! tp_loc = Some tp -> h !! fp_loc = Some fp -> tp_loc <> fp_loc ->
  tp <> [] ->
  get_rec_prec tp_loc fp_loc [] h = Raise ZeroDivisionError.
Proof.
  intros Htp Hfp Hne Hnil. unfold get_rec_prec.
  run_with cumsum_loop_run.
  run_with cumsum_loop_run.
  apply bind_raise. eapply rec_loop_raise.
  - heap_lookup.
  - by destruct tp.
Qed.

(** X8.  With an empty ground-truth list and at least one flag,
    [get_rec_prec] raises [ZeroDivisionError]: the recall of line 409
    divides by [len(gt_records)]. *)
Theorem get_rec_prec_no_ground_truth (h : heap) (tp_loc fp_loc : loc)
    (tp fp : list Q) :
  h !! tp_loc = Some tp -> h !! fp_loc = Some fp -> tp_loc <> fp_loc ->
  tp <> [] ->
  get_rec_prec tp_loc fp_loc [] h = Raise ZeroDivisionError.
Proof. apply get_rec_prec_raise_no_gt. Qed.

Lemma get_rec_prec_no_ground_truth_witness :
  get_rec_prec 0 1 [] [[1]; [0]] = Raise ZeroDivisionError.
Proof.
  apply (get_rec_prec_no_ground_truth [[1]; [0]] 0 1 [1] [0]).
  - reflexivity.
  - reflexivity.
  - lia.
  - discriminate.
Defined.

Lemma prec_fill_raise tp fp prec (Hne : tp <> prec) (Hne' : fp <> prec) :
  forall suf pre w h,
  h !! tp = Some (pre ++ suf) ->
  h !! fp = Some w ->
  (length pre <= length w < length pre + length suf)%nat ->
  (forall i a f, (pre ++ suf) !! i = Some a -> w !! i = Some f -> ~ f + a == 0) ->
  h !! prec = Some (zip_with prec_at pre w ++ suf) ->
  for_each (seq (length pre) (length suf))
    (fun idx =>
       a <- list_get tp idx ;;
       f <- list_get fp idx ;;
       t <- list_get tp idx ;;
       q <- py_div a (f + t) ;;
       list_set prec idx q) h
  = Raise IndexError.
Proof.
  induction suf as [|x suf IH]; intros pre w h Htp Hfp Hlen Hden Hprec.
  - simpl in Hlen. lia.
  - cbn [length seq for_each] in *.
    destruct (decide (length pre = length w)) as [Heq|Hlt].
    + apply bind_raise.
      erewrite bind_ok; [|eapply list_get_ok; [done|by apply list_lookup_middle]].
      apply bind_raise. eapply list_get_raise; [done|].
      apply lookup_ge_None. lia.
    + destruct (lookup_lt_is_Some_2 w (length pre)) as [f Hf]; [lia|].
      assert (Hzl : length (zip_with prec_at pre w) = length pre).
      { rewrite length_zip_with. lia. }
      erewrite bind_ok; cycle 1.
      { erewrite bind_ok; [|eapply list_get_ok; [done|by apply list_lookup_middle]].
        erewrite bind_ok; [|eapply list_get_ok; [done|exact Hf]].
        erewrite bind_ok; [|eapply list_get_ok; [done|by apply list_lookup_middle]].
        erewrite bind_ok; cycle 1.
        { apply py_div_ok.
          apply (Hden (length pre) x f); [by apply list_lookup_middle|exact Hf]. }
        eapply list_set_ok; [done|]. rewrite length_app, Hzl. simpl. lia. }
      replace (S (length pre)) with (length (pre ++ [x])); cycle 1.
      { rewrite length_app. simpl. lia. }
      apply (IH _ w).
      * rewrite heap_lookup_other by done. by rewrite <- app_assoc.
      * by rewrite heap_lookup_other by done.
      * rewrite length_app. simpl. lia.
      * by rewrite <- app_assoc.
      * erewrite heap_lookup_same by done. f_equal.
        rewrite insert_app_r_alt, Hzl, Nat.sub_diag by lia.
        cbn [insert list_insert].
        rewrite (zip_with_snoc _ _ _ _ f) by done.
        by rewrite <- app_assoc.
Qed.

Lemma prec_loop_raise h tp fp v w :
  h !! tp = Some v -> h !! fp = Some w ->
  (length w < length v)%nat ->
  (forall i a f, v !! i = Some a -> w !! i = Some f -> ~ f + a == 0) ->
  prec_loop tp fp h = Raise IndexError.
Proof.
  intros Htp Hfp Hlen Hden. unfold prec_loop.
  run_with list_copy_ok.
  run_with list_len_ok.
  unfold range. rewrite Nat.sub_0_r.
  apply bind_raise.
  apply (prec_fill_raise tp fp (length h)) with (pre := []) (suf := v) (w := w).
  - heap_len.
  - heap_len.
  - heap_lookup.
  - heap_lookup.
  - simpl. lia.
  - done.
  - cbn [zip_with app]. heap_lookup.
Qed.

(** X9.  A [false_positive] list shorter than [true_positive]:
    [get_rec_prec] raises [IndexError] at line 413, provided the ground
    truth is not empty and no earlier index divides by zero. *)
Theorem get_rec_prec_short_false_positive (h : heap) (tp_loc fp_loc : loc)
    (tp fp : list Q) (gt_records : list gt_record) :
  h !! tp_loc = Some tp -> h !! fp_loc = Some fp -> tp_loc <> fp_loc ->
  (length fp < length tp)%nat ->
  gt_records <> [] ->
  (forall i, (i < length fp)%nat ->
     ~ Spec.cumulative tp i + Spec.cumulative fp i == 0) ->
  get_rec_prec tp_loc fp_loc gt_records h = Raise IndexError.
Proof.
  intros Htp Hfp Hne Hlen Hgt Hden. unfold get_rec_prec.
  run_with cumsum_loop_run.
  run_with cumsum_loop_run.
  erewrite bind_ok; cycle 1.
  { eapply rec_loop_run; [heap_lookup|by right]. }
  apply bind_raise. eapply prec_loop_raise.
  - heap_lookup.
  - heap_lookup.
  - by rewrite !running_length.
  - intros i a f Ha Hf E.
    assert (Hi : (i < length fp)%nat).
    { apply lookup_lt_Some in Hf. by rewrite running_length in Hf. }
    apply (Hden i Hi).
    apply running_cumulative in Ha. apply running_cumulative in Hf.
    rewrite Ha, Hf in E. lra.
Qed.

Lemma get_rec_prec_short_false_positive_witness :
  get_rec_prec 0 1 [Examples.gt_a] [[1; 0]; [0]] = Raise IndexError.
Proof.
  apply (get_rec_prec_short_false_positive [[1; 0]; [0]] 0 1 [1; 0] [0]
           [Examples.gt_a]).
  - reflexivity.
  - reflexivity.
  - lia.
  - simpl. lia.
  - discriminate.
  - intros [|i] Hi; [vm_compute; discriminate|simpl in Hi; lia].
Defined.

Lemma running_nondecreasing l : forall c i x y,
  Forall (fun a => 0 <= a) l ->
  running c l !! i = Some x -> running c l !! S i = Some y -> x <= y.
Proof.
  induction l as [|a l IH]; intros c i x y Hl Hx Hy; [done|].
  apply Forall_cons in Hl as [Ha Hl]. cbn [running] in Hx, Hy.
  destruct i as [|i].
  - injection Hx as <-. destruct l as [|b l]; [done|].
    cbn in Hy. injection Hy as <-.
    apply Forall_cons in Hl as [Hb _]. lra.
  - cbn in Hx, Hy. by apply (IH (c + a) i).
Qed.

Lemma running_nonnegative l : forall c i x,
  0 <= c -> Forall (fun a => 0 <= a) l ->
  running c l !! i = Some x -> 0 <= x.
Proof.
  induction l as [|a l IH]; intros c i x Hc Hl Hx; [done|].
  apply Forall_cons in Hl as [Ha Hl]. cbn [running] in Hx.
  destruct i as [|i].
  - injection Hx as <-. lra.
  - cbn in Hx. apply (IH (c + a) i); [lra|done..].
Qed.

(** X10.  For flags that are not negative the recall sequence returned by
    [get_rec_prec] never decreases with the index, and starts at or
    above 0. *)
Theorem get_rec_prec_recall_monotone (h : heap) (tp_loc fp_loc : loc)
    (tp fp : list Q) (gt_records : list gt_record) :
  h !! tp_loc = Some tp -> h !! fp_loc = Some fp -> tp_loc <> fp_loc ->
  (length tp <= length fp)%nat ->
  gt_records <> [] ->
  (forall i, (i < length tp)%nat ->
     ~ Spec.cumulative tp i + Spec.cumulative fp i == 0) ->
  Forall (fun a => 0 <= a) tp ->
  recall_nondecreasing h tp_loc fp_loc gt_records.
Proof.
  intros Htp Hfp Hne Hlen Hgt Hden Hpos.
  exists (length h), (S (length h)),
    (get_rec_prec_heap h tp_loc fp_loc tp fp gt_records),
    (rec_curve tp gt_records).
  split.
  { apply get_rec_prec_run; try done; [by right|].
    by apply cumulative_denominators. }
  split.
  { unfold get_rec_prec_heap. apply list_lookup_middle.
    by rewrite !length_insert. }
  assert (HN : 0 < inject_Z (Z.of_nat (length gt_records))).
  { apply inject_nat_pos. destruct gt_records; [done|simpl; lia]. }
  unfold rec_curve. split.
  - apply Forall_lookup. intros i x Hx.
    apply list_lookup_fmap_Some in Hx as (a & -> & Ha).
    apply running_nonnegative in Ha; [|lra|done].
    apply Qle_shift_div_l; [done|]. lra.
  - intros i x y Hx Hy.
    apply list_lookup_fmap_Some in Hx as (a & -> & Ha).
    apply list_lookup_fmap_Some in Hy as (b & -> & Hb).
    pose proof (running_nondecreasing tp 0 i a b Hpos Ha Hb).
    unfold Qdiv. apply Qmult_le_compat_r; [done|].
    apply Qlt_le_weak, Qinv_lt_0_compat, HN.
Qed.

Lemma get_rec_prec_recall_monotone_witness :
  recall_nondecreasing [[1; 0; 1]; [0; 1; 0]] 0 1 [Examples.gt_a; Examples.gt_a].
Proof.
  apply (get_rec_prec_recall_monotone [[1; 0; 1]; [0; 1; 0]] 0 1
           [1; 0; 1] [0; 1; 0]).
  - reflexivity.
  - reflexivity.
  - lia.
  - simpl. lia.
  - discriminate.
  - intros [|[|[|i]]] Hi; [vm_compute; discriminate..|simpl in Hi; lia].
  - repeat constructor; vm_compute; discriminate.
Defined.

(** ** [calc_AP]: edge cases and bounds *)

(** X11.  Without predictions [calc_AP] returns AP 0 and no true
    positive, whatever the ground truth, an empty list included. *)
Theorem calc_AP_no_predictions (gt_records : list (string * box)) (h : heap) :
  exists ap h', calc_AP gt_records [] h = Ok ((ap, 0%nat), h') /\ ap == 0.
Proof.
  destruct (calc_AP_at_run (1 # 2) gt_records [] h) as [h' Hrun]; [by left|].
  exists (calc_AP_value (1 # 2) gt_records []), h'.
  split; [exact Hrun|]. unfold calc_AP_value. vm_compute. reflexivity.
Qed.

(** X12.  With predictions and an empty ground-truth list [calc_AP] raises
    [ZeroDivisionError]: every prediction is a false positive and the
    recall divides by zero. *)
Theorem calc_AP_no_ground_truth (pred_records : list pred_record) (h : heap) :
  pred_records <> [] ->
  calc_AP [] pred_records h = Raise ZeroDivisionError.
Proof.
  intros Hp. unfold calc_AP, calc_AP_at.
  unfold list_new at 1. unfold bind at 1.
  unfold list_new at 1. unfold bind at 1.
  destruct (loop_result_run (1 # 2) [] pred_records h)
    as (h1 & (Hloop & Htp & Hfp) & _).
  cbn zeta in Hloop.
  rewrite length_app. cbn [length]. rewrite Nat.add_1_r.
  rewrite (bind_ok _ _ _ _ _ Hloop). cbn [fst snd].
  apply bind_raise.
  assert (Hfinal : snd (matching (1 # 2) (add_usage []) pred_records) = []).
  { apply length_zero_iff_nil. by rewrite matching_final_length. }
  rewrite Hfinal.
  eapply get_rec_prec_raise_no_gt; [exact Htp|exact Hfp|lia|].
  intros E. apply (f_equal length) in E.
  rewrite tp_flags_length, matching_trace_length in E.
  by destruct pred_records.
Qed.

Lemma calc_AP_no_ground_truth_witness :
  calc_AP [] [Pred "x" Examples.box_a (9 # 10)] [] = Raise ZeroDivisionError.
Proof.
  apply (calc_AP_no_ground_truth [Pred "x" Examples.box_a (9 # 10)] []).
  discriminate.
Defined.

Lemma hits_le_trace tr : (hits tr <= length tr)%nat.
Proof. pose proof (hits_misses tr). lia. Qed.

(** X13.  The true-positive count [calc_AP] returns is at most the number
    of predictions and at most the number of ground-truth records. *)
Theorem calc_AP_count_bounded (gt_records : list (string * box))
    (pred_records : list pred_record) (h : heap) :
  gt_records <> [] ->
  count_bounded gt_records pred_records h.
Proof.
  intros Hg. unfold count_bounded, calc_AP.
  destruct (calc_AP_at_run (1 # 2) gt_records pred_records h) as [h' Hrun];
    [by right|].
  do 3 eexists. split; [exact Hrun|]. unfold true_positives. split.
  - rewrite <- (matching_trace_length (1 # 2) pred_records (add_usage gt_records)).
    apply hits_le_trace.
  - rewrite <- (add_usage_length gt_records). apply hits_le_length.
Qed.

Lemma calc_AP_count_bounded_witness :
  count_bounded [("x"%string, Examples.box_a)]
    [Pred "x" Examples.box_a (9 # 10); Pred "x" Examples.box_a (8 # 10)] [].
Proof.
  apply (calc_AP_count_bounded [("x"%string, Examples.box_a)]).
  discriminate.
Defined.

Lemma envelope_last l :
  nth (length l - 1) (Spec.envelope l) 0 = nth (length l - 1) l 0.
Proof.
  induction l as [|a l IH]; [done|].
  cbn [Spec.envelope]. destruct (Spec.envelope l) as [|b e] eqn:Ee.
  - apply (f_equal length) in Ee. rewrite envelope_length in Ee.
    by destruct l.
  - destruct l as [|a' l]; [done|].
    cbn [length] in *. rewrite Nat.sub_succ, Nat.sub_0_r in *.
    cbn [nth]. exact IH.
Qed.

Lemma ap_le_last_recall r p :
  nondecreasing r -> Forall in_unit r -> Forall in_unit p ->
  length r = length p ->
  Spec.ap r p <= nth (length r - 1) r 0.
Proof.
  intros Hr Hu Hp Hlen. unfold Spec.ap, Spec.area, Spec.break_points, Qsum.
  set (m := Spec.mrec r). set (e := Spec.envelope (Spec.mprec p)).
  assert (Hm : length m = S (S (length r))).
  { unfold m, Spec.mrec. cbn [length]. rewrite length_app. simpl. lia. }
  rewrite Hm. cbn [Nat.sub]. rewrite ?Nat.sub_0_r.
  rewrite seq_S, filter_app, map_app, fold_left_app.
  destruct (area_prefix_bound m e) with (k := length r) as [_ Hpre].
  - by apply mrec_nondecreasing.
  - apply envelope_in_unit. unfold Spec.mprec.
    constructor; [unfold in_unit; lra|].
    apply Forall_app. split; [done|].
    constructor; [unfold in_unit; lra|constructor].
  - lia.
  - cbn zeta in Hpre. set (s := fold_left Qplus _ 0) in *.
    assert (Hlast : nth (1 + length r) e 0 = 0).
    { unfold e.
      replace (1 + length r)%nat with (length (Spec.mprec p) - 1)%nat; cycle 1.
      { unfold Spec.mprec. cbn [length]. rewrite length_app. simpl. lia. }
      rewrite envelope_last. unfold Spec.mprec. cbn [length].
      rewrite Nat.sub_succ, Nat.sub_0_r, length_app. cbn [length].
      rewrite Nat.add_1_r. cbn [nth].
      rewrite app_nth2 by lia. by rewrite Nat.sub_diag. }
    assert (Hn : nth (length r) m 0 - nth 0 m 0 <= nth (length r - 1) r 0).
    { unfold m, Spec.mrec. destruct r as [|x r']; [cbn; lra|].
      cbn [length nth]. rewrite Nat.sub_succ, Nat.sub_0_r.
      rewrite app_nth1 by (simpl; lia). cbn [nth]. lra. }
    rewrite filter_cons, filter_nil.
    destruct (decide _); cbn [map fold_left]; [rewrite Hlast|]; lra.
Qed.

(** X14.  The AP [calc_AP] returns is at most the final recall, the
    number of true positives over the number of ground-truth records; in
    particular it is 0 when no prediction is matched. *)
Theorem calc_AP_below_recall (gt_records : list (string * box))
    (pred_records : list pred_record) (h : heap) :
  gt_records <> [] ->
  ap_below_recall gt_records pred_records h.
Proof.
  intros Hg. unfold ap_below_recall, calc_AP.
  destruct (calc_AP_at_run (1 # 2) gt_records pred_records h) as [h' Hrun];
    [by right|].
  do 3 eexists. split; [exact Hrun|].
  unfold calc_AP_value, true_positives. cbn zeta.
  set (tr := fst (matching (1 # 2) (add_usage gt_records) pred_records)).
  set (final := snd (matching (1 # 2) (add_usage gt_records) pred_records)).
  assert (Hfl : length final = length gt_records).
  { unfold final. by rewrite matching_final_length, add_usage_length. }
  assert (Hpos : (0 < length final)%nat).
  { rewrite Hfl. destruct gt_records; [done|simpl; lia]. }
  destruct (rec_curve_shape tr (length final)) as [Hu Hn]; [|done|].
  { unfold tr, final. rewrite matching_final_length. apply hits_le_length. }
  apply Qle_trans with
    (nth (length (rec_curve (tp_flags tr) final) - 1)
         (rec_curve (tp_flags tr) final) 0).
  { apply ap_le_last_recall; [exact Hn|exact Hu|apply prec_curve_in_unit|].
    unfold rec_curve, prec_curve.
    rewrite length_map, length_zip_with, !running_length.
    rewrite tp_flags_length, fp_flags_length. lia. }
  rewrite <- Hfl. unfold rec_curve.
  rewrite length_map, running_length, tp_flags_length.
  pose proof (inject_nat_pos _ Hpos) as HN.
  destruct (nth_lookup_or_length
              (map (fun a => a / inject_Z (Z.of_nat (length final)))
                   (running 0 (tp_flags tr))) (length tr - 1) 0) as [Hx|Hx].
  - apply list_lookup_fmap_Some in Hx as (a & Hq & Ha).
    rewrite Hq. pose proof (lookup_lt_Some _ _ _ Ha) as Hlt.
    rewrite running_length, tp_flags_length in Hlt.
    apply running_tp_flags in Ha.
    rewrite firstn_all2 in Ha by lia.
    rewrite Ha, Qplus_0_l. apply Qle_refl.
  - rewrite length_map, running_length, tp_flags_length in Hx.
    rewrite nth_overflow; cycle 1.
    { rewrite length_map, running_length, tp_flags_length. lia. }
    apply Qle_shift_div_l; [done|].
    pose proof (inject_nat_le 0 (hits tr) (Nat.le_0_l _)) as H0.
    change (inject_Z (Z.of_nat 0)) with 0 in H0. lra.
Qed.

Lemma calc_AP_below_recall_witness :
  ap_below_recall [("x"%string, Examples.box_a); ("y"%string, Examples.box_a)]
    [Pred "x" Examples.box_a (9 # 10); Pred "x" Examples.box_c (8 # 10)] [].
Proof.
  apply (calc_AP_below_recall
           [("x"%string, Examples.box_a); ("y"%string, Examples.box_a)]).
  discriminate.
Defined.

(** ** The class loop of [compute_mAP] *)

Lemma dict_get_set_eq {V} (d : Dict.dict V) k v :
  Dict.get (Dict.set d k v) k = Some v.
Proof.
  induction d as [|[k' v'] d IH]; simpl.
  - by rewrite String.eqb_refl.
  - destruct (String.eqb k' k) eqn:E; simpl; rewrite E; [done|exact IH].
Qed.

Lemma dict_get_set_ne {V} (d : Dict.dict V) k k' v :
  k <> k' -> Dict.get (Dict.set d k v) k' = Dict.get d k'.
Proof.
  intros Hne. induction d as [|[k0 v0] d IH]; simpl.
  - destruct (String.eqb_spec k k'); [done|done].
  - destruct (String.eqb_spec k0 k) as [->|Hk]; simpl.
    + destruct (String.eqb_spec k k'); [done|done].
    + destruct (String.eqb_spec k0 k'); [done|exact IH].
Qed.

Lemma dict_get_in_values {V} (d : Dict.dict V) k v :
  Dict.get d k = Some v -> v ∈ Dict.values d.
Proof.
  induction d as [|[k0 v0] d IH]; simpl; [done|].
  destruct (String.eqb k0 k).
  - intros [= ->]. left.
  - intros H. right. by apply IH.
Qed.

Lemma dict_values_set {V} (P : V -> Prop) (d : Dict.dict V) k v :
  Forall P (Dict.values d) -> P v -> Forall P (Dict.values (Dict.set d k v)).
Proof.
  intros Hd Hv. induction d as [|[k0 v0] d IH]; simpl.
  - by constructor.
  - unfold Dict.values in *. simpl in Hd. apply Forall_cons in Hd as [H0 Hd].
    destruct (String.eqb k0 k); simpl; constructor; auto.
Qed.

(** One iteration for a class that has ground truth. *)
Lemma class_body_run gt pred APs counts c g h :
  Dict.get gt c = Some g -> g <> [] ->
  exists ap counts' h',
    class_body gt pred (APs, counts) c h
    = Ok ((Dict.set APs c ap, counts'), h') /\
    in_unit ap /\
    (Dict.get pred c = None -> ap = 0 /\ counts' = counts) /\
    (is_Some (Dict.get pred c) -> exists n, counts' = Dict.set counts c n).
Proof.
  intros Hg Hne. unfold class_body. rewrite Hg.
  destruct (Dict.get pred c) as [preds|] eqn:Hp.
  - destruct (calc_AP_at_run (1 # 2) g preds h) as [h' Hrun]; [by right|].
    exists (calc_AP_value (1 # 2) g preds),
      (Dict.set counts c (true_positives (1 # 2) g preds)), h'.
    split; [|split; [|split]].
    + unfold calc_AP. by rewrite (bind_ok _ _ _ _ _ Hrun).
    + by apply calc_AP_value_bound.
    + done.
    + eauto.
  - exists 0, counts, h. split; [done|]. split; [unfold in_unit; lra|].
    split; [done|]. by intros [? ?].
Qed.

Lemma class_fold_run gt pred names : forall APs counts h,
  (forall c, c ∈ names -> exists g, Dict.get gt c = Some g /\ g <> []) ->
  Forall in_unit (Dict.values APs) ->
  exists APs' counts' h',
    for_fold names (APs, counts) (class_body gt pred) h
    = Ok ((APs', counts'), h') /\
    Forall in_unit (Dict.values APs') /\
    (forall c, is_Some (Dict.get APs' c)
               <-> is_Some (Dict.get APs c) \/ c ∈ names) /\
    (forall c, is_Some (Dict.get counts' c)
               <-> is_Some (Dict.get counts c)
                   \/ (c ∈ names /\ is_Some (Dict.get pred c))) /\
    (forall c, Dict.get pred c = None ->
               Dict.get APs' c = Some 0
               \/ ((~ (c ∈ names)) /\ Dict.get APs' c = Dict.get APs c)).
Proof.
  induction names as [|c names IH]; intros APs counts h Hgt Hunit.
  - exists APs, counts, h. split; [done|]. split; [done|].
    split; [|split].
    + intros c. rewrite elem_of_nil. tauto.
    + intros c. rewrite elem_of_nil. tauto.
    + intros c _. right. split; [apply not_elem_of_nil|done].
  - destruct (Hgt c) as (g & Hg & Hne); [left|].
    destruct (class_body_run gt pred APs counts c g h Hg Hne)
      as (ap & counts1 & h1 & Hstep & Hap & Hnone & Hsome).
    destruct (IH (Dict.set APs c ap) counts1 h1)
      as (APs' & counts' & h' & Hrun & Hunit' & Hkeys & Hcounts & Hzero).
    { intros c' Hc'. apply Hgt. by right. }
    { by apply dict_values_set. }
    exists APs', counts', h'. cbn [for_fold].
    rewrite (bind_ok _ _ _ _ _ Hstep). split; [exact Hrun|].
    split; [exact Hunit'|]. split; [|split].
    + intros c'. rewrite Hkeys, elem_of_cons.
      destruct (string_dec c c') as [->|Hcc].
      * rewrite dict_get_set_eq. split; [intros _; right; by left|by left].
      * rewrite dict_get_set_ne by done.
        split; [intros [?|?]; auto|intros [?|[?|?]]; auto; congruence].
    + intros c'. rewrite Hcounts, elem_of_cons.
      destruct (Dict.get pred c) as [preds|] eqn:Hp.
      * destruct Hsome as [n ->]; [done|].
        destruct (string_dec c c') as [->|Hcc].
        -- rewrite dict_get_set_eq, Hp.
           split; [intros _; right; split; [by left|done]|by left].
        -- rewrite dict_get_set_ne by done.
           split; [intros [?|[? ?]]; auto|].
           intros [?|[[?|?] ?]]; auto; congruence.
      * destruct Hnone as [_ ->]; [done|].
        split; [intros [?|[? ?]]; auto|].
        intros [?|[[->|?] Hs]]; auto.
        rewrite Hp in Hs. by destruct Hs.
    + intros c' Hp'. destruct (Hzero c' Hp') as [?|[Hnot Heq]]; [by left|].
      destruct (string_dec c c') as [->|Hcc].
      * left. rewrite Heq, dict_get_set_eq.
        destruct Hnone as [-> _]; done.
      * right. split.
        -- rewrite elem_of_cons. intros [?|?]; [congruence|done].
        -- by rewrite Heq, dict_get_set_ne.
Qed.

(** X15.  When every class name has at least one ground-truth record the
    class loop ends, with an AP for exactly the class names (in [0, 1],
    and 0 for a class without predictions) and a true-positive count for
    exactly the class names that have predictions. *)
Theorem class_loop_records_every_class (class_names : list string)
    (gt : Dict.dict (list (string * box)))
    (pred : Dict.dict (list pred_record)) (h : heap) :
  (forall c, c ∈ class_names ->
     exists g, Dict.get gt c = Some g /\ g <> []) ->
  records_every_class class_names gt pred h.
Proof.
  intros Hgt. unfold records_every_class, class_loop.
  destruct (class_fold_run gt pred class_names [] [] h Hgt)
    as (APs & counts & h' & Hrun & Hunit & Hkeys & Hcounts & Hzero).
  { constructor. }
  exists APs, counts, h'. split; [exact Hrun|]. split; [|split; [|split]].
  - intros c. rewrite Hkeys. cbn. split; [intros [[? ?]|?]; done|auto].
  - intros c. rewrite Hcounts. cbn. split; [intros [[? ?]|?]; done|auto].
  - intros c ap Hc. apply dict_get_in_values in Hc.
    by apply (proj1 (Forall_forall _ _) Hunit).
  - intros c Hc Hp. destruct (Hzero c Hp) as [?|[? _]]; done.
Qed.

Lemma class_loop_records_every_class_witness :
  records_every_class ClassExamples.class_names ClassExamples.gt_both
    ClassExamples.car_predicted [].
Proof.
  apply (class_loop_records_every_class ClassExamples.class_names).
  intros c Hc. unfold ClassExamples.class_names in Hc.
  apply elem_of_cons in Hc as [->|Hc]; [eexists; split; [reflexivity|discriminate]|].
  apply elem_of_cons in Hc as [->|Hc]; [eexists; split; [reflexivity|discriminate]|].
  by apply elem_of_nil in Hc.
Defined.

Lemma Qsum_cons x l : Qsum (x :: l) == x + Qsum l.
Proof. unfold Qsum at 1. cbn [fold_left]. rewrite fold_Qplus_shift. lra. Qed.

Lemma Qsum_in_unit l :
  Forall in_unit l ->
  0 <= Qsum l /\ Qsum l <= inject_Z (Z.of_nat (length l)).
Proof.
  induction 1 as [|x l [Hx0 Hx1] _ [IH0 IH1]].
  - unfold Qsum. cbn [fold_left length].
    change (inject_Z (Z.of_nat 0)) with 0. lra.
  - rewrite Qsum_cons. cbn [length].
    rewrite Nat2Z.inj_succ, <- Z.add_1_l, inject_Z_plus.
    change (inject_Z 1) with 1. lra.
Qed.

Lemma np_mean_in_unit l :
  Forall in_unit l -> l <> [] ->
  exists m, np_mean l = Some m /\ 0 <= m <= 1.
Proof.
  intros Hl Hne. destruct l as [|x l]; [done|].
  eexists. split; [reflexivity|].
  destruct (Qsum_in_unit (x :: l) Hl) as [H0 H1].
  pose proof (inject_nat_pos (length (x :: l))) as HN.
  split.
  - apply Qle_shift_div_l; [apply HN; simpl; lia|]. lra.
  - apply Qle_shift_div_r; [apply HN; simpl; lia|]. lra.
Qed.

(** *** The plots of lines 639-678 *)

Lemma insert_by_value_perm {V} (ltb : V -> V -> bool) x l :
  insert_by_value ltb x l ≡ₚ x :: l.
Proof.
  induction l as [|y l IH]; [done|]. cbn [insert_by_value].
  destruct (ltb (snd y) (snd x)); [|done].
  rewrite IH. apply Permutation_swap.
Qed.

Lemma sorted_by_value_perm {V} (ltb : V -> V -> bool) (d : Dict.dict V) :
  sorted_by_value ltb d ≡ₚ d.
Proof.
  induction d as [|x d IH]; [done|].
  unfold sorted_by_value in *. cbn [foldr].
  by rewrite insert_by_value_perm, IH.
Qed.

Lemma dict_get_key {V} (d : Dict.dict V) k :
  is_Some (Dict.get d k) <-> k ∈ map fst d.
Proof.
  induction d as [|[k' v] d IH]; cbn [Dict.get map fst].
  - split; [by intros [? ?]|by intros ?%elem_of_nil].
  - rewrite elem_of_cons. destruct (String.eqb_spec k' k) as [->|Hne].
    + split; [by left|done].
    + rewrite IH. split; [by right|]. intros [?|?]; [congruence|done].
Qed.

Lemma dict_set_key {V} (d : Dict.dict V) k v k' :
  k' ∈ map fst (Dict.set d k v) <-> k' = k \/ k' ∈ map fst d.
Proof.
  rewrite <- !dict_get_key. destruct (string_dec k k') as [->|Hne].
  - rewrite dict_get_set_eq. split; [by left|done].
  - rewrite dict_get_set_ne by done. split; [by right|].
    intros [?|?]; [congruence|done].
Qed.

Lemma counter_fold_key {V} (records : Dict.dict (list V)) : forall acc k,
  k ∈ map fst
        (fold_left (fun counter item =>
                      Dict.set counter (fst item) (length (snd item)))
           records acc)
  <-> k ∈ map fst acc \/ k ∈ map fst records.
Proof.
  induction records as [|[c l] records IH]; intros acc k; cbn [fold_left].
  - rewrite elem_of_nil. tauto.
  - rewrite IH, dict_set_key. cbn [map fst]. rewrite elem_of_cons. tauto.
Qed.

Lemma counter_per_class_key {V} (records : Dict.dict (list V)) k :
  k ∈ map fst (counter_per_class records) <-> k ∈ map fst records.
Proof.
  unfold counter_per_class. rewrite counter_fold_key, elem_of_nil. tauto.
Qed.

Lemma counter_per_class_nonempty {V} (records : Dict.dict (list V)) :
  records <> [] -> counter_per_class records <> [].
Proof.
  destruct records as [|[c l] records]; [done|]. intros _ E.
  assert (H : c ∈ map fst (counter_per_class ((c, l) :: records))).
  { apply counter_per_class_key. left. }
  rewrite E in H. by apply elem_of_nil in H.
Qed.

Lemma draw_plot_func_empty {V} (ltb : V -> V -> bool) bar h :
  draw_plot_func ltb [] bar h = Raise ValueError.
Proof. done. Qed.

Lemma sorted_by_value_nonempty {V} (ltb : V -> V -> bool) (d : Dict.dict V) :
  d <> [] -> sorted_by_value ltb d <> [].
Proof.
  intros Hd E. pose proof (sorted_by_value_perm ltb d) as Hp.
  rewrite E in Hp. by apply Permutation_nil_l in Hp.
Qed.

Lemma draw_plot_func_plain {V} (ltb : V -> V -> bool) (d : Dict.dict V) h :
  d <> [] -> draw_plot_func ltb d None h = Ok (tt, h).
Proof.
  intros Hd. unfold draw_plot_func. cbn zeta.
  pose proof (sorted_by_value_nonempty ltb d Hd).
  by destruct (sorted_by_value ltb d).
Qed.

Lemma lookups_run {V} (d : Dict.dict V) (bar : Dict.dict nat) keys h :
  (forall k, k ∈ keys -> is_Some (Dict.get d k) /\ is_Some (Dict.get bar k)) ->
  for_each keys (fun key =>
    match Dict.get d key, Dict.get bar key with
    | Some _, Some _ => ret tt
    | _, _ => throw KeyError
    end) h = Ok (tt, h).
Proof.
  induction keys as [|k keys IH]; intros Hk; [done|]. cbn [for_each].
  destruct (Hk k) as [[v Hv] [n Hn]]; [left|].
  unfold bind at 1. rewrite Hv, Hn. cbn. apply IH.
  intros k' Hk'. apply Hk. by right.
Qed.

Lemma draw_plot_func_bar {V} (ltb : V -> V -> bool) (d : Dict.dict V) bar h :
  d <> [] ->
  (forall k, is_Some (Dict.get d k) -> is_Some (Dict.get bar k)) ->
  draw_plot_func ltb d (Some bar) h = Ok (tt, h).
Proof.
  intros Hd Hbar. unfold draw_plot_func. cbn zeta.
  pose proof (sorted_by_value_nonempty ltb d Hd) as Hne.
  pose proof (sorted_by_value_perm ltb d) as Hp.
  destruct (sorted_by_value ltb d) as [|x l]; [done|].
  apply lookups_run. intros k Hk.
  assert (Hin : is_Some (Dict.get d k)).
  { apply dict_get_key. by rewrite <- Hp. }
  split; [done|by apply Hbar].
Qed.

(** X16.  With a non-empty class list in which every class name has at
    least one ground-truth record, at least one class with predictions,
    and records that name only classes of [class_names] (as
    [annotation_parse] and [get_prediction_class_records] build them),
    [compute_mAP] passes the three plots and returns a mAP between 0 and
    100. *)
Theorem compute_mAP_percentage (class_names : list string)
    (gt : Dict.dict (list (string * box)))
    (pred : Dict.dict (list pred_record)) (h : heap) :
  class_names <> [] ->
  (forall c, c ∈ class_names ->
     exists g, Dict.get gt c = Some g /\ g <> []) ->
  keys_among class_names gt ->
  pred <> [] ->
  keys_among class_names pred ->
  mAP_is_percentage class_names gt pred h.
Proof.
  intros Hne Hgt _ Hpred Hkeys_pred.
  unfold mAP_is_percentage, compute_mAP, class_loop.
  destruct (class_fold_run gt pred class_names [] [] h Hgt)
    as (APs & counts & h' & Hrun & Hunit & Hkeys & Hcounts & _).
  { constructor. }
  rewrite (bind_ok _ _ _ _ _ Hrun). cbn [fst snd]. cbn zeta.
  assert (HAPs : APs <> []).
  { destruct class_names as [|c names]; [done|].
    destruct (proj2 (Hkeys c)) as [ap Hap]; [right; left|].
    intros E. by rewrite E in Hap. }
  assert (Hgt_ne : gt <> []).
  { destruct class_names as [|c names]; [done|].
    destruct (Hgt c) as (g & Hg & _); [left|].
    intros E. by rewrite E in Hg. }
  rewrite (bind_ok _ _ _ _ _
             (draw_plot_func_plain Nat.ltb _ h'
                (counter_per_class_nonempty gt Hgt_ne))).
  erewrite bind_ok; cycle 1.
  { apply draw_plot_func_bar; [by apply counter_per_class_nonempty|].
    intros k Hk. apply Hcounts. right.
    apply dict_get_key, counter_per_class_key, dict_get_key in Hk.
    split; [by apply Hkeys_pred|done]. }
  rewrite (bind_ok _ _ _ _ _ (draw_plot_func_plain Qltb APs h' HAPs)).
  destruct (np_mean_in_unit (Dict.values APs) Hunit) as (m & Hm & Hm0 & Hm1).
  { destruct APs; [done|]. done. }
  exists (m * 100), h'. rewrite Hm. split; [done|]. lra.
Qed.

Lemma compute_mAP_percentage_witness :
  mAP_is_percentage ClassExamples.class_names ClassExamples.gt_both
    ClassExamples.car_predicted [].
Proof.
  apply (compute_mAP_percentage ClassExamples.class_names).
  - discriminate.
  - intros c Hc. unfold ClassExamples.class_names in Hc.
    apply elem_of_cons in Hc as [->|Hc];
      [eexists; split; [reflexivity|discriminate]|].
    apply elem_of_cons in Hc as [->|Hc];
      [eexists; split; [reflexivity|discriminate]|].
    by apply elem_of_nil in Hc.
  - intros c Hc. apply dict_get_key in Hc. exact Hc.
  - discriminate.
  - intros c Hc. apply dict_get_key in Hc. cbn in Hc.
    apply elem_of_cons in Hc as [->|Hc]; [left|].
    by apply elem_of_nil in Hc.
Defined.

Lemma class_fold_no_predictions gt names : forall st h,
  (forall c, c ∈ names -> is_Some (Dict.get gt c)) ->
  exists st',
    for_fold names st (class_body gt []) h = Ok (st', h).
Proof.
  induction names as [|c names IH]; intros [APs counts] h Hgt.
  - by eexists.
  - destruct (Hgt c) as [g Hg]; [left|]. cbn [for_fold].
    rewrite (bind_ok _ _ _ _ _
               (class_body_no_predictions gt [] APs counts c g h Hg eq_refl)).
    apply IH. intros c' Hc'. apply Hgt. by right.
Qed.

(** X26.  Without any prediction record (the detector found nothing in any
    image) [compute_mAP] returns no mAP, although every class gets its AP
    of 0: the plot of the predicted objects (line 668) unpacks an empty
    dictionary at line 475 and raises [ValueError]; without ground truth
    the plot of line 650 does. *)
Theorem compute_mAP_no_predictions (class_names : list string)
    (gt : Dict.dict (list (string * box))) (h : heap) :
  (forall c, c ∈ class_names -> is_Some (Dict.get gt c)) ->
  compute_mAP class_names gt [] h = Raise ValueError.
Proof.
  intros Hgt. unfold compute_mAP, class_loop.
  destruct (class_fold_no_predictions gt class_names ([], []) h Hgt)
    as [st Hrun].
  rewrite (bind_ok _ _ _ _ _ Hrun). cbn zeta.
  destruct gt as [|item gt]; [done|].
  rewrite (bind_ok _ _ _ _ _
             (draw_plot_func_plain Nat.ltb _ h
                (counter_per_class_nonempty (item :: gt) ltac:(done)))).
  done.
Qed.

Lemma compute_mAP_no_predictions_witness :
  compute_mAP ClassExamples.class_names ClassExamples.gt_both
    ClassExamples.no_predictions [] = Raise ValueError.
Proof.
  apply (compute_mAP_no_predictions ClassExamples.class_names
           ClassExamples.gt_both []).
  intros c Hc. unfold ClassExamples.class_names in Hc.
  apply elem_of_cons in Hc as [->|Hc]; [by eexists|].
  apply elem_of_cons in Hc as [->|Hc]; [by eexists|].
  by apply elem_of_nil in Hc.
Defined.

Lemma class_fold_key_error gt pred names : forall st h,
  (exists c, c ∈ names /\ Dict.get gt c = None) ->
  (forall c g, c ∈ names -> Dict.get gt c = Some g -> g <> []) ->
  for_fold names st (class_body gt pred) h = Raise KeyError.
Proof.
  induction names as [|c names IH]; intros [APs counts] h (c0 & Hc0 & Hmiss) Hne.
  - by apply elem_of_nil in Hc0.
  - cbn [for_fold]. destruct (Dict.get gt c) as [g|] eqn:Hg.
    + destruct (class_body_run gt pred APs counts c g h Hg)
        as (ap & counts1 & h1 & Hstep & _).
      { apply (Hne c); [left|done]. }
      rewrite (bind_ok _ _ _ _ _ Hstep). apply IH.
      * exists c0. split; [|done].
        apply elem_of_cons in Hc0 as [->|?]; [congruence|done].
      * intros c' g' Hc'. apply Hne. by right.
    + apply bind_raise. unfold class_body. by rewrite Hg.
Qed.

(** X17.  If some class name has no entry among the ground-truth records
    (and no entry is an empty list), [compute_mAP] raises [KeyError]: no
    mAP is returned, even when every other class could be evaluated. *)
Theorem compute_mAP_key_error (class_names : list string)
    (gt : Dict.dict (list (string * box)))
    (pred : Dict.dict (list pred_record)) (h : heap) (c : string) :
  c ∈ class_names -> Dict.get gt c = None ->
  (forall c' g, c' ∈ class_names -> Dict.get gt c' = Some g -> g <> []) ->
  compute_mAP class_names gt pred h = Raise KeyError.
Proof.
  intros Hc Hmiss Hne. unfold compute_mAP, class_loop.
  apply bind_raise. apply class_fold_key_error; eauto.
Qed.

Lemma compute_mAP_key_error_witness :
  compute_mAP ClassExamples.class_names ClassExamples.gt_car_only
    ClassExamples.car_predicted [] = Raise KeyError.
Proof.
  apply (compute_mAP_key_error ClassExamples.class_names
           ClassExamples.gt_car_only ClassExamples.car_predicted []
           "dog"%string).
  - right. left.
  - reflexivity.
  - intros c' g Hc' Hg. unfold ClassExamples.gt_car_only in Hg.
    cbn [Dict.get] in Hg.
    destruct (String.eqb "car" c'); [|discriminate].
    injection Hg as <-. discriminate.
Defined.

(** ** [get_prediction_class_records]: the sort *)

Lemma insert_desc_perm x l : insert_desc x l ≡ₚ x :: l.
Proof.
  induction l as [|y l IH]; [done|]. simpl.
  destruct (Qltb (pred_score x) (pred_score y)); [|done].
  rewrite IH. apply Permutation_swap.
Qed.

Lemma sort_desc_perm l : sort_desc l ≡ₚ l.
Proof.
  induction l as [|x l IH]; [done|].
  unfold sort_desc in *. cbn [foldr]. by rewrite insert_desc_perm, IH.
Qed.

Lemma insert_desc_stable x l s :
  filter (fun y => pred_score y == s) (insert_desc x l)
  = filter (fun y => pred_score y == s) (x :: l).
Proof.
  induction l as [|y l IH]; [done|]. cbn [insert_desc].
  destruct (Qltb (pred_score x) (pred_score y)) eqn:E; [|done].
  apply Qltb_lt in E.
  rewrite (filter_cons _ y), IH, !(filter_cons _ x), (filter_cons _ y).
  destruct (decide (pred_score y == s)) as [Hy|Hy];
    destruct (decide (pred_score x == s)) as [Hx|Hx]; try done.
  exfalso. rewrite Hx, Hy in E. by apply (Qlt_irrefl s).
Qed.

Lemma sort_desc_stable l : stable l (sort_desc l).
Proof.
  intros s. induction l as [|x l IH]; [done|].
  unfold sort_desc in *. cbn [foldr].
  by rewrite insert_desc_stable, !(filter_cons _ x), IH.
Qed.

Lemma insert_desc_sorted x l :
  Sorted (fun a b => pred_score b <= pred_score a) l ->
  Sorted (fun a b => pred_score b <= pred_score a) (insert_desc x l).
Proof.
  induction 1 as [|y l Hs IH Hhd]; cbn [insert_desc].
  - by repeat constructor.
  - destruct (Qltb (pred_score x) (pred_score y)) eqn:E.
    + apply Qltb_lt in E. constructor; [exact IH|].
      destruct l as [|z l]; cbn [insert_desc].
      * constructor. by apply Qlt_le_weak.
      * destruct (Qltb (pred_score x) (pred_score z)).
        -- constructor. by inversion Hhd.
        -- constructor. by apply Qlt_le_weak.
    + apply Qltb_ge in E. constructor; [by constructor|by constructor].
Qed.

Lemma sort_desc_sorted l :
  Sorted (fun a b => pred_score b <= pred_score a) (sort_desc l).
Proof.
  induction l as [|x l IH]; [constructor|].
  unfold sort_desc in *. cbn [foldr]. by apply insert_desc_sorted.
Qed.

Lemma Sorted_descending l :
  Sorted (fun a b => pred_score b <= pred_score a) l -> descending l.
Proof.
  induction 1 as [|x l Hs IH Hhd]; intros i a b Ha Hb; [done|].
  destruct i as [|i].
  - injection Ha as <-. destruct l as [|z l]; [done|].
    injection Hb as <-. by inversion Hhd.
  - by apply (IH i).
Qed.

Lemma sort_desc_descending l : descending (sort_desc l).
Proof. apply Sorted_descending, sort_desc_sorted. Qed.

Lemma sort_all_get d c :
  Dict.get (sort_all d) c = sort_desc <$> Dict.get d c.
Proof.
  induction d as [|[k l] d IH]; [done|]. cbn.
  destruct (String.eqb k c); [done|exact IH].
Qed.

(** ** [get_prediction_class_records]: the dictionary *)

Lemma nonempty_opt_snoc {A} (l : list A) x :
  nonempty_opt (l ++ [x]) = Some (l ++ [x]).
Proof. by destruct l. Qed.

Lemma nonempty_opt_Some {A} (l l' : list A) :
  nonempty_opt l = Some l' -> l' = l /\ l <> [].
Proof. destruct l; [done|]. by intros [= <-]. Qed.

Lemma nonempty_opt_None {A} (l : list A) : nonempty_opt l = None -> l = [].
Proof. by destruct l. Qed.

(** The inner loop: either every class index is valid and each class got
    its records appended, or the loop raised [IndexError]. *)
Lemma record_detections_run names img dets : forall d R,
  (forall c, Dict.get d c = nonempty_opt (R c)) ->
  match rfold (record_detection names img) dets d with
  | Ok d' =>
      Forall (fun x : box * Z * Q => is_Some (py_index names (snd (fst x)))) dets /\
      forall c, Dict.get d' c
                = nonempty_opt (R c ++ omap (record_of names img c) dets)
  | Raise e =>
      e = IndexError /\
      ~ Forall (fun x : box * Z * Q => is_Some (py_index names (snd (fst x)))) dets
  end.
Proof.
  induction dets as [|[[b cls] s] dets IH]; intros d R Hd.
  - cbn [rfold omap list_omap]. split; [constructor|].
    intros c. by rewrite app_nil_r.
  - cbn [rfold]. unfold record_detection at 1.
    destruct (py_index names cls) as [name|] eqn:Hname.
    + set (d1 := match Dict.get d name with
                 | Some l => Dict.set d name (l ++ [Pred img b s])
                 | None => Dict.set d name [Pred img b s]
                 end).
      assert (Hd1 : forall c, Dict.get d1 c
                = nonempty_opt (R c ++ omap (record_of names img c) [(b, cls, s)])).
      { intros c. cbn [omap list_omap record_of]. rewrite Hname.
        destruct (String.eqb_spec name c) as [<-|Hne].
        - rewrite nonempty_opt_snoc. unfold d1. rewrite Hd.
          destruct (nonempty_opt (R name)) as [l|] eqn:E.
          + apply nonempty_opt_Some in E as [-> _]. by rewrite dict_get_set_eq.
          + apply nonempty_opt_None in E. rewrite E. by rewrite dict_get_set_eq.
        - rewrite app_nil_r, <- Hd. unfold d1.
          destruct (Dict.get d name); by rewrite dict_get_set_ne. }
      assert (Hstep : match Dict.get d name with
                      | Some l => Ok (Dict.set d name (l ++ [Pred img b s]))
                      | None => Ok (Dict.set d name [Pred img b s])
                      end = Ok d1).
      { unfold d1. by destruct (Dict.get d name). }
      rewrite Hstep.
      specialize (IH d1 (fun c => R c ++ omap (record_of names img c) [(b, cls, s)]) Hd1).
      destruct (rfold (record_detection names img) dets d1) as [d'|e].
      * destruct IH as [Hall Hget]. split.
        -- constructor; [cbn; by rewrite Hname|done].
        -- intros c. rewrite Hget, <- app_assoc. do 2 f_equal.
           by rewrite <- omap_app.
      * destruct IH as [-> Hnot]. split; [done|].
        intros Hall. apply Hnot. by apply Forall_cons in Hall as [_ ?].
    + split; [done|]. intros Hall. apply Forall_cons in Hall as [Hx _].
      cbn in Hx. rewrite Hname in Hx. by destruct Hx.
Qed.

Lemma image_records_omap names c img boxes classes scores :
  image_records names c (img, (boxes, classes, scores))
  = omap (record_of names img c) (zip3 boxes classes scores).
Proof. reflexivity. Qed.

Lemma record_images_run names images : forall d R,
  (forall c, Dict.get d c = nonempty_opt (R c)) ->
  match rfold (record_image names) images d with
  | Ok d' =>
      Forall (valid_image names) images /\
      forall c, Dict.get d' c
                = nonempty_opt (R c ++ class_records names c images)
  | Raise e => e = IndexError /\ ~ Forall (valid_image names) images
  end.
Proof.
  induction images as [|[img [[boxes classes] scores]] images IH];
    intros d R Hd.
  - cbn [rfold]. split; [constructor|]. intros c.
    unfold class_records. cbn. by rewrite app_nil_r.
  - cbn [rfold]. unfold record_image at 1.
    pose proof (record_detections_run names img (zip3 boxes classes scores) d R Hd)
      as Hin.
    assert (Hskip : (if (length boxes =? 0)%nat then Ok d
                     else rfold (record_detection names img)
                            (zip3 boxes classes scores) d)
                    = rfold (record_detection names img)
                        (zip3 boxes classes scores) d).
    { destruct boxes; [done|]. done. }
    rewrite Hskip.
    destruct (rfold (record_detection names img) (zip3 boxes classes scores) d)
      as [d1|e].
    + destruct Hin as [Hall Hget].
      specialize (IH d1 (fun c => R c ++ image_records names c
                                   (img, (boxes, classes, scores)))).
      destruct (rfold (record_image names) images d1) as [d'|e].
      * destruct IH as [Hall' Hget']; [exact Hget|]. split.
        -- constructor; [exact Hall|exact Hall'].
        -- intros c. rewrite Hget'. unfold class_records. cbn [flat_map].
           by rewrite <- app_assoc.
      * destruct IH as [-> Hnot]; [exact Hget|]. split; [done|].
        intros H. apply Hnot. by apply Forall_cons in H as [_ ?].
    + destruct Hin as [-> Hnot]. split; [done|].
      intros H. apply Hnot. by apply Forall_cons in H as [? _].
Qed.

(** X18.  When every class index of the detections is a valid index of
    [class_names], [get_prediction_class_records] returns a dictionary that
    has, for every class with detections, exactly the records of that
    class, by descending score and in detection order among equal scores,
    and has no entry (not an empty list) for a class without
    detections. *)
Theorem get_prediction_class_records_sorted (class_names : list string)
    (images : list (string * detections)) :
  Forall (valid_image class_names) images ->
  sorted_index class_names images.
Proof.
  intros Hvalid. unfold sorted_index, get_prediction_class_records.
  pose proof (record_images_run class_names images [] (fun _ => [])
                (fun _ => eq_refl)) as Hrun.
  destruct (rfold (record_image class_names) images []) as [d|e].
  - destruct Hrun as [_ Hget]. exists (sort_all d). split; [done|].
    intros c. rewrite sort_all_get, Hget. cbn [app].
    destruct (nonempty_opt (class_records class_names c images)) as [l|] eqn:E.
    + apply nonempty_opt_Some in E as [-> Hne]. cbn.
      split; [|split; [|split]].
      * intros E. apply Hne. apply Permutation_nil_r.
        rewrite <- E. symmetry. apply sort_desc_perm.
      * apply sort_desc_descending.
      * apply sort_desc_perm.
      * apply sort_desc_stable.
    + by apply nonempty_opt_None in E.
  - by destruct Hrun as [_ Hnot].
Qed.

(** X19.  A detection whose class index is not an index of [class_names]
    makes [get_prediction_class_records] raise [IndexError]. *)
Theorem get_prediction_class_records_bad_class (class_names : list string)
    (images : list (string * detections)) :
  ~ Forall (valid_image class_names) images ->
  get_prediction_class_records class_names images = Raise IndexError.
Proof.
  intros Hbad. unfold get_prediction_class_records.
  pose proof (record_images_run class_names images [] (fun _ => [])
                (fun _ => eq_refl)) as Hrun.
  destruct (rfold (record_image class_names) images []) as [d|e].
  - by destruct Hrun as [? _].
  - by destruct Hrun as [-> _].
Qed.

Lemma get_prediction_class_records_sorted_witness :
  sorted_index ClassExamples.class_names PredictionExamples.images.
Proof.
  apply (get_prediction_class_records_sorted ClassExamples.class_names
           PredictionExamples.images).
  repeat constructor; eexists; reflexivity.
Defined.

Lemma get_prediction_class_records_bad_class_witness :
  get_prediction_class_records ClassExamples.class_names
    PredictionExamples.bad_images = Raise IndexError.
Proof.
  apply (get_prediction_class_records_bad_class ClassExamples.class_names
           PredictionExamples.bad_images).
  intros H. apply Forall_cons in H as [H _]. cbn in H.
  apply Forall_cons in H as [_ H]. apply Forall_cons in H as [[x Hx] _].
  discriminate Hx.
Defined.

(** ** [predict] *)

Lemma keep_rows_run thr i n rows : forall boxes classes scores,
  (1 <= i <= n)%nat ->
  Forall (fun bbox : list Q => is_Some (bbox !! 4%nat)) rows ->
  length boxes = length scores -> length classes = length scores ->
  Forall (fun c => (0 <= c < Z.of_nat n)%Z) classes ->
  Forall (fun b : list Q => length b = 4%nat) boxes ->
  exists boxes' classes' scores',
    rfold (keep_bbox thr i) rows (boxes, classes, scores)
    = Ok (boxes', classes', scores') /\
    length boxes' = length scores' /\ length classes' = length scores' /\
    scores' = scores ++ filter (fun s => Qltb thr s = true)
                          (omap (fun bbox : list Q => bbox !! 4%nat) rows) /\
    Forall (fun c => (0 <= c < Z.of_nat n)%Z) classes' /\
    Forall (fun b : list Q => length b = 4%nat) boxes'.
Proof.
  induction rows as [|bbox rows IH]; intros boxes classes scores Hi Hrows Hb Hc Hcl Hbx.
  - exists boxes, classes, scores. cbn. by rewrite app_nil_r.
  - apply Forall_cons in Hrows as [[s Hs] Hrows].
    cbn [rfold keep_bbox]. rewrite Hs.
    cbn [omap list_omap]. rewrite Hs. rewrite filter_cons.
    destruct (Qltb thr s) eqn:E.
    + rewrite decide_True by done.
      destruct (IH (boxes ++ [take 4 bbox]) (classes ++ [(Z.of_nat i - 1)%Z])
                  (scores ++ [s])) as (b' & c' & s' & Hrun & H1 & H2 & H3 & H4 & H5);
        try done.
      * rewrite !length_app. simpl. lia.
      * rewrite !length_app. simpl. lia.
      * apply Forall_app. split; [done|]. constructor; [lia|constructor].
      * apply Forall_app. split; [done|]. constructor; [|constructor].
        rewrite length_take. apply lookup_lt_Some in Hs. lia.
      * exists b', c', s'. split; [exact Hrun|].
        split; [exact H1|]. split; [exact H2|]. split; [|by split].
        by rewrite H3, <- app_assoc.
    + rewrite decide_False by done.
      by apply IH.
Qed.

Lemma keep_classes_run results thr n keys : forall boxes classes scores,
  Forall (fun i => (1 <= i <= n)%nat /\
                   exists rows, results i = Some rows /\
                     Forall (fun bbox : list Q => is_Some (bbox !! 4%nat)) rows)
         keys ->
  length boxes = length scores -> length classes = length scores ->
  Forall (fun c => (0 <= c < Z.of_nat n)%Z) classes ->
  Forall (fun b : list Q => length b = 4%nat) boxes ->
  exists boxes' classes' scores',
    rfold (keep_class results thr) keys (boxes, classes, scores)
    = Ok (boxes', classes', scores') /\
    length boxes' = length scores' /\ length classes' = length scores' /\
    scores' = scores ++ filter (fun s => Qltb thr s = true)
                (flat_map (fun i => omap (fun bbox : list Q => bbox !! 4%nat)
                                         (default [] (results i))) keys) /\
    Forall (fun c => (0 <= c < Z.of_nat n)%Z) classes' /\
    Forall (fun b : list Q => length b = 4%nat) boxes'.
Proof.
  induction keys as [|i keys IH]; intros boxes classes scores Hkeys Hb Hc Hcl Hbx.
  - exists boxes, classes, scores. cbn. by rewrite app_nil_r.
  - apply Forall_cons in Hkeys as [[Hi (rows & Hres & Hrows)] Hkeys].
    cbn [rfold]. unfold keep_class at 1. rewrite Hres.
    destruct (keep_rows_run thr i n rows boxes classes scores)
      as (b1 & c1 & s1 & Hrun1 & H1 & H2 & H3 & H4 & H5); try done.
    rewrite Hrun1.
    destruct (IH b1 c1 s1) as (b' & c' & s' & Hrun & G1 & G2 & G3 & G4 & G5);
      try done.
    exists b', c', s'. split; [exact Hrun|].
    split; [exact G1|]. split; [exact G2|]. split; [|by split].
    rewrite G3, H3. cbn [flat_map]. rewrite Hres. cbn [default].
    by rewrite filter_app, <- app_assoc.
Qed.

(** X20.  When the results hold every class key from 1 to [num_classes]
    and every row has a score, [predict] returns three lists of equal
    length: exactly the scores above the threshold, in the order of the
    rows, with 0-based classes below [num_classes] and boxes of four
    coordinates. *)
Theorem predict_filters_by_score (results : nat -> option (list (list Q)))
    (num_classes : nat) (score_threshold : Q) :
  (forall i, (1 <= i <= num_classes)%nat ->
     exists rows, results i = Some rows /\
       Forall (fun bbox : list Q => is_Some (bbox !! 4%nat)) rows) ->
  exists out,
    predict_lists results num_classes score_threshold = Ok out /\
    filters_detections results num_classes score_threshold out.
Proof.
  intros Hres. unfold predict_lists.
  destruct (keep_classes_run results score_threshold num_classes
              (range 1 (num_classes + 1)) [] [] [])
    as (b & c & s & Hrun & H1 & H2 & H3 & H4 & H5); try done.
  { apply Forall_forall. intros i Hi. unfold range in Hi.
    apply elem_of_seq in Hi. split; [lia|]. apply Hres. lia. }
  exists (b, c, s). split; [exact Hrun|].
  split; [exact H1|]. split; [exact H2|]. split; [exact H3|by split].
Qed.

Lemma predict_filters_by_score_witness :
  exists out,
    predict_lists PredictExamples.results 2 (3 # 10) = Ok out /\
    filters_detections PredictExamples.results 2 (3 # 10) out.
Proof.
  apply (predict_filters_by_score PredictExamples.results 2 (3 # 10)).
  intros [|[|[|i]]] Hi; try lia.
  - eexists. split; [reflexivity|]. repeat constructor; eexists; reflexivity.
  - eexists. split; [reflexivity|]. constructor.
Defined.

(** ** [annotation_parse] *)

Lemma py_index_elem {A} (l : list A) i x : py_index l i = Some x -> x ∈ l.
Proof.
  unfold py_index. destruct (0 <=? i)%Z.
  - apply list_elem_of_lookup_2.
  - destruct (- Z.of_nat (length l) <=? i)%Z; [|done].
    apply list_elem_of_lookup_2.
Qed.

Section ReaderProofs.

Variable py_int : string -> option Z.

(** The loop over the boxes of a line: either every box is valid and each
    class got its entries appended, or the loop raised. *)
Lemma read_box_raise names box e :
  read_box py_int names box = inl e -> e = ValueError \/ e = IndexError.
Proof.
  unfold read_box. destruct (py_int _) as [k|]; [|intros [= <-]; by left].
  destruct (py_index names k); [done|]. intros [= <-]. by right.
Qed.

Lemma record_boxes_run names img boxes : forall bm cls R,
  (forall c, Dict.get cls c = nonempty_opt (R c)) ->
  (forall c, is_Some (Dict.get cls c) -> c ∈ names) ->
  match efold (record_box py_int names img) boxes (bm, cls) with
  | inr (bm', cls') =>
      Forall (valid_box py_int names) boxes /\
      (forall c, Dict.get cls' c
                 = nonempty_opt (R c ++ omap (entry_of py_int names c img) boxes)) /\
      (forall c, is_Some (Dict.get cls' c) -> c ∈ names)
  | inl e =>
      (e = ValueError \/ e = IndexError) /\
      ~ Forall (valid_box py_int names) boxes
  end.
Proof.
  induction boxes as [|box boxes IH]; intros bm cls R Hcls Hin.
  - cbn [efold omap list_omap]. split; [constructor|]. split; [|done].
    intros c. by rewrite app_nil_r.
  - cbn [efold]. unfold record_box at 1.
    destruct (read_box py_int names box) as [e|[name coord]] eqn:Hread.
    + split; [by eapply read_box_raise|].
      intros H. apply Forall_cons in H as [[r Hr] _]. congruence.
    + assert (Hname : name ∈ names).
      { unfold read_box in Hread.
        destruct (py_int _) as [k|]; [|done].
        destruct (py_index names k) as [n|] eqn:Hk; [|done].
        injection Hread as <- _. by eapply py_index_elem. }
      set (cls1 := match Dict.get cls name with
                   | Some l => Dict.set cls name (l ++ [(img, coord)])
                   | None => Dict.set cls name [(img, coord)]
                   end).
      assert (Hcls1 : forall c, Dict.get cls1 c
                = nonempty_opt (R c ++ omap (entry_of py_int names c img) [box])).
      { intros c. cbn [omap list_omap]. unfold entry_of. rewrite Hread.
        destruct (String.eqb_spec name c) as [<-|Hne].
        - rewrite nonempty_opt_snoc. unfold cls1. rewrite Hcls.
          destruct (nonempty_opt (R name)) as [l|] eqn:E.
          + apply nonempty_opt_Some in E as [-> _]. by rewrite dict_get_set_eq.
          + apply nonempty_opt_None in E. rewrite E. by rewrite dict_get_set_eq.
        - rewrite app_nil_r, <- Hcls. unfold cls1.
          destruct (Dict.get cls name); by rewrite dict_get_set_ne. }
      assert (Hin1 : forall c, is_Some (Dict.get cls1 c) -> c ∈ names).
      { intros c. destruct (string_dec name c) as [<-|Hne]; [done|].
        unfold cls1. destruct (Dict.get cls name);
          rewrite dict_get_set_ne by done; apply Hin. }
      specialize (IH (Dict.set bm coord name) cls1
                    (fun c => R c ++ omap (entry_of py_int names c img) [box])
                    Hcls1 Hin1).
      fold cls1.
      destruct (efold (record_box py_int names img) boxes
                  (Dict.set bm coord name, cls1)) as [e|[bm' cls']].
      * destruct IH as [He Hnot]. split; [done|].
        intros H. apply Hnot. by apply Forall_cons in H as [_ ?].
      * destruct IH as (Hall & Hget & Hin'). split; [|split; [|done]].
        -- constructor; [by eexists|done].
        -- intros c. rewrite Hget, <- app_assoc. do 2 f_equal.
           by rewrite <- omap_app.
Qed.

Lemma record_lines_run names lines : forall ann cls R (P : string -> Prop),
  (forall c, Dict.get cls c = nonempty_opt (R c)) ->
  (forall c, is_Some (Dict.get cls c) -> c ∈ names) ->
  (forall image, is_Some (Dict.get ann image) <-> P image) ->
  match efold (record_line py_int names) lines (ann, cls) with
  | inr (ann', cls') =>
      Forall (valid_line py_int names) lines /\
      (forall c, Dict.get cls' c
                 = nonempty_opt (R c ++ class_entries py_int names c lines)) /\
      (forall c, is_Some (Dict.get cls' c) -> c ∈ names) /\
      (forall image, is_Some (Dict.get ann' image)
                     <-> P image \/ exists line, line ∈ lines
                                                 /\ line_image line = image)
  | inl e =>
      (e = ValueError \/ e = IndexError) /\
      ~ Forall (valid_line py_int names) lines
  end.
Proof.
  induction lines as [|line lines IH]; intros ann cls R P Hcls Hin Hann.
  - cbn [efold]. split; [constructor|]. split; [|split; [done|]].
    + intros c. unfold class_entries. cbn. by rewrite app_nil_r.
    + intros image. rewrite Hann. split; [by left|].
      intros [?|(l & Hl & _)]; [done|]. by apply elem_of_nil in Hl.
  - cbn [efold]. unfold record_line at 1. cbn zeta.
    pose proof (record_boxes_run names (line_image line) (line_boxes line)
                  [] cls R Hcls Hin) as Hb.
    change (@pair (Dict.dict string) (Dict.dict (list (string * string))) [] cls)
      with (@pair (list (string * string))
              (Dict.dict (list (string * string))) [] cls) in Hb.
    destruct (efold (record_box py_int names (line_image line))
                (line_boxes line)
                (@pair (list (string * string))
                   (Dict.dict (list (string * string))) [] cls))
      as [e|[bm cls1]].
    + destruct Hb as [He Hnot]. split; [done|].
      intros H. apply Hnot. by apply Forall_cons in H as [? _].
    + destruct Hb as (Hall & Hget & Hin1).
      specialize (IH (Dict.set ann (line_image line) bm) cls1
        (fun c => R c ++ omap (entry_of py_int names c (line_image line))
                              (line_boxes line))
        (fun image => P image \/ line_image line = image) Hget Hin1).
      destruct (efold (record_line py_int names) lines
                  (Dict.set ann (line_image line) bm, cls1)) as [e|[ann' cls']].
      * destruct IH as [He Hnot].
        { intros image.
          destruct (string_dec (line_image line) image) as [<-|Hne].
          - rewrite dict_get_set_eq. split; [by right|done].
          - rewrite dict_get_set_ne by done. rewrite Hann.
            split; [by left|]. by intros [?|?]. }
        split; [done|].
        intros H. apply Hnot. by apply Forall_cons in H as [_ ?].
      * destruct IH as (Hall' & Hget' & Hin' & Hann').
        { intros image. destruct (string_dec (line_image line) image) as [<-|Hne].
          - rewrite dict_get_set_eq. split; [by right|done].
          - rewrite dict_get_set_ne by done. rewrite Hann.
            split; [by left|]. by intros [?|?]. }
        split; [by constructor|]. split; [|split; [done|]].
        -- intros c. rewrite Hget'. unfold class_entries. cbn [flat_map].
           by rewrite <- app_assoc.
        -- intros image. rewrite Hann'. split.
           ++ intros [[?|<-]|(l & Hl & Himg)]; [by left| |].
              ** right. exists line. split; [left|done].
              ** right. exists l. split; [by right|done].
           ++ intros [?|(l & Hl & Himg)]; [by left; left|].
              apply elem_of_cons in Hl as [->|Hl]; [by left; right|].
              right. by exists l.
Qed.

Lemma annotation_parse_run names lines :
  match annotation_parse py_int names lines with
  | inr (ann, cls) =>
      Forall (valid_line py_int names) lines /\
      (forall c, Dict.get cls c
                 = nonempty_opt (class_entries py_int names c lines)) /\
      (forall c, is_Some (Dict.get cls c) -> c ∈ names) /\
      (forall image, is_Some (Dict.get ann image)
                     <-> exists line, line ∈ lines /\ line_image line = image)
  | inl e =>
      (e = ValueError \/ e = IndexError) /\
      ~ Forall (valid_line py_int names) lines
  end.
Proof.
  assert (Hrun := record_lines_run names lines [] [] (fun _ => [])
                    (fun _ => False)).
  cbv beta in Hrun.
  assert (H1 : forall c, Dict.get (@nil (string * list (string * string))) c
                         = nonempty_opt []) by done.
  assert (H2 : forall c, is_Some (Dict.get (@nil (string * list (string * string))) c)
                         -> c ∈ names) by (by intros c [? ?]).
  assert (H3 : forall image,
             is_Some (Dict.get (@nil (string * Dict.dict string)) image) <-> False).
  { intros image. cbn. split; [by intros [? ?]|done]. }
  specialize (Hrun H1 H2 H3). clear H1 H2 H3.
  change (annotation_parse py_int names lines)
    with (efold (record_line py_int names) lines
            (@pair (Dict.dict (Dict.dict string))
               (Dict.dict (list (string * string))) [] [])).
  destruct (efold (record_line py_int names) lines
              (@pair (Dict.dict (Dict.dict string))
                 (Dict.dict (list (string * string))) [] []))
    as [e|[ann cls]]; [exact Hrun|].
  destruct Hrun as (Hall & Hget & Hin & Hann).
  split; [done|]. split; [exact Hget|]. split; [done|].
  intros image. rewrite Hann. split; [by intros [?|?]|by right].
Qed.

(** X21.  When the class field of every box is an integer that indexes
    [class_names], [annotation_parse] returns an image record for exactly
    the images the lines name and, for every class that has boxes, the
    list of its boxes in file order; a class without boxes has no entry,
    so no class list is empty, and every class recorded is one of
    [class_names]. *)
Theorem annotation_parse_indexes (class_names : list string)
    (lines : list string) :
  Forall (valid_line py_int class_names) lines ->
  indexes_annotations py_int class_names lines.
Proof.
  intros Hvalid. unfold indexes_annotations.
  pose proof (annotation_parse_run class_names lines) as Hrun.
  destruct (annotation_parse py_int class_names lines) as [e|[ann cls]];
    [by destruct Hrun as [_ ?]|].
  destruct Hrun as (_ & Hget & Hin & Hann).
  exists ann, cls. split; [done|]. split; [exact Hann|].
  intros c. specialize (Hget c).
  destruct (Dict.get cls c) as [l|] eqn:E.
  - symmetry in Hget. apply nonempty_opt_Some in Hget as [-> Hne].
    split; [done|]. split; [|done]. apply Hin. by rewrite E.
  - symmetry in Hget. by apply nonempty_opt_None in Hget.
Qed.

(** X22.  One box whose class field is not an integer index of
    [class_names] makes [annotation_parse] raise [ValueError] (the field
    is not an integer) or [IndexError] (it is not an index): no record of
    the file is returned. *)
Theorem annotation_parse_bad_box (class_names : list string)
    (lines : list string) :
  ~ Forall (valid_line py_int class_names) lines ->
  annotation_parse py_int class_names lines = inl ValueError \/
  annotation_parse py_int class_names lines = inl IndexError.
Proof.
  intros Hbad.
  pose proof (annotation_parse_run class_names lines) as Hrun.
  destruct (annotation_parse py_int class_names lines) as [e|[ann cls]].
  - destruct Hrun as [[->| ->] _]; [by left|by right].
  - by destruct Hrun as (Hall & _).
Qed.

End ReaderProofs.

Ltac compute_boxes :=
  repeat match goal with
         | |- context [line_boxes ?l] =>
             let v := eval vm_compute in (line_boxes l) in
             change (line_boxes l) with v
         | H : context [line_boxes ?l] |- _ =>
             let v := eval vm_compute in (line_boxes l) in
             change (line_boxes l) with v in H
         end.

Lemma annotation_parse_indexes_witness :
  indexes_annotations ReaderExamples.int ReaderExamples.class_names
    ReaderExamples.lines.
Proof.
  apply (annotation_parse_indexes ReaderExamples.int
           ReaderExamples.class_names ReaderExamples.lines).
  unfold ReaderExamples.lines.
  repeat (apply Forall_cons; split); try apply Forall_nil;
    unfold valid_line; compute_boxes;
    repeat (apply Forall_cons; split); try apply Forall_nil;
    eexists; vm_compute; reflexivity.
Defined.

Lemma annotation_parse_bad_box_witness :
  annotation_parse ReaderExamples.int ReaderExamples.class_names
    ReaderExamples.bad_lines = inl ValueError \/
  annotation_parse ReaderExamples.int ReaderExamples.class_names
    ReaderExamples.bad_lines = inl IndexError.
Proof.
  apply (annotation_parse_bad_box ReaderExamples.int
           ReaderExamples.class_names ReaderExamples.bad_lines).
  intros H. unfold ReaderExamples.bad_lines in H.
  apply Forall_cons in H as [H _]. unfold valid_line in H. compute_boxes.
  apply Forall_cons in H as [[r Hr] _]. vm_compute in Hr. discriminate Hr.
Defined.

(** ** The fields of a box *)

Lemma split_on_nonempty sep s : split_on sep s <> [].
Proof.
  destruct s as [|c s]; [done|]. cbn [split_on].
  destruct (Ascii.eqb c sep); [done|]. by destruct (split_on sep s).
Qed.

Lemma join_cons2 sep x y l :
  join sep (x :: y :: l) = (x ++ sep ++ join sep (y :: l))%string.
Proof. reflexivity. Qed.

Lemma join_split sep s : join (String sep EmptyString) (split_on sep s) = s.
Proof.
  induction s as [|c s IH]; [done|]. cbn [split_on].
  destruct (Ascii.eqb_spec c sep) as [->|Hne].
  - destruct (split_on sep s) as [|w ws] eqn:E;
      [by apply split_on_nonempty in E|].
    rewrite join_cons2, IH. reflexivity.
  - destruct (split_on sep s) as [|w ws] eqn:E;
      [by apply split_on_nonempty in E|].
    rewrite <- IH. by destruct ws.
Qed.

Lemma string_app_assoc (a b c : string) :
  ((a ++ b) ++ c = a ++ b ++ c)%string.
Proof. induction a as [|x a IH]; [done|]. cbn. by rewrite IH. Qed.

Lemma join_removelast sep l d :
  (2 <= length l)%nat ->
  (join sep (removelast l) ++ sep ++ List.last l d)%string = join sep l.
Proof.
  induction l as [|x l IH]; [simpl; lia|].
  intros Hlen. destruct l as [|y l]; [simpl in Hlen; lia|].
  destruct l as [|z l].
  - reflexivity.
  - change (removelast (x :: y :: z :: l)) with (x :: removelast (y :: z :: l)).
    change (List.last (x :: y :: z :: l) d) with (List.last (y :: z :: l) d).
    rewrite join_cons2.
    assert (Hrl : exists a r, removelast (y :: z :: l) = a :: r).
    { change (removelast (y :: z :: l)) with (y :: removelast (z :: l)). eauto. }
    destruct Hrl as (a & r & Hrl). rewrite Hrl, join_cons2, <- Hrl.
    rewrite !string_app_assoc. by rewrite IH by (simpl; lia).
Qed.

Section BoxFields.

Variable py_int : string -> option Z.

(** X23.  A box with at least one comma: the coordinate string that
    [annotation_parse] records and the class field, joined by a comma, are
    the box; the class name is [class_names] at the integer of the
    field. *)
Theorem read_box_round_trip (class_names : list string)
    (box class_name coordinate : string) :
  read_box py_int class_names box = inr (class_name, coordinate) ->
  (2 <= length (split_on ","%char box))%nat ->
  splits_box py_int class_names box class_name coordinate.
Proof.
  unfold read_box, splits_box. intros Hread Hlen.
  destruct (py_int (List.last (split_on ","%char box) EmptyString)) as [k|] eqn:Hk;
    [|done].
  destruct (py_index class_names k) as [name|] eqn:Hname; [|done].
  injection Hread as <- <-.
  exists (List.last (split_on ","%char box) EmptyString), k.
  split; [done|]. split; [done|]. split; [done|].
  rewrite (join_removelast ","%string) by done.
  apply (join_split ","%char).
Qed.

End BoxFields.

Lemma read_box_round_trip_witness :
  splits_box ReaderExamples.int ReaderExamples.class_names
    "5,6,7,8,1" "dog" "5,6,7,8".
Proof.
  apply (read_box_round_trip ReaderExamples.int ReaderExamples.class_names
           "5,6,7,8,1" "dog" "5,6,7,8").
  - reflexivity.
  - vm_compute. lia.
Defined.

(** ** [transform_gt_record] *)

Lemma index_of_Some l x : forall i,
  index_of l x = Some i ->
  l !! i = Some x /\ forall j, (j < i)%nat -> l !! j <> Some x.
Proof.
  induction l as [|y l IH]; intros i Hi; [done|]. cbn [index_of] in Hi.
  destruct (String.eqb_spec y x) as [->|Hne].
  - injection Hi as <-. split; [done|]. intros j Hj. lia.
  - destruct (index_of l x) as [k|] eqn:E; [|done]. injection Hi as <-.
    destruct (IH k eq_refl) as [Hk Hfirst]. split; [done|].
    intros [|j] Hj; cbn; [congruence|]. apply Hfirst. lia.
Qed.

Lemma index_of_elem l x : x ∈ l -> is_Some (index_of l x).
Proof.
  induction l as [|y l IH]; [by intros ?%elem_of_nil|].
  intros Hx. cbn [index_of]. destruct (String.eqb_spec y x) as [->|Hne]; [done|].
  apply elem_of_cons in Hx as [->|Hx]; [done|].
  destruct (IH Hx) as [k ->]. done.
Qed.

Lemma index_of_None l x : index_of l x = None -> ~ x ∈ l.
Proof.
  intros E Hx. apply index_of_elem in Hx as [k Hk]. congruence.
Qed.

Lemma repeat_snoc {A} (x : A) n : repeat x n ++ [x] = repeat x (S n).
Proof. induction n as [|n IH]; [done|]. cbn. by rewrite IH. Qed.

Section TransformProofs.

Variable py_int : string -> option Z.

Lemma transforms_items_snoc names pre gb gc gs k name b cls :
  transforms_items py_int names pre (gb, gc, gs) ->
  map_or_raise py_int (split_on ","%char k) = Some b ->
  names !! cls = Some name ->
  (forall j, (j < cls)%nat -> names !! j <> Some name) ->
  transforms_items py_int names (pre ++ [(k, name)])
    (gb ++ [b], gc ++ [cls], gs ++ [1]).
Proof.
  intros (H1 & H2 & H3 & H4) Hb Hname Hfirst.
  split; [|split; [|split]].
  - rewrite !length_app. simpl. lia.
  - rewrite !length_app. simpl. lia.
  - rewrite H3, length_app. cbn [length]. rewrite Nat.add_1_r.
    apply repeat_snoc.
  - intros i k' name' Hi.
    apply lookup_snoc_Some in Hi as [[Hlt Hi]|[-> Heq]].
    + destruct (H4 i k' name' Hi) as (c' & b' & G1 & G2 & G3 & G4 & G5).
      exists c', b'.
      rewrite !lookup_app_l by (apply lookup_lt_Some in G1, G4; lia).
      done.
    + injection Heq as <- <-. exists cls, b.
      split; [by apply list_lookup_middle|].
      split; [done|]. split; [done|].
      split; [by apply list_lookup_middle|done].
Qed.

Lemma transform_items_run names items : forall pre gb gc gs,
  transforms_items py_int names pre (gb, gc, gs) ->
  match efold (transform_box py_int names) items (gb, gc, gs) with
  | inr out =>
      Forall (valid_item py_int names) items /\
      transforms_items py_int names (pre ++ items) out
  | inl e => e = ValueError /\ ~ Forall (valid_item py_int names) items
  end.
Proof.
  induction items as [|[k name] items IH]; intros pre gb gc gs Hinv.
  - cbn [efold]. split; [constructor|]. by rewrite app_nil_r.
  - cbn [efold]. unfold transform_box at 1.
    destruct (map_or_raise py_int (split_on ","%char k)) as [b|] eqn:Hb.
    + destruct (index_of names name) as [cls|] eqn:Hcls.
      * destruct (index_of_Some _ _ _ Hcls) as [Hname Hfirst].
        pose proof (transforms_items_snoc _ _ _ _ _ _ _ _ _
                      Hinv Hb Hname Hfirst) as Hnext.
        specialize (IH _ _ _ _ Hnext).
        destruct (efold (transform_box py_int names) items
                    (gb ++ [b], gc ++ [cls], gs ++ [1])) as [e|out].
        -- destruct IH as [-> Hnot].
           split; [done|]. intros H. apply Hnot.
           by apply Forall_cons in H as [_ ?].
        -- destruct IH as [Hall Hout].
           split.
           ++ constructor; [|done]. split; cbn; [by rewrite Hb|].
              by apply list_elem_of_lookup_2 in Hname.
           ++ by rewrite <- app_assoc in Hout.
      * split; [done|]. intros H. apply Forall_cons in H as [[_ Hn] _].
        by apply index_of_None in Hcls.
    + split; [done|]. intros H. apply Forall_cons in H as [[Hs _] _].
      cbn in Hs. rewrite Hb in Hs. by destruct Hs.
Qed.

Lemma map_or_raise_length {A B} (f : A -> option B) l : forall b,
  map_or_raise f l = Some b -> length b = length l.
Proof.
  induction l as [|x l IH]; intros b Hb; cbn [map_or_raise] in Hb.
  - by injection Hb as <-.
  - destruct (f x) as [y|]; [|done].
    destruct (map_or_raise f l) as [b'|]; [|done].
    injection Hb as <-. cbn. by rewrite (IH b').
Qed.

Lemma np_array_rows_run rows :
  match np_array_rows rows with
  | inr boxes => boxes = rows /\ same_length rows
  | inl e => e = ValueError /\ ~ same_length rows
  end.
Proof.
  destruct rows as [|row rest]; cbn [np_array_rows].
  - split; [done|]. by intros r1 r2 ?%elem_of_nil.
  - destruct (forallb _ rest) eqn:E.
    + split; [done|].
      assert (Hall : forall r, r ∈ row :: rest -> length r = length row).
      { intros r Hr. apply elem_of_cons in Hr as [->|Hr]; [done|].
        apply list_elem_of_In in Hr.
        apply (proj1 (forallb_forall _ _) E) in Hr. by apply Nat.eqb_eq. }
      intros r1 r2 H1 H2. by rewrite (Hall r1 H1), (Hall r2 H2).
    + split; [done|]. intros Hsame.
      assert (forallb (fun r => (length r =? length row)%nat) rest = true);
        [|congruence].
      apply forallb_forall. intros r Hr. apply Nat.eqb_eq.
      apply Hsame; [right; by apply list_elem_of_In|left].
Qed.

Lemma rows_field_count names items gb gc gs :
  transforms_items py_int names items (gb, gc, gs) ->
  same_field_count items <-> same_length gb.
Proof.
  intros (H1 & _ & _ & H4).
  assert (Hrow : forall i r, gb !! i = Some r ->
            exists k name, items !! i = Some (k, name)
                           /\ length r = length (split_on ","%char k)).
  { intros i r Hr.
    destruct (lookup_lt_is_Some_2 items i) as [[k name] Hi].
    { apply lookup_lt_Some in Hr. lia. }
    destruct (H4 i k name Hi) as (cls & b & _ & _ & _ & Hb & Hsplit).
    exists k, name. split; [done|].
    rewrite Hr in Hb. injection Hb as ->.
    by apply map_or_raise_length in Hsplit. }
  assert (Hitem : forall i k name, items !! i = Some (k, name) ->
            exists r, gb !! i = Some r
                      /\ length r = length (split_on ","%char k)).
  { intros i k name Hi.
    destruct (H4 i k name Hi) as (cls & b & _ & _ & _ & Hb & Hsplit).
    exists b. split; [done|]. by apply map_or_raise_length in Hsplit. }
  split.
  - intros Hsame r1 r2 Hr1 Hr2.
    apply list_elem_of_lookup in Hr1 as [i1 Hr1].
    apply list_elem_of_lookup in Hr2 as [i2 Hr2].
    destruct (Hrow i1 r1 Hr1) as (k1 & n1 & Hi1 & ->).
    destruct (Hrow i2 r2 Hr2) as (k2 & n2 & Hi2 & ->).
    eapply Hsame; by eapply list_elem_of_lookup_2.
  - intros Hsame k1 n1 k2 n2 Hk1 Hk2.
    apply list_elem_of_lookup in Hk1 as [i1 Hk1].
    apply list_elem_of_lookup in Hk2 as [i2 Hk2].
    destruct (Hitem i1 k1 n1 Hk1) as (r1 & Hr1 & <-).
    destruct (Hitem i2 k2 n2 Hk2) as (r2 & Hr2 & <-).
    apply Hsame; by eapply list_elem_of_lookup_2.
Qed.

Lemma transform_gt_record_run names items :
  match transform_gt_record py_int (Some items) names with
  | inr out =>
      Forall (valid_item py_int names) items /\
      same_field_count items /\
      transforms_items py_int names items out
  | inl e =>
      e = ValueError /\
      (~ Forall (valid_item py_int names) items \/
       (Forall (valid_item py_int names) items /\ ~ same_field_count items))
  end.
Proof.
  unfold transform_gt_record.
  destruct items as [|item items].
  { cbn. split; [constructor|]. split; [|done].
    by intros k1 n1 k2 n2 ?%elem_of_nil. }
  cbn [length Nat.eqb].
  pose proof (transform_items_run names (item :: items) [] [] [] []) as Hrun.
  cbn [app] in Hrun.
  destruct (efold (transform_box py_int names) (item :: items) ([], [], []))
    as [e|[[gb gc] gs]].
  - destruct Hrun as [-> Hnot]; [|by split; [|left]].
    cbn. split; [done|]. split; [done|]. split; [done|]. by intros i k name ?.
  - destruct Hrun as [Hall Hout].
    { cbn. split; [done|]. split; [done|]. split; [done|].
      by intros i k name ?. }
    pose proof (rows_field_count names (item :: items) gb gc gs Hout) as Hiff.
    pose proof (np_array_rows_run gb) as Hnp.
    destruct (np_array_rows gb) as [e|boxes].
    + destruct Hnp as [-> Hnot]. split; [done|]. right. split; [done|].
      intros Hsame. by apply Hnot, Hiff.
    + destruct Hnp as [-> Hsame]. split; [done|]. split; [by apply Hiff|done].
Qed.

(** X24.  When the coordinate fields of every item are integers, every
    class name is one of [class_names] and all coordinate strings have
    the same number of fields, [transform_gt_record] returns one box, one
    class and the score 1.0 per item, in the order of the items; the
    class is the first position of the item's class name in
    [class_names], so [class_names] at the class is the name again. *)
Theorem transform_gt_record_items (class_names : list string)
    (items : Dict.dict string) :
  Forall (valid_item py_int class_names) items ->
  same_field_count items ->
  exists out,
    transform_gt_record py_int (Some items) class_names = inr out /\
    transforms_items py_int class_names items out.
Proof.
  intros Hvalid Hsame.
  pose proof (transform_gt_record_run class_names items) as Hrun.
  destruct (transform_gt_record py_int (Some items) class_names) as [e|out].
  - by destruct Hrun as [_ [?|[_ ?]]].
  - exists out. by destruct Hrun as (_ & _ & ?).
Qed.

(** X25.  An item whose class name is not in [class_names], or with a
    coordinate field that is not an integer, makes [transform_gt_record]
    raise [ValueError]. *)
Theorem transform_gt_record_value_error (class_names : list string)
    (items : Dict.dict string) :
  ~ Forall (valid_item py_int class_names) items ->
  transform_gt_record py_int (Some items) class_names = inl ValueError.
Proof.
  intros Hbad. pose proof (transform_gt_record_run class_names items) as Hrun.
  destruct (transform_gt_record py_int (Some items) class_names) as [e|out].
  - by destruct Hrun as [-> _].
  - by destruct Hrun as [? _].
Qed.

(** X27.  Items that are all readable but whose coordinate strings differ
    in their number of fields: the loop of lines 195-201 passes and the
    conversion of the boxes to an array at line 203 raises [ValueError]
    (NumPy 1.24 and later). *)
Theorem transform_gt_record_ragged_boxes (class_names : list string)
    (items : Dict.dict string) :
  Forall (valid_item py_int class_names) items ->
  ~ same_field_count items ->
  transform_gt_record py_int (Some items) class_names = inl ValueError.
Proof.
  intros Hvalid Hbad.
  pose proof (transform_gt_record_run class_names items) as Hrun.
  destruct (transform_gt_record py_int (Some items) class_names) as [e|out].
  - by destruct Hrun as [-> _].
  - by destruct Hrun as (_ & ? & _).
Qed.

End TransformProofs.

Lemma transform_gt_record_items_witness :
  exists out,
    transform_gt_record ReaderExamples.int (Some ReaderExamples.items)
      ReaderExamples.class_names = inr out /\
    transforms_items ReaderExamples.int ReaderExamples.class_names
      ReaderExamples.items out.
Proof.
  apply (transform_gt_record_items ReaderExamples.int
           ReaderExamples.class_names ReaderExamples.items).
  - unfold ReaderExamples.items, ReaderExamples.class_names.
    repeat (apply Forall_cons_2); try apply Forall_nil_2.
    + split; [eexists; vm_compute; reflexivity|].
      cbn. apply elem_of_cons; right; apply elem_of_cons; by left.
    + split; [eexists; vm_compute; reflexivity|].
      cbn. apply elem_of_cons; by left.
  - intros k1 n1 k2 n2 H1 H2. unfold ReaderExamples.items in H1, H2.
    apply elem_of_cons in H1 as [H1|H1];
      [|apply elem_of_cons in H1 as [H1|H1]; [|by apply elem_of_nil in H1]];
      (apply elem_of_cons in H2 as [H2|H2];
        [|apply elem_of_cons in H2 as [H2|H2]; [|by apply elem_of_nil in H2]]);
      injection H1 as -> _; injection H2 as -> _; reflexivity.
Defined.

Lemma transform_gt_record_ragged_boxes_witness :
  transform_gt_record ReaderExamples.int
    (Some [("1,2,3,4"%string, "dog"%string); ("5,6,7"%string, "car"%string)])
    ReaderExamples.class_names
  = inl ValueError.
Proof.
  apply (transform_gt_record_ragged_boxes ReaderExamples.int
           ReaderExamples.class_names
           [("1,2,3,4"%string, "dog"%string); ("5,6,7"%string, "car"%string)]).
  - unfold ReaderExamples.class_names.
    repeat (apply Forall_cons_2); try apply Forall_nil_2.
    + split; [eexists; vm_compute; reflexivity|].
      cbn. apply elem_of_cons; right; apply elem_of_cons; by left.
    + split; [eexists; vm_compute; reflexivity|].
      cbn. apply elem_of_cons; by left.
  - intros Hsame.
    specialize (Hsame "1,2,3,4"%string "dog"%string "5,6,7"%string
                  "car"%string).
    assert (H : (4 = 3)%nat); [|discriminate H].
    apply Hsame; [left|right; left].
Defined.

Lemma transform_gt_record_value_error_witness :
  transform_gt_record ReaderExamples.int
    (Some [("1,2,3,4"%string, "cat"%string)]) ReaderExamples.class_names
  = inl ValueError.
Proof.
  apply (transform_gt_record_value_error ReaderExamples.int
           ReaderExamples.class_names [("1,2,3,4"%string, "cat"%string)]).
  intros H. apply Forall_cons in H as [[_ H] _]. cbn in H.
  unfold ReaderExamples.class_names in H.
  apply elem_of_cons in H as [H|H]; [discriminate H|].
  apply elem_of_cons in H as [H|H]; [discriminate H|].
  by apply elem_of_nil in H.
Defined.
